(** * TSP-Algorithm: a shallow embedding of [src/algorithms.py] and [src/main.py]

    The development follows the Python module function by function:
    [path_length], [approx_tsp_tour], [held_karp], [christofides],
    [two_opt], [three_opt] and [fuzzopt]; of [src/main.py] it has
    [collect_tsp_files] and [main], over a file system and a reader of
    instances that are parameters.

    Conventions of the embedding.
    - City labels and list positions are [nat]; a label [u] is turned into
      the list index [u - 1] over [Z], so that Python's negative indexing
      (label [0] reads the last city) is written out.
    - Lengths are exact rationals ([Q]); rounding of floats is not modelled.
      Comparisons of lengths are the comparisons of [Q], equality of
      lengths is [Qeq].  The sums are taken in the order of the code; a
      property that compares sums taken in different orders holds of the
      floats of the code where no addition rounds, and has the hypothesis
      [exact_sums] that says so.
    - Exceptions and loops that may not end are results of type [res]:
      [Ok v], [Raise e], or [OutOfFuel] when the fuel given to a [while]
      loop (or the list of random draws) is used up before the loop ends.
    - The recursion of [dfs] is bounded as the interpreter bounds it: a
      run has a number of nested calls it may make, and the call beyond
      raises [RecursionError].
    - [city.distance] is not part of the module: it is a parameter
      [distance] of the sections below. *)

From Stdlib Require Import QArith Lqa ZArith Lia.
From stdpp Require Import gmap list strings.

(** ** Results of Python computations *)

Inductive exn := IndexError | ValueError | KeyError | RecursionError.

Inductive res (A : Type) : Type :=
| Ok (a : A)
| Raise (e : exn)
| OutOfFuel.
Arguments Ok {A} a.
Arguments Raise {A} e.
Arguments OutOfFuel {A}.

#[global] Instance res_ret : MRet res := fun _ a => Ok a.
#[global] Instance res_bind : MBind res := fun _ _ f m =>
  match m with
  | Ok a => f a
  | Raise e => Raise e
  | OutOfFuel => OutOfFuel
  end.

Definition returns {A} (m : res A) : Prop := ∃ a, m = Ok a.

(** [for x in l: acc = f(acc, x)] *)
Fixpoint for_each {A S} (f : S → A → res S) (s : S) (l : list A) : res S :=
  match l with
  | [] => Ok s
  | x :: l' => s' ← f s x; for_each f s' l'
  end.

(** [for x in l: ...; break] leaving the loop at the first [x] whose body
    produces a value. *)
Fixpoint for_first {A B} (f : A → res (option B)) (l : list A) : res (option B) :=
  match l with
  | [] => Ok None
  | x :: l' =>
      r ← f x;
      match r with
      | Some b => Ok (Some b)
      | None => for_first f l'
      end
  end.

(** [[f(x) for x in l]] *)
Fixpoint map_res {A B} (f : A → res B) (l : list A) : res (list B) :=
  match l with
  | [] => Ok []
  | x :: l' => y ← f x; ys ← map_res f l'; Ok (y :: ys)
  end.

(** ** Python sequences *)

(** [range(a, b)] *)
Definition range (a b : nat) : list nat := seq a (b - a).

(** [l[i]] for an integer [i]: negative indices count from the end. *)
Definition py_get {A} (l : list A) (i : Z) : res A :=
  let len := Z.of_nat (length l) in
  let j := if (i <? 0)%Z then (len + i)%Z else i in
  if (j <? 0)%Z then Raise IndexError
  else match l !! Z.to_nat j with
       | Some x => Ok x
       | None => Raise IndexError
       end.

(** [l[i]] at a position that the source keeps non-negative. *)
Definition item {A} (l : list A) (i : nat) : res A :=
  match l !! i with
  | Some x => Ok x
  | None => Raise IndexError
  end.

(** [l[a:b]] for [0 <= a], [0 <= b]: bounds are clamped, never an error. *)
Definition slice {A} (l : list A) (a b : nat) : list A := take (b - a) (drop a l).

(** [l[a:]] and [l[:b]] *)
Definition slice_from {A} (l : list A) (a : nat) : list A := drop a l.
Definition slice_to {A} (l : list A) (b : nat) : list A := take b l.

(** [l[start:stop:-1]] for [0 <= start], [0 <= stop]: the items at
    [start, start-1, ..., stop+1]; empty when [start <= stop]. *)
Definition slice_rev {A} (l : list A) (start stop : nat) : list A :=
  reverse (slice l (S stop) (S start)).

(** [min(l)] under a strict order [ltb]: the first minimal item;
    [ValueError] on an empty sequence. *)
Definition py_min {A} (ltb : A → A → bool) (l : list A) : res A :=
  match l with
  | [] => Raise ValueError
  | x :: l' => Ok (fold_left (fun best y => if ltb y best then y else best) l' x)
  end.

(** ** Lengths *)

Definition Qltb (a b : Q) : bool := negb (Qle_bool b a).

(** ** The instance and its distances *)

Section Instance.
Context {point : Type}.
Variable distance : point → point → Q.

(** The parsed instance: [tsp["DIMENSION"]] and [tsp["CITIES"]]. *)
Record instance := { DIMENSION : nat; CITIES : list point }.

Definition label_index (u : nat) : Z := (Z.of_nat u - 1)%Z.

Definition edge : Type := Q * nat * nat.

(** [dist = lambda i, j: distance(tsp["CITIES"][i-1], tsp["CITIES"][j-1])] *)
Definition dist (tsp : instance) (i j : nat) : res Q :=
  ci ← py_get (CITIES tsp) (label_index i);
  cj ← py_get (CITIES tsp) (label_index j);
  Ok (distance ci cj).

(** [path_length]: [total = 0], then [total += distance(...)] for the
    pairs [(u, v)] of [zip(tour, tour[1:])]. *)
Definition add_leg (tsp : instance) (total : Q) (uv : nat * nat) : res Q :=
  d ← dist tsp uv.1 uv.2;
  Ok (total + d)%Q.

Definition path_length (tsp : instance) (tour : list nat) : res Q :=
  for_each (add_leg tsp) 0%Q (zip tour (slice_from tour 1)).

(** *** Prim's algorithm (the first part of [approx_tsp_tour] and of
    [christofides], which carry the same loop) *)

(** [adj = defaultdict(list)]; a key that was never written reads as the
    empty list. *)
Definition adj_get (adj : gmap nat (list nat)) (u : nat) : list nat :=
  default [] (adj !! u).

(** [adj[u].append(v)] *)
Definition adj_append (adj : gmap nat (list nat)) (u v : nat) : gmap nat (list nat) :=
  <[u := adj_get adj u ++ [v]]> adj.

(** The heap holds tuples [(weight, u, v)], compared as Python compares
    tuples.  [heappop] returns the least tuple; the order in which the
    others are stored cannot be observed, so the heap is a list and
    [heappush] puts the item in front. *)
Definition edge_ltb (a b : edge) : bool :=
  let '(wa, ua, va) := a in
  let '(wb, ub, vb) := b in
  Qltb wa wb
  || (Qeq_bool wa wb && ((ua <? ub) || ((ua =? ub) && (va <? vb)))).

(** The least of [e :: h], and the other items. *)
Fixpoint pop_min (e : edge) (h : list edge) : edge * list edge :=
  match h with
  | [] => (e, [])
  | e' :: h' =>
      let '(m, rest) := pop_min e' h' in
      if edge_ltb m e then (m, e :: rest) else (e, h)
  end.

(** [for w in range(1, n+1): if w not in visited: heappush(...)] *)
Definition push_edges (tsp : instance) (n v : nat) (visited : gset nat)
    (heap : list edge) : res (list edge) :=
  for_each (fun heap w =>
    if decide (w ∈ visited) then Ok heap
    else d ← dist tsp v w; Ok ((d, v, w) :: heap))
    heap (range 1 (n + 1)).

(** [while heap and len(visited) < n:] *)
Fixpoint prim_loop (fuel : nat) (tsp : instance) (n : nat) (visited : gset nat)
    (adj : gmap nat (list nat)) (heap : list edge) : res (gmap nat (list nat)) :=
  match heap with
  | [] => Ok adj
  | e :: h =>
      if size visited <? n then
        match fuel with
        | 0 => OutOfFuel
        | S fuel' =>
            let '((_, u, v), heap) := pop_min e h in
            if decide (v ∈ visited) then prim_loop fuel' tsp n visited adj heap
            else
              let visited := visited ∪ {[v]} in
              let adj := adj_append (adj_append adj u v) v u in
              heap ← push_edges tsp n v visited heap;
              prim_loop fuel' tsp n visited adj heap
        end
      else Ok adj
  end.

(** The tree built from the root [1]; [n * n] iterations are enough for
    the loop to end ([prim_mst_returns]). *)
Definition prim_mst (tsp : instance) : res (gmap nat (list nat)) :=
  let n := DIMENSION tsp in
  let root := 1 in
  heap ← for_each (fun heap v => d ← dist tsp root v; Ok ((d, root, v) :: heap))
           [] (range 2 (n + 1));
  prim_loop (n * n) tsp n {[root]} ∅ heap.

(** *** MST preorder walk *)

(** [dfs(u, parent)], appending to [preorder].  [dfs] calls itself once
    per level of the tree, and the interpreter refuses a call that would
    exceed its recursion limit: [frames] is the number of nested calls of
    [dfs] it still allows, and the call beyond raises [RecursionError]. *)
Fixpoint dfs (frames : nat) (adj : gmap nat (list nat)) (u : nat) (parent : option nat)
    (preorder : list nat) : res (list nat) :=
  match frames with
  | 0 => Raise RecursionError
  | S frames' =>
      for_each (fun preorder w =>
        if decide (Some w = parent) then Ok preorder
        else dfs frames' adj w (Some u) preorder)
        (preorder ++ [u]) (adj_get adj u)
  end.

(** [approx_tsp_tour(tsp)], called where the interpreter allows [frames]
    nested calls of [dfs]. *)
Definition approx_tsp_tour (frames : nat) (tsp : instance) : res (Q * list nat) :=
  let n := DIMENSION tsp in
  let root := 1 in
  adj ← prim_mst tsp;
  preorder ← dfs frames adj root None [];
  let tour := preorder ++ [root] in
  total_cost ← for_each (add_leg tsp) 0%Q (zip tour (slice_from tour 1));
  Ok (total_cost, tour).

(** *** Held-Karp *)

(** [1 << (j-2)] *)
Definition city_bit (j : nat) : N := N.shiftl 1 (N.of_nat (j - 2)).

(** [itertools.combinations(l, r)], in its lexicographic order. *)
Fixpoint combinations {A} (l : list A) (r : nat) : list (list A) :=
  match r, l with
  | 0, _ => [[]]
  | S _, [] => []
  | S r', x :: l' => map (cons x) (combinations l' r') ++ combinations l' r
  end.

(** [dp[key]] *)
Definition dp_get (dp : gmap (N * nat) Q) (key : N * nat) : res Q :=
  match dp !! key with
  | Some c => Ok c
  | None => Raise KeyError
  end.

(** [min(dp[(prev_mask, k)] + dist(k, j) for k in subset if k != j)] *)
Definition hk_entry (tsp : instance) (dp : gmap (N * nat) Q) (subset : list nat)
    (mask : N) (j : nat) : res Q :=
  let prev_mask := N.lxor mask (city_bit j) in
  costs ← map_res (fun k => c ← dp_get dp (prev_mask, k); d ← dist tsp k j; Ok (c + d)%Q)
            (List.filter (fun k => negb (k =? j)) subset);
  py_min Qltb costs.

(** The body of [for subset in combinations(...)]. *)
Definition hk_subset (tsp : instance) (dp : gmap (N * nat) Q) (subset : list nat)
    : res (gmap (N * nat) Q) :=
  let mask := fold_left N.add (map city_bit subset) 0%N in
  for_each (fun dp j => c ← hk_entry tsp dp subset mask j; Ok (<[(mask, j) := c]> dp))
    dp subset.

(** Python's order on the tuples [(cost, j)]. *)
Definition cost_end_ltb (a b : Q * nat) : bool :=
  Qltb a.1 b.1 || (Qeq_bool a.1 b.1 && (a.2 <? b.2)).

Definition held_karp (tsp : instance) : res (Q * list nat) :=
  let n := DIMENSION tsp in
  dp ← for_each (fun dp j => d ← dist tsp 1 j; Ok (<[(city_bit j, j) := d]> dp))
         (∅ : gmap (N * nat) Q) (range 2 (n + 1));
  dp ← for_each (fun dp size =>
         for_each (hk_subset tsp) dp (combinations (range 2 (n + 1)) size))
         dp (range 2 n);
  (* [1 << (n-1)] raises [ValueError] on a negative shift count *)
  full_mask ← (if n =? 0 then Raise ValueError
               else Ok (N.shiftl 1 (N.of_nat (n - 1)) - 1)%N);
  closed ← map_res (fun j => c ← dp_get dp (full_mask, j); d ← dist tsp j 1; Ok ((c + d)%Q, j))
             (range 2 (n + 1));
  '(best_cost, best_end) ← py_min cost_end_ltb closed;
  let dummy_tour := [1] ++ range 2 (n + 1) ++ [1] in
  Ok (best_cost, dummy_tour).

(** *** Christofides *)

(** A Python [set] of labels gives no promise on the order in which it
    is iterated or on the element [pop] takes: both are parameters. *)
Variable set_pop : gset nat → nat.
Variable set_iter : gset nat → list nat.

(** [odd = [v for v, nbrs in adj.items() if len(nbrs) % 2 == 1]]; the
    list is only used through [set(odd)], so its order is left to
    [map_to_list]. *)
Definition odd_vertices (adj : gmap nat (list nat)) : list nat :=
  (map_to_list adj ≫= fun '(v, nbrs) => if length nbrs mod 2 =? 1 then [v] else []).

(** [min(unmatched, key=lambda x: dist(u, x))] *)
Definition nearest (tsp : instance) (u : nat) (unmatched : gset nat) : res nat :=
  keyed ← map_res (fun x => d ← dist tsp u x; Ok (d, x)) (set_iter unmatched);
  '(_, v) ← py_min (fun a b : Q * nat => Qltb a.1 b.1) keyed;
  Ok v.

(** [while unmatched:] of the greedy matching; every iteration takes at
    least one vertex out of [unmatched], whose size is the fuel. *)
Fixpoint greedy_matching (fuel : nat) (tsp : instance) (unmatched : gset nat)
    (matching : list (nat * nat)) (adj : gmap nat (list nat))
    : res (list (nat * nat) * gmap nat (list nat)) :=
  if decide (unmatched = ∅) then Ok (matching, adj)
  else match fuel with
       | 0 => OutOfFuel
       | S fuel' =>
           let u := set_pop unmatched in
           let unmatched := unmatched ∖ {[u]} in
           v ← nearest tsp u unmatched;
           let unmatched := unmatched ∖ {[v]} in
           let matching := matching ++ [(u, v)] in
           let adj := adj_append (adj_append adj u v) v u in
           greedy_matching fuel' tsp unmatched matching adj
       end.

(** [l.remove(x)]: the first occurrence; [ValueError] when there is none. *)
Fixpoint list_remove (x : nat) (l : list nat) : res (list nat) :=
  match l with
  | [] => Raise ValueError
  | y :: l' => if decide (y = x) then Ok l' else l'' ← list_remove x l'; Ok (y :: l'')
  end.

(** [while stack:] of [eulerian_tour]; the top of [stack] is its last
    item, as in the source. *)
Fixpoint eulerian_loop (fuel : nat) (adj : gmap nat (list nat)) (stack circuit : list nat)
    : res (list nat) :=
  match last stack with
  | None => Ok circuit
  | Some u =>
      match fuel with
      | 0 => OutOfFuel
      | S fuel' =>
          match last (adj_get adj u) with
          | Some v =>
              (* [v = adj[u].pop()] *)
              let adj := <[u := removelast (adj_get adj u)]> adj in
              (* [adj[v].remove(u)] *)
              nbrs ← list_remove u (adj_get adj v);
              let adj := <[v := nbrs]> adj in
              eulerian_loop fuel' adj (stack ++ [v]) circuit
          | None =>
              eulerian_loop fuel' adj (removelast stack) (circuit ++ [u])
          end
      end
  end.

(** Every iteration of [eulerian_loop] removes two entries of [adj] or
    one of [stack]: the number of entries plus one is enough fuel. *)
Definition adj_entries (adj : gmap nat (list nat)) : nat :=
  map_fold (fun _ nbrs acc => length nbrs + acc) 0 adj.

Definition eulerian_tour (adj : gmap nat (list nat)) (start : nat) : res (list nat) :=
  circuit ← eulerian_loop (S (adj_entries adj)) adj [start] [];
  Ok (reverse circuit).

(** The shortcut: the first occurrence of every vertex of the circuit. *)
Definition shortcut (circuit : list nat) : list nat :=
  (fold_left (fun '(tour, seen) v =>
     if decide (v ∈ seen) then (tour, seen) else (tour ++ [v], seen ∪ {[v]}))
     circuit ([], (∅ : gset nat))).1.

Definition christofides (tsp : instance) : res (Q * list nat) :=
  adj ← prim_mst tsp;
  let odd := odd_vertices adj in
  let unmatched : gset nat := list_to_set odd in
  '(matching, adj) ← greedy_matching (size unmatched) tsp unmatched [] adj;
  circuit ← eulerian_tour adj 1;
  let tour := shortcut circuit ++ [1] in
  len ← path_length tsp tour;
  Ok (len, tour).

(** [dist_matrix[a-1, b-1]] on a matrix stored by rows. *)
Definition matrix_get (m : list (list Q)) (a b : nat) : res Q :=
  row ← py_get m (label_index a);
  py_get row (label_index b).

(** *** 2-opt *)

(** The body of the two nested [for] loops of [two_opt]; the state is
    [(best_tour, best_length, improved)]. *)
Definition two_opt_body (tsp : instance) (tour : list nat) (m : list (list Q))
    (i j : nat) (st : list nat * Q * bool) : res (list nat * Q * bool) :=
  let '(best_tour, best_length, improved) := st in
  t_i1 ← item tour (i - 1);
  t_i ← item tour i;
  d1 ← matrix_get m t_i1 t_i;
  t_j ← item tour j;
  t_j1 ← item tour (j + 1);
  d2 ← matrix_get m t_j t_j1;
  let old_dist := (d1 + d2)%Q in
  d3 ← matrix_get m t_i1 t_j;
  d4 ← matrix_get m t_i t_j1;
  let new_dist := (d3 + d4)%Q in
  if Qltb new_dist old_dist then
    let new_tour := slice_to tour i ++ reverse (slice tour i (j + 1)) ++ slice_from tour (j + 1) in
    new_length ← path_length tsp new_tour;
    if Qltb new_length best_length then Ok (new_tour, new_length, true)
    else Ok st
  else Ok st.

Definition two_opt_sweep (tsp : instance) (tour : list nat) (m : list (list Q))
    (n : nat) (best_tour : list nat) (best_length : Q) : res (list nat * Q * bool) :=
  for_each (fun st i =>
    for_each (fun st j => two_opt_body tsp tour m i j st) st (range (i + 2) n))
    (best_tour, best_length, false) (range 1 (n - 2)).

(** [while improved:] of [two_opt]; [tour] is never reassigned. *)
Fixpoint two_opt_loop (fuel : nat) (tsp : instance) (tour : list nat) (m : list (list Q))
    (n : nat) (best_tour : list nat) (best_length : Q) : res (list nat * Q) :=
  match fuel with
  | 0 => OutOfFuel
  | S fuel' =>
      '(best_tour', best_length', improved) ← two_opt_sweep tsp tour m n best_tour best_length;
      if improved : bool then two_opt_loop fuel' tsp tour m n best_tour' best_length'
      else Ok (best_tour', best_length')
  end.

Definition two_opt (fuel : nat) (tsp : instance) (tour : list nat) (m : list (list Q))
    : res (list nat * Q) :=
  let n := length tour - 1 in
  let best_tour := tour in
  best_length ← path_length tsp best_tour;
  two_opt_loop fuel tsp tour m n best_tour best_length.

(** *** 3-opt *)

(** The body of the innermost loop: [Some (best_tour, best_length)] when
    one of the four cases fires (and the loops are left by [break]). *)
Definition three_opt_body (tsp : instance) (tour : list nat) (m : list (list Q))
    (i j k : nat) : res (option (list nat * Q)) :=
  a ← item tour (i - 1);
  b ← item tour i;
  c ← item tour (j - 1);
  d ← item tour j;
  e ← item tour (k - 1);
  f ← item tour k;
  ab ← matrix_get m a b;
  cd ← matrix_get m c d;
  ef ← matrix_get m e f;
  let orig_dist := (ab + cd + ef)%Q in
  ad ← matrix_get m a d;
  eb ← matrix_get m e b;
  cf ← matrix_get m c f;
  let new_dist1 := (ad + eb + cf)%Q in
  if Qltb new_dist1 orig_dist then
    let new_tour := slice_to tour i ++ slice_rev tour (j - 1) (k - 1)
                      ++ slice tour i j ++ slice_from tour k in
    len ← path_length tsp new_tour; Ok (Some (new_tour, len))
  else
  ab' ← matrix_get m a b;
  ed ← matrix_get m e d;
  cf' ← matrix_get m c f;
  let new_dist2 := (ab' + ed + cf')%Q in
  if Qltb new_dist2 orig_dist then
    let new_tour := slice_to tour i ++ slice tour j k
                      ++ slice tour i j ++ slice_from tour k in
    len ← path_length tsp new_tour; Ok (Some (new_tour, len))
  else
  ad' ← matrix_get m a d;
  cb ← matrix_get m c b;
  ef' ← matrix_get m e f;
  let new_dist3 := (ad' + cb + ef')%Q in
  if Qltb new_dist3 orig_dist then
    let new_tour := slice_to tour i ++ slice_rev tour (j - 1) (i - 1)
                      ++ slice_rev tour (k - 1) (j - 1) ++ slice_from tour k in
    len ← path_length tsp new_tour; Ok (Some (new_tour, len))
  else
  af ← matrix_get m a f;
  cd' ← matrix_get m c d;
  eb' ← matrix_get m e b;
  let new_dist4 := (af + cd' + eb')%Q in
  if Qltb new_dist4 orig_dist then
    let new_tour := slice_to tour i ++ slice_rev tour (k - 1) (j - 1)
                      ++ slice_rev tour j i ++ slice_from tour k in
    len ← path_length tsp new_tour; Ok (Some (new_tour, len))
  else Ok None.

Definition three_opt_sweep (tsp : instance) (tour : list nat) (m : list (list Q))
    (n : nat) : res (option (list nat * Q)) :=
  for_first (fun i =>
    for_first (fun j =>
      for_first (fun k => three_opt_body tsp tour m i j k) (range (j + 2) n))
      (range (i + 2) (n - 2)))
    (range 1 (n - 4)).

(** [while improved:] of [three_opt]; after an accepted move
    [tour = best_tour[:]], while [n] keeps its first value. *)
Fixpoint three_opt_loop (fuel : nat) (tsp : instance) (tour : list nat) (m : list (list Q))
    (n : nat) (best_tour : list nat) (best_length : Q) : res (list nat * Q) :=
  match fuel with
  | 0 => OutOfFuel
  | S fuel' =>
      r ← three_opt_sweep tsp tour m n;
      match r with
      | Some (best_tour', best_length') =>
          three_opt_loop fuel' tsp best_tour' m n best_tour' best_length'
      | None => Ok (best_tour, best_length)
      end
  end.

Definition three_opt (fuel : nat) (tsp : instance) (tour : list nat) (m : list (list Q))
    : res (list nat * Q) :=
  let n := length tour - 1 in
  let best_tour := tour in
  best_length ← path_length tsp best_tour;
  three_opt_loop fuel tsp tour m n best_tour best_length.

(** *** FuzzOpt *)

(** The source of randomness: [randint(a, b)] takes the next draw.  It
    raises [ValueError] on an empty range; with no draw left the run is
    cut short ([OutOfFuel]). *)
Definition randint (a b : nat) (draws : list nat) : res (nat * list nat) :=
  if b <? a then Raise ValueError
  else match draws with
       | [] => OutOfFuel
       | d :: rest => Ok (d, rest)
       end.

(** [while u == v: v = randint(a, b)] *)
Fixpoint redraw (a b u v : nat) (draws : list nat) : res (nat * list nat) :=
  if u =? v then
    if b <? a then Raise ValueError
    else match draws with
         | [] => OutOfFuel
         | d :: rest => redraw a b u d rest
         end
  else Ok (v, draws).

(** [xn[u], xn[v] = xn[v], xn[u]] *)
Definition swap_items (xn : list nat) (u v : nat) : res (list nat) :=
  xv ← item xn v;
  xu ← item xn u;
  Ok (<[v:=xu]> (<[u:=xv]> xn)).

(** The matrix filled by the two nested loops of [fuzzopt]. *)
Definition build_matrix (tsp : instance) (n : nat) : res (list (list Q)) :=
  map_res (fun i => map_res (fun j => dist tsp i j) (range 1 (n + 1))) (range 1 (n + 1)).

Definition local_search (use_three_opt : bool) :=
  if use_three_opt then three_opt else two_opt.

(** One iteration of the [for] loop of [fuzzopt]; the state is
    [(x, fx, draws)]. *)
Definition fuzzopt_step (fuel : nat) (tsp : instance) (use_three_opt : bool)
    (m : list (list Q)) (n : nat) (st : list nat * Q * list nat)
    : res (list nat * Q * list nat) :=
  let '(x, fx, draws) := st in
  let xn := x in
  '(u, draws) ← randint 1 (n - 1) draws;
  '(v, draws) ← randint 1 (n - 1) draws;
  '(v, draws) ← redraw 1 (n - 1) u v draws;
  xn ← swap_items xn u v;
  '(xn, fn) ← local_search use_three_opt fuel tsp xn m;
  if Qltb fn fx then Ok (xn, fn, draws) else Ok (x, fx, draws).

(** [fuzzopt(tsp, max_iterations, use_three_opt)]: [shuffle] is the list
    returned by [np.random.permutation(list(range(2, n+1)))], [draws] the
    successive values of [randint]; [fuel] bounds each local search. *)
Definition fuzzopt (fuel : nat) (shuffle draws : list nat) (tsp : instance)
    (max_iterations : option Z) (use_three_opt : bool) : res (Q * list nat) :=
  let n := DIMENSION tsp in
  m ← build_matrix tsp n;
  let x := [1] ++ shuffle ++ [1] in
  fx ← path_length tsp x;
  let max_iterations :=
    match max_iterations with
    | None => Z.of_nat n
    | Some z => if (z =? 0)%Z then Z.of_nat n else z
    end in
  '(x, fx, _) ← for_each (fun st (_ : nat) => fuzzopt_step fuel tsp use_three_opt m n st)
                  (x, fx, draws) (range 0 (Z.to_nat max_iterations));
  Ok (fx, x).

End Instance.

Arguments DIMENSION {point} _.
Arguments CITIES {point} _.

(** ** Concrete instances *)

(** Modelled from the spec: [city.distance] is not part of the module;
    the spec (4.1) calls it the Euclidean norm between coordinates.  That
    norm is a rational number between some points only, and
    [grid_distance] is the norm rounded down to a whole number: it is the
    distance of the spec exactly where the squared distance is a perfect
    square, as between two cities of one horizontal line
    ([grid_distance_on_line]), and not elsewhere.  Every concrete instance
    of this file has its cities on one horizontal line; the theorems about
    the solvers hold for every [distance]. *)
Definition grid_distance (p q : Z * Z) : Q :=
  inject_Z (Z.sqrt ((p.1 - q.1) ^ 2 + (p.2 - q.2) ^ 2)).

(** Cities on the line [y = 0] at the given abscissas. *)
Definition line_instance (xs : list Z) : instance :=
  {| DIMENSION := length xs; CITIES := map (fun x => (x, 0%Z)) xs |}.

Definition line_matrix (xs : list Z) : res (list (list Q)) :=
  build_matrix grid_distance (line_instance xs) (length xs).


(** ** The solvers as the command line selects them ([main.py]) *)

Inductive solver :=
| HeldKarp
| Christofides
| ApproxMst
| FuzzOpt (max_iterations : option Z) (use_three_opt : bool).

(** What a run depends on besides the instance: the behaviour of Python
    sets, the random numbers, the fuel of the local searches, and the
    number of nested calls the interpreter allows a solver (its recursion
    limit, 1000 unless changed, less the frames in use at the call). *)
Record environment := {
  env_set_pop : gset nat → nat;
  env_set_iter : gset nat → list nat;
  env_shuffle : list nat;
  env_draws : list nat;
  env_fuel : nat;
  env_frames : nat
}.

Definition solve {point} (distance : point → point → Q) (env : environment)
    (s : solver) (tsp : instance) : res (Q * list nat) :=
  match s with
  | HeldKarp => held_karp distance tsp
  | Christofides => christofides distance (env_set_pop env) (env_set_iter env) tsp
  | ApproxMst => approx_tsp_tour distance (env_frames env) tsp
  | FuzzOpt max_iterations use_three_opt =>
      fuzzopt distance (env_fuel env) (env_shuffle env) (env_draws env) tsp
        max_iterations use_three_opt
  end.

(** ** Vocabulary of the specification *)

(** A valid instance: [dimension >= 1] and one coordinate pair per city. *)
Definition valid_instance {point} (tsp : @instance point) : Prop :=
  1 ≤ DIMENSION tsp ∧ length (CITIES tsp) = DIMENSION tsp.

(** A valid tour over [n] cities: [n + 1] entries, first and last equal to
    [1], the first [n] entries a permutation of [1..n]. *)
Definition valid_tour (n : nat) (tour : list nat) : Prop :=
  length tour = S n ∧ head tour = Some 1 ∧ last tour = Some 1
  ∧ take n tour ≡ₚ seq 1 n.

#[global] Instance valid_tour_dec n tour : Decision (valid_tour n tour) :=
  ltac:(unfold valid_tour; apply _).

(** An environment whose sets behave like sets and whose random numbers
    are what [np.random.permutation] and [randint(1, n-1)] can return. *)
Definition sets_behave (env : environment) : Prop :=
  (∀ s : gset nat, s ≠ ∅ → env_set_pop env s ∈ s)
  ∧ (∀ s : gset nat, env_set_iter env s ≡ₚ elements s).

Definition random_behaves (n : nat) (env : environment) : Prop :=
  env_shuffle env ≡ₚ range 2 (n + 1)
  ∧ Forall (fun d => 1 ≤ d ≤ n - 1) (env_draws env).

(** A pair [(tour, length)] whose length is the one [path_length] computes. *)
Definition measured {point} (distance : point → point → Q) (tsp : instance)
    (p : list nat * Q) : Prop :=
  path_length distance tsp p.1 = Ok p.2.

(** The tour obtained by reversing [tour[i..j]]. *)
Definition reverse_segment (tour : list nat) (i j : nat) : list nat :=
  take i tour ++ reverse (slice tour i (j + 1)) ++ drop (j + 1) tour.

(** A simple environment for concrete runs; its 997 frames are about
    what the default recursion limit leaves a solver called from [main],
    below the frames of the module, of [main] and of the solver itself. *)
Definition first_element (s : gset nat) : nat := hd 0 (elements s).

Definition plain_env (shuffle draws : list nat) (fuel : nat) : environment :=
  {| env_set_pop := first_element; env_set_iter := elements;
     env_shuffle := shuffle; env_draws := draws; env_fuel := fuel;
     env_frames := 997 |}.

(** Six cities on a line, at the abscissas 0, 1, 2, 3, 4, 5. *)
Definition six_in_a_row : list Z := [0; 1; 2; 3; 4; 5]%Z.

(** Six cities on a line, city 1 at 3, city 2 at 0, city 3 at 1, ... *)
Definition six_spread : list Z := [3; 0; 1; 7; 12; 20]%Z.

(** The matrix [fuzzopt] builds for [six_in_a_row]. *)
Definition six_in_a_row_matrix : list (list Q) :=
  Eval vm_compute in
    match line_matrix six_in_a_row with Ok m => m | _ => [] end.

(** Four cities on a line, city 1 at 0, city 2 at 2, city 3 at 1, city 4 at 3. *)
Definition four_zigzag : list Z := [0; 2; 1; 3]%Z.

(** ** The run of Prim's algorithm, step by step *)

Definition in_range (n u : nat) : Prop := 1 ≤ u ≤ n.

(** The distance between two labels of the instance, as a number. *)
Definition dist_of {point} (distance : point → point → Q) (tsp : instance) (i j : nat) : Q :=
  match dist distance tsp i j with
  | Ok q => q
  | _ => 0%Q
  end.

(** The edges [push_edges] adds for [v], in the order of the loop. *)
Definition fresh_edges {point} (distance : point → point → Q) (tsp : instance)
    (n v : nat) (visited : gset nat) : list edge :=
  (fun w => (dist_of distance tsp v w, v, w)) <$> filter (fun w => w ∉ visited) (seq 1 n).

(** The states [(visited, adj, heap)] the [while] loop of [prim_loop] goes
    through. *)
Inductive prim_reach {point} (distance : point → point → Q) (tsp : instance)
  : gset nat → gmap nat (list nat) → list edge → Prop :=
| prim_reach_init :
    prim_reach distance tsp {[1]} ∅
      (reverse ((fun v => (dist_of distance tsp 1 v, 1, v)) <$> range 2 (DIMENSION tsp + 1)))
| prim_reach_skip visited adj e h w u v rest :
    prim_reach distance tsp visited adj (e :: h) →
    size visited < DIMENSION tsp →
    pop_min e h = ((w, u, v), rest) →
    v ∈ visited →
    prim_reach distance tsp visited adj rest
| prim_reach_add visited adj e h w u v rest :
    prim_reach distance tsp visited adj (e :: h) →
    size visited < DIMENSION tsp →
    pop_min e h = ((w, u, v), rest) →
    v ∉ visited →
    prim_reach distance tsp (visited ∪ {[v]})
      (adj_append (adj_append adj u v) v u)
      (reverse (fresh_edges distance tsp (DIMENSION tsp) v (visited ∪ {[v]})) ++ rest).

(** The state in which the loop ends. *)
Definition prim_final {point} (distance : point → point → Q) (tsp : instance)
    (adj : gmap nat (list nat)) : Prop :=
  ∃ visited heap,
    prim_reach distance tsp visited adj heap
    ∧ (heap = [] ∨ DIMENSION tsp ≤ size visited).

(** The labels of a reachable state. *)
Definition prim_labels {point} (tsp : @instance point) (visited : gset nat)
    (adj : gmap nat (list nat)) (heap : list edge) : Prop :=
  (∀ u, u ∈ visited → in_range (DIMENSION tsp) u)
  ∧ 1 ∈ visited
  ∧ Forall (fun e : edge => e.1.2 ∈ visited ∧ in_range (DIMENSION tsp) e.2) heap
  ∧ (∀ u, is_Some (adj !! u) → u ∈ visited)
  ∧ (∀ u v, v ∈ adj_get adj u → v ∈ visited ∧ v ≠ u).

(** The sum of the degrees of the vertices [1..n]. *)
Definition degree_sum (n : nat) (adj : gmap nat (list nat)) : nat :=
  sum_list ((fun v => length (adj_get adj v)) <$> seq 1 n).

(** The endpoints of the pairs of a matching. *)
Definition matched (matching : list (nat * nat)) : list nat :=
  matching ≫= fun '(u, v) => [u; v].

(** ** Held-Karp: what the table holds *)

(** The length of the walk [prev, p1, p2, ...], added to [acc] one leg
    after the other as [path_length] does. *)
Fixpoint walk_cost {point} (distance : point → point → Q) (tsp : instance)
    (prev : nat) (acc : Q) (path : list nat) : Q :=
  match path with
  | [] => acc
  | x :: path' => walk_cost distance tsp x (acc + dist_of distance tsp prev x) path'
  end.

(** [sum(1 << (j-2) for j in subset)] *)
Definition subset_mask (subset : list nat) : N :=
  fold_left N.add (map city_bit subset) 0%N.

(** [c] is the least cost of a path that starts at city 1, visits exactly
    the cities of [subset] and ends at [j]. *)
Definition hk_opt {point} (distance : point → point → Q) (tsp : instance)
    (subset : list nat) (j : nat) (c : Q) : Prop :=
  (∃ p, p ≡ₚ subset ∧ last p = Some j ∧ (c == walk_cost distance tsp 1 0 p)%Q)
  ∧ (∀ p, p ≡ₚ subset → last p = Some j → (c <= walk_cost distance tsp 1 0 p)%Q).

(** The subsets of the cities [2..n], in the order of the cities. *)
Definition hk_subsets {point} (tsp : @instance point) (subset : list nat) : Prop :=
  subset `sublist_of` range 2 (DIMENSION tsp + 1).

(** Every entry of the table is right. *)
Definition hk_sound {point} (distance : point → point → Q) (tsp : instance)
    (dp : gmap (N * nat) Q) : Prop :=
  ∀ subset j c, hk_subsets tsp subset → j ∈ subset →
    dp !! (subset_mask subset, j) = Some c → hk_opt distance tsp subset j c.

(** The table has an entry for every subset of at most [k] cities. *)
Definition hk_complete {point} (tsp : @instance point) (k : nat)
    (dp : gmap (N * nat) Q) : Prop :=
  ∀ subset j, hk_subsets tsp subset → 1 ≤ length subset ≤ k → j ∈ subset →
    is_Some (dp !! (subset_mask subset, j)).

(** [dp'] has all the keys of [dp]. *)
Definition hk_extends (dp dp' : gmap (N * nat) Q) : Prop :=
  ∀ key, is_Some (dp !! key) → is_Some (dp' !! key).

(** ** The tree of Prim's algorithm and its preorder walk *)

#[warnings="-register-all"]
Inductive tree := Node (label : nat) (children : list tree).

Definition root (t : tree) : nat :=
  match t with Node x _ => x end.

Fixpoint preorder (t : tree) : list nat :=
  match t with Node x cs => x :: (cs ≫= preorder) end.

(** The number of levels of the tree: the nested calls its [dfs] makes. *)
Fixpoint height (t : tree) : nat :=
  match t with Node x cs => S (max_list (height <$> cs)) end.

(** The edges [(parent, child)] of the tree. *)
Fixpoint tree_edges (t : tree) : list (nat * nat) :=
  match t with Node x cs => cs ≫= fun c => (x, root c) :: tree_edges c end.

(** [v] becomes the last child of [u]. *)
Fixpoint add_leaf (u v : nat) (t : tree) : tree :=
  match t with
  | Node x cs =>
      if decide (x = u) then Node x (cs ++ [Node v []])
      else Node x (add_leaf u v <$> cs)
  end.

(** [adj] holds the tree: the list of a vertex is its parent followed by
    its children, in the order in which they were added. *)
#[warnings="-register-all"]
Inductive tree_adj (adj : gmap nat (list nat)) : option nat → tree → Prop :=
| tree_adj_node parent x cs :
    adj_get adj x = option_list parent ++ (root <$> cs) →
    Forall (tree_adj adj (Some x)) cs →
    tree_adj adj parent (Node x cs).

(** The sum of the distances over a list of edges, and along a walk. *)
Definition edges_weight {point} (distance : point → point → Q) (tsp : instance)
    (edges : list (nat * nat)) : Q :=
  foldr (fun e acc => (dist_of distance tsp e.1 e.2 + acc)%Q) 0%Q edges.

Fixpoint path_cost {point} (distance : point → point → Q) (tsp : instance)
    (l : list nat) : Q :=
  match l with
  | x :: (y :: _) as l' => (dist_of distance tsp x y + path_cost distance tsp l')%Q
  | _ => 0%Q
  end.

(** The distances between the cities of the instance form a metric. *)
Definition metric_instance {point} (distance : point → point → Q) (tsp : instance) : Prop :=
  ∀ i j k, in_range (DIMENSION tsp) i → in_range (DIMENSION tsp) j →
    in_range (DIMENSION tsp) k →
    (dist_of distance tsp i i == 0)%Q
    ∧ (dist_of distance tsp i j == dist_of distance tsp j i)%Q
    ∧ (dist_of distance tsp i k <= dist_of distance tsp i j + dist_of distance tsp j k)%Q.

(** Undirected graphs as lists of edges: steps, walks, connection. *)
Definition step (edges : list (nat * nat)) (a b : nat) : Prop :=
  (a, b) ∈ edges ∨ (b, a) ∈ edges.

Fixpoint walk (edges : list (nat * nat)) (a : nat) (l : list nat) : Prop :=
  match l with
  | [] => True
  | b :: l' => step edges a b ∧ walk edges b l'
  end.

Definition joined (edges : list (nat * nat)) (a b : nat) : Prop :=
  ∃ l, walk edges a l ∧ last (a :: l) = Some b.

Definition connected (n : nat) (edges : list (nat * nat)) : Prop :=
  ∀ z, in_range n z → joined edges 1 z.

(** The edges with both ends in [s], and the edges that do not touch [x]. *)
Definition inside (s : gset nat) (edges : list (nat * nat)) : list (nat * nat) :=
  filter (fun e => e.1 ∈ s ∧ e.2 ∈ s) edges.

Definition avoiding (x : nat) (edges : list (nat * nat)) : list (nat * nat) :=
  filter (fun e => e.1 ≠ x ∧ e.2 ≠ x) edges.

Definition edges_in_range (n : nat) (edges : list (nat * nat)) : Prop :=
  Forall (fun e => in_range n e.1 ∧ in_range n e.2) edges.

(** The tree can be completed, by edges [rest], into a connected graph
    that weighs no more than the connected graph [graph]. *)
Definition mst_inv {point} (distance : point → point → Q) (tsp : instance)
    (graph : list (nat * nat)) (t : tree) : Prop :=
  ∃ rest,
    edges_in_range (DIMENSION tsp) rest
    ∧ connected (DIMENSION tsp) (tree_edges t ++ rest)
    ∧ (edges_weight distance tsp (tree_edges t) + edges_weight distance tsp rest
       <= edges_weight distance tsp graph)%Q.

(** The heap holds, with its distance, every edge from a visited vertex
    to a vertex that is not visited yet. *)
Definition prim_cut {point} (distance : point → point → Q) (tsp : instance)
    (visited : gset nat) (heap : list edge) : Prop :=
  Forall (fun e : edge => e.1.1 = dist_of distance tsp e.1.2 e.2) heap
  ∧ ∀ x y, x ∈ visited → in_range (DIMENSION tsp) y → y ∉ visited →
      (dist_of distance tsp x y, x, y) ∈ heap.

(** The tree that [adj] holds after some steps of Prim's loop. *)
Definition prim_tree (visited : gset nat) (adj : gmap nat (list nat)) (t : tree) : Prop :=
  root t = 1 ∧ NoDup (preorder t) ∧ (∀ z, z ∈ preorder t ↔ z ∈ visited)
  ∧ tree_adj adj None t.

(** The metric laws, checked on every triple of cities. *)
Definition metric_check {point} (distance : point → point → Q) (tsp : instance) : bool :=
  let labels := seq 1 (DIMENSION tsp) in
  forallb (fun i => forallb (fun j => forallb (fun k =>
    Qeq_bool (dist_of distance tsp i i) 0
    && Qeq_bool (dist_of distance tsp i j) (dist_of distance tsp j i)
    && Qle_bool (dist_of distance tsp i k)
         (dist_of distance tsp i j + dist_of distance tsp j k)) labels) labels) labels.

(** What the body of the loops of [two_opt] does with a candidate
    [(new_tour, new_length)], if the move passes the test on the matrix. *)
Definition two_opt_pick (st : list nat * Q * bool) (c : option (list nat * Q))
    : list nat * Q * bool :=
  match c with
  | Some (new_tour, new_length) =>
      if Qltb new_length st.1.2 then (new_tour, new_length, true) else st
  | None => st
  end.

(** The matrix [fuzzopt] builds on a valid instance. *)
Definition full_matrix {point} (distance : point → point → Q) (tsp : instance)
    : list (list Q) :=
  (fun i => (fun j => dist_of distance tsp i j) <$> seq 1 (DIMENSION tsp))
    <$> seq 1 (DIMENSION tsp).

(** Two results of [path_length] that agree: the same length (as a
    number) or the same failure. *)
Definition same_length (r1 r2 : res Q) : Prop :=
  match r1, r2 with
  | Ok a, Ok b => (a == b)%Q
  | Raise e1, Raise e2 => e1 = e2
  | OutOfFuel, OutOfFuel => True
  | _, _ => False
  end.

(** The label a city is read under: [CITIES[u-1]] reads the last city
    for [u = 0]. *)
Definition wrap_label (n u : nat) : nat := if decide (u = 0) then n else u.

(** The tours on which [path_length] does not leave the list of cities:
    no pair to look at, or every label at most [n]. *)
Definition labels_fit (n : nat) (tour : list nat) : Prop :=
  length tour ≤ 1 ∨ Forall (fun u => u ≤ n) tour.

(** Where the floats of the code do not round.  A float holds every whole
    number up to [2^53] and adds two of them exactly when their sum is
    within that range.  [exact_sums distance tsp k] says that the distances
    between the cities are whole numbers, [k] of which stay within
    [2^53]: then every sum of at most [k] distances is exact in whatever
    order it is taken, and the rational numbers of this development are
    the floats of the code. *)
Definition whole_within (k : nat) (d : Q) : Prop :=
  Qden (Qred d) = 1%positive
  ∧ (0 ≤ Qnum (Qred d))%Z ∧ (Z.of_nat k * Qnum (Qred d) ≤ 2 ^ 53)%Z.

Definition exact_sums {point} (distance : point → point → Q) (tsp : @instance point)
    (k : nat) : Prop :=
  Forall (fun p => Forall (fun q => whole_within k (distance p q)) (CITIES tsp)) (CITIES tsp).

#[global] Instance exact_sums_dec {point} (distance : point → point → Q) tsp k :
  Decision (exact_sums distance tsp k) :=
  ltac:(unfold exact_sums, whole_within; apply _).

(** ** The multigraph of [christofides] *)

(** How often [x] occurs in [l]. *)
Definition occurrences (x : nat) (l : list nat) : nat :=
  length (filter (fun y => y = x) l).

(** The adjacency lists of an undirected multigraph on the cities [1..n]
    without loops: [v] is in the list of [u] as often as [u] is in the
    list of [v]. *)
Definition sym_graph (n : nat) (adj : gmap nat (list nat)) : Prop :=
  (∀ u v, v ∈ adj_get adj u → in_range n u ∧ in_range n v ∧ v ≠ u)
  ∧ (∀ u v, occurrences v (adj_get adj u) = occurrences u (adj_get adj v)).

(** One step along an edge, and the cities that can be reached from [1]. *)
Definition adj_step (adj : gmap nat (list nat)) (a b : nat) : Prop :=
  b ∈ adj_get adj a.

Definition linked (n : nat) (adj : gmap nat (list nat)) : Prop :=
  ∀ z, in_range n z → rtc (adj_step adj) 1 z.

(** Every city has an even number of neighbours. *)
Definition even_degrees (adj : gmap nat (list nat)) : Prop :=
  ∀ v, length (adj_get adj v) mod 2 = 0.

(** What holds of [(adj, stack, circuit)] along the loop of
    [eulerian_tour], started at [start] on the adjacency lists [adj0]. *)
Definition euler_inv (n : nat) (adj0 : gmap nat (list nat)) (start : nat)
    (adj : gmap nat (list nat)) (stack circuit : list nat) : Prop :=
  sym_graph n adj
  ∧ (∀ x, x ∈ circuit → adj_get adj x = [])
  ∧ (∀ a b, b ∈ adj_get adj0 a →
       b ∈ adj_get adj a ∨ (a ∈ stack ++ circuit ∧ b ∈ stack ++ circuit))
  ∧ (∀ x, x ∈ stack ++ circuit → in_range n x)
  ∧ (head stack = Some start ∨ (stack = [] ∧ last circuit = Some start)).

(** [1] when the pair [x, y] is the pair [a, b], in one order or the other. *)
Definition link (a b x y : nat) : nat :=
  if decide ((x = a ∧ y = b) ∨ (x = b ∧ y = a)) then 1 else 0.

(** The state [(tour, seen)] of the shortcut loop after the vertices [l]. *)
Definition shortcut_state (l : list nat) (st : list nat * gset nat) : list nat * gset nat :=
  fold_left (fun '(tour, seen) v =>
    if decide (v ∈ seen) then (tour, seen) else (tour ++ [v], seen ∪ {[v]})) l st.

(** The move of [two_opt] at [(i, j)], when it passes the test on the
    distances: the tour with [tour[i..j]] reversed, and its length. *)
Definition two_opt_move {point} (distance : point → point → Q) (tsp : instance)
    (tour : list nat) (i j : nat) : option (list nat * Q) :=
  match tour !! (i - 1), tour !! i, tour !! j, tour !! (j + 1) with
  | Some a, Some b, Some c, Some e =>
      let old_dist := (dist_of distance tsp a b + dist_of distance tsp c e)%Q in
      let new_dist := (dist_of distance tsp a c + dist_of distance tsp b e)%Q in
      if Qltb new_dist old_dist then
        match path_length distance tsp (reverse_segment tour i j) with
        | Ok len => Some (reverse_segment tour i j, len)
        | _ => None
        end
      else None
  | _, _, _, _ => None
  end.

(** ** The command line ([main.py]) *)

(** The file system as [collect_tsp_files] sees it: [isdir], [isfile],
    and the list [iglob(join(p, "*.tsp"))] produces for a directory. *)
Record filesystem := {
  isdir : string → bool;
  isfile : string → bool;
  iglob_tsp : string → list string
}.

(** [s.endswith(suffix)] *)
Definition endswith (s suffix : string) : bool :=
  bool_decide (String.list_ascii_of_string suffix `suffix_of` String.list_ascii_of_string s).

(** What the generator does for one path after the other: it yields a
    file, or prints a warning. *)
Inductive event :=
| Yield (f : string)
| Warning (p : string).

Fixpoint collect_tsp_files (fs : filesystem) (paths : list string) : list event :=
  match paths with
  | [] => []
  | p :: paths' =>
      (if isdir fs p then Yield <$> iglob_tsp fs p
       else if isfile fs p && endswith p ".tsp" then [Yield p]
       else [Warning p])
      ++ collect_tsp_files fs paths'
  end.

(** The namespace [parse_args] returns. *)
Record arguments := {
  use_held_karp : bool;
  use_christofides : bool;
  use_mst_approx : bool;
  use_fuzzopt_2opt : bool;
  use_fuzzopt_3opt : bool;
  inputs : list string
}.

(** The [if]/[elif] chain of [main]: the name printed and the solver
    called; [None] when no flag is set, and [method] stays unbound. *)
Definition select (args : arguments) : option (string * solver) :=
  if use_held_karp args then Some ("Held–Karp", HeldKarp)
  else if use_christofides args then Some ("Christofides", Christofides)
  else if use_mst_approx args then Some ("MST-Preorder(2-Approx)", ApproxMst)
  else if use_fuzzopt_2opt args then Some ("FuzzOpt(2-opt)", FuzzOpt None false)
  else if use_fuzzopt_3opt args then Some ("FuzzOpt(3-opt)", FuzzOpt None true)
  else None.

(** The lines [main] prints, by what they hold. *)
Inductive line :=
| WarningLine (p : string)
| HeaderLine (name tsp_path : string)
| LengthLine (method : string) (length : Q)
| TourLine (tour : list nat).

(** How a run ends: normally, with an exception of a solver or of
    [read_tsp_file], with [method] unbound, or cut short for lack of
    fuel. *)
Inductive outcome :=
| Finished
| Failed (e : exn)
| UnboundLocalError
| CutShort.

Section Main.
Context {point : Type}.
Variable distance : point → point → Q.
(** [tspparse.read_tsp_file], which is not part of the module: the name
    and the instance of a file, or the exception it raises. *)
Variable read_tsp_file : string → res (string * @instance point).
Variable fs : filesystem.
(** The sets and the random numbers of the [k]-th run of a solver. *)
Variable envs : nat → environment.

(** The body of the loop of [main] for one file: the lines it prints and
    how it ends. *)
Definition report (args : arguments) (env : environment) (tsp_path : string)
    : list line * outcome :=
  match read_tsp_file tsp_path with
  | Ok (name, tsp) =>
      match select args with
      | Some (method, s) =>
          match solve distance env s tsp with
          | Ok (length, tour) =>
              ([HeaderLine name tsp_path; LengthLine method length; TourLine tour],
               Finished)
          | Raise e => ([], Failed e)
          | OutOfFuel => ([], CutShort)
          end
      | None => ([HeaderLine name tsp_path], UnboundLocalError)
      end
  | Raise e => ([], Failed e)
  | OutOfFuel => ([], CutShort)
  end.

(** [for tsp_path in collect_tsp_files(args.inputs): ...]: the generator
    runs as far as the loop asks, so a warning is printed when the loop
    reaches its path. *)
Fixpoint run_events (args : arguments) (k : nat) (events : list event)
    : list line * outcome :=
  match events with
  | [] => ([], Finished)
  | Warning p :: rest =>
      let '(out, o) := run_events args k rest in (WarningLine p :: out, o)
  | Yield f :: rest =>
      match report args (envs k) f with
      | (lines, Finished) =>
          let '(out, o) := run_events args (S k) rest in (lines ++ out, o)
      | (lines, o) => (lines, o)
      end
  end.

Definition main (args : arguments) : list line * outcome :=
  run_events args 0 (collect_tsp_files fs (inputs args)).

End Main.

(** The files of a list of events, and the headers among the lines. *)
Definition yielded (events : list event) : list string :=
  events ≫= fun ev => match ev with Yield f => [f] | Warning _ => [] end.


Definition headers (lines : list line) : list string :=
  lines ≫= fun l => match l with HeaderLine _ f => [f] | _ => [] end.

(** A directory [data] with two files, and nothing else that is a
    directory; every file holds the six cities of [six_spread], but
    [one.tsp], which holds a single city. *)
Definition sample_fs : filesystem :=
  {| isdir := fun p => String.eqb p "data";
     isfile := fun p => negb (String.eqb p "data");
     iglob_tsp := fun _ => ["data/a.tsp"; "data/b.tsp"] |}.

Definition sample_read (f : string) : res (string * @instance (Z * Z)) :=
  if String.eqb f "one.tsp" then Ok ("one", line_instance [0%Z])
  else Ok ("six", line_instance six_spread).

Definition sample_args (held_karp mst_approx : bool) (inputs : list string) : arguments :=
  {| use_held_karp := held_karp; use_christofides := false; use_mst_approx := mst_approx;
     use_fuzzopt_2opt := false; use_fuzzopt_3opt := false; inputs := inputs |}.

(** ** The circuit of [eulerian_tour] *)

(** The pairs of neighbours of a walk, and how often a walk goes along
    the edge [a - b], in one direction or the other. *)
Definition legs (l : list nat) : list (nat * nat) := zip l (drop 1 l).

Definition traversals (a b : nat) (l : list nat) : nat :=
  sum_list ((fun p : nat * nat => link a b p.1 p.2) <$> legs l).

(** The parity of the number of edges left at [x] while the walk is at
    [top] and has to come back to [anchor]. *)
Definition odd_end (top : option nat) (anchor x : nat) : nat :=
  match top with
  | Some t => if decide (t ≠ anchor ∧ (x = t ∨ x = anchor)) then 1 else 0
  | None => 0
  end.

(** The edges taken out of [adj0] so far are the legs of the stack, the
    legs of the circuit, and the edge from [anchor] to the end of the
    circuit that the stack still has to close. *)
Definition trail_inv (adj0 : gmap nat (list nat)) (start : nat)
    (adj : gmap nat (list nat)) (stack circuit : list nat) : Prop :=
  ∃ anchor,
    (circuit = [] → anchor = start)
    ∧ (∀ a b, a ≠ b →
         occurrences b (adj_get adj0 a)
         = occurrences b (adj_get adj a) + traversals a b stack + traversals a b circuit
           + match last stack, last circuit with
             | Some _, Some c => link a b anchor c
             | _, _ => 0
             end)
    ∧ (∀ x, length (adj_get adj x) mod 2 = odd_end (last stack) anchor x)
    ∧ (circuit = [] ∨ head circuit = Some start)
    ∧ (∀ x y, (x, y) ∈ legs stack ++ legs circuit → x ≠ y)
    ∧ (∀ c, stack ≠ [] → last circuit = Some c → anchor ≠ c).

(** [n] cities in a row, at the abscissas 0, 1, ..., [n - 1]. *)
Definition row (n : nat) : instance := line_instance (Z.of_nat <$> seq 0 n).

(** The tree that is one path: [a], [a + 1], ..., [a + k]. *)
Fixpoint chain (a k : nat) : tree :=
  match k with
  | 0 => Node a []
  | S k' => Node a [chain (S a) k']
  end.

(** * Properties *)

(** Decidable statements about concrete data are settled by evaluation. *)
Ltac decide_true := apply (bool_decide_unpack _); vm_compute; exact I.
Ltac decide_false := apply (proj1 (bool_decide_eq_false _)); vm_compute; reflexivity.

(** ** Comparison of lengths *)

Lemma Qltb_lt a b : Qltb a b = true ↔ (a < b)%Q.
Proof.
  unfold Qltb. rewrite negb_true_iff, <- not_true_iff_false, Qle_bool_iff.
  split; [apply Qnot_le_lt | apply Qlt_not_le].
Qed.

Lemma Qltb_ge a b : Qltb a b = false ↔ (b <= a)%Q.
Proof. unfold Qltb. rewrite negb_false_iff. apply Qle_bool_iff. Qed.

(** ** Runs on concrete instances *)

(** [C1]: 3-opt moves do not keep the tour a permutation.  On
    [six_in_a_row] and the valid tour 1,4,5,6,3,2,1 the first accepted move
    (case 4) yields 1,3,6,6,5,2,1; and a run of [fuzzopt] with 3-opt on
    [six_spread] returns length 40 with the tour 1,2,6,6,5,4,1, which
    visits city 6 twice and city 3 never. *)
Theorem fuzzopt_three_opt_returns_invalid_tour :
  valid_tour 6 [1; 4; 5; 6; 3; 2; 1]
  ∧ (m ← line_matrix six_in_a_row;
     three_opt_sweep grid_distance (line_instance six_in_a_row) [1; 4; 5; 6; 3; 2; 1] m 6)
    = Ok (Some ([1; 3; 6; 6; 5; 2; 1], 10%Q))
  ∧ ¬ valid_tour 6 [1; 3; 6; 6; 5; 2; 1]
  ∧ valid_instance (line_instance six_spread)
  ∧ random_behaves 6 (plain_env [5; 3; 6; 2; 4] [1; 2; 1; 4; 1; 4; 1; 4; 1; 4; 1; 4] 2)
  ∧ solve grid_distance (plain_env [5; 3; 6; 2; 4] [1; 2; 1; 4; 1; 4; 1; 4; 1; 4; 1; 4] 2)
      (FuzzOpt None true) (line_instance six_spread)
    = Ok (40%Q, [1; 2; 6; 6; 5; 4; 1])
  ∧ ¬ valid_tour 6 [1; 2; 6; 6; 5; 4; 1].
Proof.
  split_and!.
  - decide_true.
  - vm_compute; reflexivity.
  - decide_false.
  - decide_true.
  - decide_true.
  - vm_compute; reflexivity.
  - decide_false.
Qed.

(** [C4]: 3-opt accepts a move on the sum of three matrix entries that
    are not the edges its slices create, and takes the new length without
    comparing it: on [six_in_a_row] the valid tour 1,4,3,2,5,6,1 of length
    14 comes back as 1,3,4,5,2,6,1 of length 16. *)
Theorem three_opt_lengthens_tour (fuel : nat) :
  valid_instance (line_instance six_in_a_row)
  ∧ valid_tour 6 [1; 4; 3; 2; 5; 6; 1]
  ∧ path_length grid_distance (line_instance six_in_a_row) [1; 4; 3; 2; 5; 6; 1] = Ok 14%Q
  ∧ (m ← line_matrix six_in_a_row;
     three_opt grid_distance (S (S fuel)) (line_instance six_in_a_row) [1; 4; 3; 2; 5; 6; 1] m)
    = Ok ([1; 3; 4; 5; 2; 6; 1], 16%Q)
  ∧ ¬ (16 <= 14)%Q.
Proof.
  split_and!.
  - decide_true.
  - decide_true.
  - vm_compute; reflexivity.
  - vm_compute; reflexivity.
  - intros H; vm_compute in H; by apply H.
Qed.

(** [C5]: 2-opt evaluates every move on the tour it was given, keeps the
    best one and never restarts from the updated tour.  On [six_in_a_row]
    and the valid tour 1,4,2,5,3,6,1 (length 18) the first improving move
    of the sweep is the reversal of positions 1..4 (length 16); the
    function returns the reversal of positions 2..5 (length 14), and
    reversing positions 1..3 of that result gives length 12. *)
Theorem two_opt_result_not_locally_optimal (fuel : nat) :
  let tsp := line_instance six_in_a_row in
  let tour := [1; 4; 2; 5; 3; 6; 1] in
  let result := [1; 4; 6; 3; 5; 2; 1] in
  valid_tour 6 tour
  ∧ path_length grid_distance tsp tour = Ok 18%Q
  ∧ path_length grid_distance tsp (reverse_segment tour 1 3) = Ok 18%Q
  ∧ path_length grid_distance tsp (reverse_segment tour 1 4) = Ok 16%Q
  ∧ (m ← line_matrix six_in_a_row; two_opt grid_distance (S (S fuel)) tsp tour m)
    = Ok (result, 14%Q)
  ∧ result = reverse_segment tour 2 5
  ∧ valid_tour 6 (reverse_segment result 1 3)
  ∧ path_length grid_distance tsp (reverse_segment result 1 3) = Ok 12%Q
  ∧ (12 < 14)%Q.
Proof.
  split_and!; try (vm_compute; reflexivity); decide_true.
Qed.

(** [C6]: on a single city [held_karp] takes [min] of an empty sequence
    and [fuzzopt] calls [randint(1, 0)]: both raise [ValueError];
    [approx_tsp_tour], which needs one call of [dfs], and [christofides]
    return the tour 1,1 and the length [0 + distance(c, c)]. *)
Theorem single_city_held_karp_fuzzopt_raise {point} (distance : point → point → Q)
    (c : point) (set_pop : gset nat → nat) (set_iter : gset nat → list nat)
    (draws : list nat) (fuel frames : nat) (use_three_opt : bool) :
  let tsp := {| DIMENSION := 1; CITIES := [c] |} in
  let env := {| env_set_pop := set_pop; env_set_iter := set_iter;
                env_shuffle := []; env_draws := draws; env_fuel := fuel;
                env_frames := S frames |} in
  valid_instance tsp
  ∧ solve distance env HeldKarp tsp = Raise ValueError
  ∧ solve distance env (FuzzOpt None use_three_opt) tsp = Raise ValueError
  ∧ solve distance env ApproxMst tsp = Ok ((0 + distance c c)%Q, [1; 1])
  ∧ solve distance env Christofides tsp = Ok ((0 + distance c c)%Q, [1; 1]).
Proof.
  split_and!; try (vm_compute; reflexivity).
  vm_compute; split; reflexivity.
Qed.

(** ** Loops that do not end *)

Lemma bind_Ok {A B} (a : A) (f : A → res B) : (Ok a ≫= f) = f a.
Proof. reflexivity. Qed.

Lemma three_opt_loop_S {point} (distance : point → point → Q) fuel tsp tour m n bt bl :
  three_opt_loop distance (S fuel) tsp tour m n bt bl
  = (r ← three_opt_sweep distance tsp tour m n;
     match r with
     | Some (bt', bl') => three_opt_loop distance fuel tsp bt' m n bt' bl'
     | None => Ok (bt, bl)
     end).
Proof. reflexivity. Qed.

(** A tour that case 4 of [three_opt] maps to itself. *)
Lemma three_opt_sweep_stuck :
  three_opt_sweep grid_distance (line_instance six_in_a_row) [1; 6; 6; 6; 6; 2; 1]
    six_in_a_row_matrix 6
  = Ok (Some ([1; 6; 6; 6; 6; 2; 1], 10%Q)).
Proof. vm_compute; reflexivity. Qed.

Lemma three_opt_loop_stuck fuel bt bl :
  three_opt_loop grid_distance fuel (line_instance six_in_a_row) [1; 6; 6; 6; 6; 2; 1]
    six_in_a_row_matrix 6 bt bl
  = OutOfFuel.
Proof.
  revert bt bl; induction fuel as [|fuel IH]; intros bt bl; [reflexivity|].
  rewrite three_opt_loop_S, three_opt_sweep_stuck, bind_Ok. apply IH.
Qed.

Lemma redraw_no_other_value draws :
  Forall (fun d => 1 ≤ d ≤ 1) draws → redraw 1 1 1 1 draws = OutOfFuel.
Proof.
  induction 1 as [|d draws Hd _ IH]; [reflexivity|].
  assert (d = 1) as -> by lia. exact IH.
Qed.

Lemma fuzzopt_step_two_cities {point} (distance : point → point → Q) fuel tsp use3 m x fx draws :
  Forall (fun d => 1 ≤ d ≤ 1) draws →
  fuzzopt_step distance fuel tsp use3 m 2 (x, fx, draws) = OutOfFuel.
Proof.
  intros Hd. unfold fuzzopt_step.
  destruct Hd as [|d1 draws H1 Hd]; [reflexivity|].
  assert (d1 = 1) as -> by lia.
  destruct Hd as [|d2 draws H2 Hd]; [reflexivity|].
  assert (d2 = 1) as -> by lia.
  cbn [randint Nat.ltb Nat.leb Nat.sub]. rewrite !bind_Ok.
  by rewrite (redraw_no_other_value draws Hd).
Qed.

(** [C7]: two loops that never end.  On [six_in_a_row] and the valid
    tour 1,4,5,6,3,2,1 the moves of case 4 of [three_opt] reach
    1,6,6,6,6,2,1, which the same case maps to itself with
    [improved = True]: no amount of fuel lets the [while] loop end.  On any
    two cities the only value of [randint(1, 1)] is 1, so the loop
    [while u == v] of [fuzzopt] never ends, whatever the draws. *)
Theorem three_opt_and_fuzzopt_diverge {point} (distance : point → point → Q)
    (c1 c2 : point) (env : environment) (use_three_opt : bool) (fuel : nat) :
  random_behaves 2 env →
  valid_instance (line_instance six_in_a_row)
  ∧ valid_tour 6 [1; 4; 5; 6; 3; 2; 1]
  ∧ (m ← line_matrix six_in_a_row;
     three_opt grid_distance fuel (line_instance six_in_a_row) [1; 4; 5; 6; 3; 2; 1] m)
    = OutOfFuel
  ∧ valid_instance {| DIMENSION := 2; CITIES := [c1; c2] |}
  ∧ solve distance env (FuzzOpt None use_three_opt) {| DIMENSION := 2; CITIES := [c1; c2] |}
    = OutOfFuel.
Proof.
  intros [Hshuffle Hdraws]. split_and!.
  - decide_true.
  - decide_true.
  - change (line_matrix six_in_a_row) with (Ok six_in_a_row_matrix).
    rewrite bind_Ok. unfold three_opt.
    change (path_length _ _ _) with (Ok 10%Q). rewrite bind_Ok.
    change (length _ - 1) with 6.
    destruct fuel as [|[|[|fuel]]]; try reflexivity.
    rewrite three_opt_loop_S.
    change (three_opt_sweep _ _ [1; 4; 5; 6; 3; 2; 1] _ _)
      with (Ok (Some ([1; 3; 6; 6; 5; 2; 1], 10%Q))).
    rewrite bind_Ok, three_opt_loop_S.
    change (three_opt_sweep _ _ [1; 3; 6; 6; 5; 2; 1] _ _)
      with (Ok (Some ([1; 5; 6; 6; 6; 2; 1], 10%Q))).
    rewrite bind_Ok, three_opt_loop_S.
    change (three_opt_sweep _ _ [1; 5; 6; 6; 6; 2; 1] _ _)
      with (Ok (Some ([1; 6; 6; 6; 6; 2; 1], 10%Q))).
    rewrite bind_Ok. apply three_opt_loop_stuck.
  - split; simpl; lia.
  - destruct env as [sp si shuffle draws fuel']; simpl in *.
    apply Permutation_singleton_r in Hshuffle as ->.
    unfold fuzzopt.
    change (build_matrix _ _ _) with
      (Ok [[distance c1 c1; distance c1 c2]; [distance c2 c1; distance c2 c2]]).
    rewrite bind_Ok.
    change (path_length _ _ _) with (Ok (0 + distance c1 c2 + distance c2 c1)%Q).
    rewrite bind_Ok.
    change (range 0 _) with [0; 1].
    cbn [for_each]. by rewrite fuzzopt_step_two_cities.
Qed.

Lemma three_opt_and_fuzzopt_diverge_witness :
  random_behaves 2 (plain_env [2] [1; 1; 1] 5)
  ∧ solve grid_distance (plain_env [2] [1; 1; 1] 5) (FuzzOpt None false)
      {| DIMENSION := 2; CITIES := [(0, 0); (1, 0)]%Z |}
    = OutOfFuel.
Proof.
  assert (random_behaves 2 (plain_env [2] [1; 1; 1] 5)) as H by decide_true.
  split; [exact H|].
  apply (three_opt_and_fuzzopt_diverge grid_distance (0, 0)%Z (1, 0)%Z _ false 0 H).
Defined.

(** ** Loops and results *)

Lemma bind_Ok_inv {A B} (m : res A) (f : A → res B) (b : B) :
  (m ≫= f) = Ok b → ∃ a, m = Ok a ∧ f a = Ok b.
Proof. destruct m as [a| |]; [eauto|discriminate..]. Qed.

(** Split the first [bind] of a hypothesis [m ≫= f = Ok b]. *)
Ltac bind_inv H :=
  let a := fresh "a" in
  let Ha := fresh "Ha" in
  apply bind_Ok_inv in H as (a & Ha & H).

Lemma for_each_inv {A S} (P : S → Prop) (f : S → A → res S) l s s' :
  (∀ s x s', P s → x ∈ l → f s x = Ok s' → P s') →
  P s → for_each f s l = Ok s' → P s'.
Proof.
  revert s; induction l as [|x l IH]; intros s Hf Hs Hrun; simpl in Hrun.
  - by inversion Hrun; subst.
  - bind_inv Hrun. apply (IH a); [|by eapply Hf; [done|left|]|done].
    intros s1 y s2 ? ? ?; eapply Hf; [done|by right|done].
Qed.

Lemma for_first_Some {A B} (f : A → res (option B)) l b :
  for_first f l = Ok (Some b) → ∃ x, x ∈ l ∧ f x = Ok (Some b).
Proof.
  induction l as [|x l IH]; simpl; [discriminate|]. intros H.
  bind_inv H. destruct a as [b'|].
  - inversion H; subst. exists x; split; [left|done].
  - destruct (IH H) as (y & ? & ?). exists y; split; [by right|done].
Qed.

(** ** The reported length is the length of the reported tour *)

Section Lengths.
Context {point : Type} (distance : point → point → Q).
Implicit Types (tsp : @instance point) (tour : list nat) (m : list (list Q)).

Lemma two_opt_body_measured tsp tour m i j bt bl imp bt' bl' imp' :
  measured distance tsp (bt, bl) →
  two_opt_body distance tsp tour m i j (bt, bl, imp) = Ok (bt', bl', imp') →
  measured distance tsp (bt', bl').
Proof.
  intros Hm H. unfold two_opt_body in H.
  do 8 bind_inv H.
  destruct (Qltb _ _); [|by inversion H; subst].
  bind_inv H. destruct (Qltb _ _); inversion H; by subst.
Qed.

Lemma two_opt_sweep_measured tsp tour m n bt bl bt' bl' imp' :
  measured distance tsp (bt, bl) →
  two_opt_sweep distance tsp tour m n bt bl = Ok (bt', bl', imp') →
  measured distance tsp (bt', bl').
Proof.
  intros Hm H. unfold two_opt_sweep in H.
  apply (for_each_inv (fun st => measured distance tsp st.1)) in H; [done| |done].
  intros [[b1 l1] i1] i [[b2 l2] i2] H1 _ H2.
  apply (for_each_inv (fun st => measured distance tsp st.1)) in H2; [done| |done].
  intros [[b3 l3] i3] j [[b4 l4] i4] H3 _ H4. by eapply two_opt_body_measured.
Qed.

Lemma two_opt_loop_measured fuel tsp tour m n bt bl r :
  measured distance tsp (bt, bl) →
  two_opt_loop distance fuel tsp tour m n bt bl = Ok r →
  measured distance tsp r.
Proof.
  revert bt bl; induction fuel as [|fuel IH]; intros bt bl Hm H; [discriminate|].
  simpl in H. bind_inv H. destruct a as [[bt' bl'] imp].
  pose proof (two_opt_sweep_measured _ _ _ _ _ _ _ _ _ Hm Ha) as Hm'.
  destruct imp; [by eapply IH|by inversion H; subst].
Qed.

Lemma two_opt_measured fuel tsp tour m r :
  two_opt distance fuel tsp tour m = Ok r → measured distance tsp r.
Proof.
  unfold two_opt. intros H. bind_inv H. by eapply two_opt_loop_measured.
Qed.

Lemma three_opt_body_measured tsp tour m i j k r :
  three_opt_body distance tsp tour m i j k = Ok (Some r) → measured distance tsp r.
Proof.
  unfold three_opt_body. intros H.
  do 12 bind_inv H.
  destruct (Qltb _ _); [bind_inv H; by inversion H; subst|].
  do 3 bind_inv H.
  destruct (Qltb _ _); [bind_inv H; by inversion H; subst|].
  do 3 bind_inv H.
  destruct (Qltb _ _); [bind_inv H; by inversion H; subst|].
  do 3 bind_inv H.
  destruct (Qltb _ _); [bind_inv H; by inversion H; subst|discriminate].
Qed.

Lemma three_opt_sweep_measured tsp tour m n r :
  three_opt_sweep distance tsp tour m n = Ok (Some r) → measured distance tsp r.
Proof.
  unfold three_opt_sweep. intros H.
  apply for_first_Some in H as (i & _ & H).
  apply for_first_Some in H as (j & _ & H).
  apply for_first_Some in H as (k & _ & H).
  by eapply three_opt_body_measured.
Qed.

Lemma three_opt_loop_measured fuel tsp tour m n bt bl r :
  measured distance tsp (bt, bl) →
  three_opt_loop distance fuel tsp tour m n bt bl = Ok r →
  measured distance tsp r.
Proof.
  revert tour bt bl; induction fuel as [|fuel IH]; intros tour bt bl Hm H; [discriminate|].
  rewrite three_opt_loop_S in H. bind_inv H. destruct a as [[bt' bl']|].
  - apply three_opt_sweep_measured in Ha. by eapply IH.
  - by inversion H; subst.
Qed.

Lemma three_opt_measured fuel tsp tour m r :
  three_opt distance fuel tsp tour m = Ok r → measured distance tsp r.
Proof.
  unfold three_opt. intros H. bind_inv H. by eapply three_opt_loop_measured.
Qed.

Lemma local_search_measured use3 fuel tsp tour m r :
  local_search distance use3 fuel tsp tour m = Ok r → measured distance tsp r.
Proof. destruct use3; [apply three_opt_measured|apply two_opt_measured]. Qed.

(** What one iteration of [fuzzopt] does to the incumbent: it is kept, or
    replaced by the result of the local search when that is strictly
    shorter. *)
Lemma fuzzopt_step_cases fuel tsp use3 m n x fx draws x' fx' draws' :
  fuzzopt_step distance fuel tsp use3 m n (x, fx, draws) = Ok (x', fx', draws') →
  (x' = x ∧ fx' = fx) ∨ (measured distance tsp (x', fx') ∧ (fx' < fx)%Q).
Proof.
  unfold fuzzopt_step. intros H.
  bind_inv H. destruct a as [u d1].
  bind_inv H. destruct a as [v d2].
  bind_inv H. destruct a as [v' d3].
  bind_inv H. bind_inv H. destruct a0 as [xn fn].
  destruct (Qltb fn fx) eqn:Hlt; inversion H; subst; [right|by left].
  split; [by eapply local_search_measured|by apply Qltb_lt].
Qed.

Lemma fuzzopt_inv (I : list nat * Q → Prop) fuel shuffle draws tsp mi use3 fx x :
  (∀ f0, path_length distance tsp ([1] ++ shuffle ++ [1]) = Ok f0 →
         I ([1] ++ shuffle ++ [1], f0)) →
  (∀ x fx x' fx', I (x, fx) → measured distance tsp (x', fx') → (fx' < fx)%Q → I (x', fx')) →
  fuzzopt distance fuel shuffle draws tsp mi use3 = Ok (fx, x) →
  I (x, fx).
Proof.
  intros Hinit Hstep H. unfold fuzzopt in H.
  bind_inv H. bind_inv H. bind_inv H. destruct a1 as [[x1 fx1] d1].
  inversion H; subst.
  apply (for_each_inv (fun st => I st.1)) in Ha1; [done| |by apply Hinit].
  intros [[x2 f2] d2] _ [[x3 f3] d3] HI _ Hs.
  apply fuzzopt_step_cases in Hs as [[-> ->]|[? ?]]; [done|by eapply Hstep].
Qed.

End Lengths.

(** [C3], counterexample: on [four_zigzag] Held-Karp reports the optimal
    cost 6 together with the tour 1,2,3,4,1, whose length is 8. *)
Lemma held_karp_length_differs_from_tour :
  valid_instance (line_instance four_zigzag)
  ∧ solve grid_distance (plain_env [] [] 0) HeldKarp (line_instance four_zigzag)
    = Ok (6%Q, [1; 2; 3; 4; 1])
  ∧ path_length grid_distance (line_instance four_zigzag) [1; 2; 3; 4; 1] = Ok 8%Q
  ∧ ¬ (8 == 6)%Q.
Proof.
  split_and!; [decide_true|vm_compute; reflexivity..|].
  intros H; vm_compute in H; discriminate.
Qed.

(** [C3], as amended: whenever [christofides], [approx_tsp_tour] or
    [fuzzopt] (with 2-opt or 3-opt) returns [(length, tour)], [path_length]
    of that tour is exactly the reported length; [held_karp] returns its
    cost with the placeholder tour 1,2,...,n,1. *)
Theorem reported_length_is_path_length {point} (distance : point → point → Q)
    (env : environment) (s : solver) (tsp : instance) (len : Q) (tour : list nat) :
  solve distance env s tsp = Ok (len, tour) →
  match s with
  | HeldKarp => tour = [1] ++ range 2 (DIMENSION tsp + 1) ++ [1]
  | _ => path_length distance tsp tour = Ok len
  end.
Proof.
  destruct s as [| | |mi use3]; simpl; intros H.
  - unfold held_karp in H. do 5 bind_inv H. destruct a3. by inversion H.
  - unfold christofides in H. do 2 bind_inv H. destruct a0.
    do 2 bind_inv H. by inversion H; subst.
  - unfold approx_tsp_tour in H. do 3 bind_inv H. by inversion H; subst.
  - apply (fuzzopt_inv distance (measured distance tsp)) in H; [done..|].
    by intros f0 ?.
Qed.

Lemma reported_length_is_path_length_witness :
  path_length grid_distance (line_instance six_spread) [1; 3; 2; 6; 5; 4; 1] = Ok 40%Q.
Proof.
  apply (reported_length_is_path_length grid_distance
           (plain_env [5; 3; 6; 2; 4] [1; 2; 1; 4; 1; 4; 1; 4; 1; 4; 1; 4] 2)
           (FuzzOpt None false)).
  vm_compute; reflexivity.
Defined.

(** [C9]: the length [fuzzopt] returns is at most the length of its
    initial tour [[1] + shuffle + [1]]; an iteration leaves the incumbent
    as it is or replaces it by a strictly shorter result of the local
    search. *)
Theorem fuzzopt_never_regresses {point} (distance : point → point → Q)
    (fuel : nat) (shuffle draws : list nat) (tsp : instance)
    (max_iterations : option Z) (use_three_opt : bool) (fx : Q) (x : list nat) :
  fuzzopt distance fuel shuffle draws tsp max_iterations use_three_opt = Ok (fx, x) →
  (∃ f0, path_length distance tsp ([1] ++ shuffle ++ [1]) = Ok f0 ∧ (fx <= f0)%Q)
  ∧ (∀ m n y fy d y' fy' d',
       fuzzopt_step distance fuel tsp use_three_opt m n (y, fy, d) = Ok (y', fy', d') →
       (y' = y ∧ fy' = fy) ∨ (fy' < fy)%Q).
Proof.
  intros H. split.
  - pose proof H as H0. unfold fuzzopt in H0. do 2 bind_inv H0. exists a0. split; [done|].
    apply (fuzzopt_inv distance (fun p => (p.2 <= a0)%Q)) in H; [done|..].
    + intros f0 Hf0. rewrite Ha0 in Hf0. inversion Hf0; subst. apply Qle_refl.
    + simpl. intros ? f1 ? f2 Hle _ Hlt. apply Qlt_le_weak. by eapply Qlt_le_trans.
  - intros m n y fy d y' fy' d' Hs.
    apply fuzzopt_step_cases in Hs as [?|[_ ?]]; [by left|by right].
Qed.

Lemma fuzzopt_never_regresses_witness :
  ∃ f0, path_length grid_distance (line_instance six_spread) ([1] ++ [5; 3; 6; 2; 4] ++ [1]) = Ok f0
        ∧ (40 <= f0)%Q.
Proof.
  apply (fuzzopt_never_regresses grid_distance 2 [5; 3; 6; 2; 4]
           [1; 2; 1; 4; 1; 4; 1; 4; 1; 4; 1; 4] (line_instance six_spread) None false
           40%Q [1; 3; 2; 6; 5; 4; 1]).
  vm_compute; reflexivity.
Defined.

(** ** Distances of a valid instance *)

Section Distances.
Context {point : Type} (distance : point → point → Q).
Implicit Types (tsp : @instance point).

Lemma py_get_label {A} (l : list A) u :
  1 ≤ u ≤ length l → ∃ x, py_get l (label_index u) = Ok x.
Proof.
  intros Hu. unfold py_get, label_index.
  destruct (Z.ltb_spec (Z.of_nat u - 1) 0) as [?|_]; [lia|].
  destruct (Z.ltb_spec (Z.of_nat u - 1) 0) as [?|_]; [lia|].
  destruct (lookup_lt_is_Some_2 l (Z.to_nat (Z.of_nat u - 1))) as [x Hx]; [lia|].
  rewrite Hx. eauto.
Qed.

Lemma dist_in_range tsp i j :
  valid_instance tsp →
  in_range (DIMENSION tsp) i → in_range (DIMENSION tsp) j →
  dist distance tsp i j = Ok (dist_of distance tsp i j).
Proof.
  intros [_ Hlen] Hi Hj. unfold dist_of, dist. unfold in_range in *.
  destruct (py_get_label (CITIES tsp) i) as [ci ->]; [lia|].
  destruct (py_get_label (CITIES tsp) j) as [cj ->]; [lia|].
  reflexivity.
Qed.

Lemma for_each_pure {A S} (f : S → A → res S) (g : S → A → S) l s :
  (∀ s x, x ∈ l → f s x = Ok (g s x)) →
  for_each f s l = Ok (foldl g s l).
Proof.
  revert s; induction l as [|x l IH]; intros s Hf; [reflexivity|].
  simpl. rewrite Hf by left. rewrite bind_Ok. apply IH.
  intros; apply Hf; by right.
Qed.

Lemma map_res_pure {A B} (f : A → res B) (g : A → B) l :
  (∀ x, x ∈ l → f x = Ok (g x)) → map_res f l = Ok (g <$> l).
Proof.
  induction l as [|x l IH]; intros Hf; [reflexivity|].
  simpl. rewrite Hf by left. rewrite bind_Ok, IH; [reflexivity|].
  intros; apply Hf; by right.
Qed.

Lemma elem_of_range a b x : x ∈ range a b ↔ a ≤ x < b.
Proof. unfold range. rewrite elem_of_seq. lia. Qed.

Lemma push_edges_fresh tsp v visited heap :
  valid_instance tsp → in_range (DIMENSION tsp) v →
  push_edges distance tsp (DIMENSION tsp) v visited heap
  = Ok (reverse (fresh_edges distance tsp (DIMENSION tsp) v visited) ++ heap).
Proof.
  intros Hv Hin. unfold push_edges, fresh_edges.
  rewrite (for_each_pure _ (fun heap w =>
    if decide (w ∈ visited) then heap else (dist_of distance tsp v w, v, w) :: heap)).
  - f_equal. replace (range 1 (DIMENSION tsp + 1)) with (seq 1 (DIMENSION tsp))
      by (unfold range; f_equal; lia).
    generalize (seq 1 (DIMENSION tsp)) as l. intros l; revert heap.
    induction l as [|w l IH]; intros heap; [reflexivity|]. simpl.
    rewrite IH. rewrite filter_cons. destruct (decide (w ∈ visited)) as [Hw|Hw].
    + by rewrite decide_False by (by intros ?).
    + rewrite decide_True by done. rewrite fmap_cons, reverse_cons, <- app_assoc. done.
  - intros h w Hw. destruct (decide _); [done|].
    rewrite dist_in_range; [done..|]. apply elem_of_range in Hw. unfold in_range; lia.
Qed.

Lemma pop_min_perm (e : edge) h m rest : pop_min e h = (m, rest) → e :: h ≡ₚ m :: rest.
Proof.
  revert e m rest; induction h as [|e' h IH]; intros e m rest H; simpl in H.
  - by inversion H.
  - destruct (pop_min e' h) as [m' rest'] eqn:Hp. specialize (IH _ _ _ Hp).
    destruct (edge_ltb m' e); inversion H; subst; [|done].
    rewrite IH. apply perm_swap.
Qed.

End Distances.

(** ** Prim's loop: invariants and termination *)

Section Prim.
Context {point : Type} (distance : point → point → Q).
Implicit Types (tsp : @instance point) (adj : gmap nat (list nat)) (heap : list edge).

Lemma foldl_cons_reverse {A B} (g : A → B) (l : list A) (acc : list B) :
  foldl (fun h v => g v :: h) acc l = reverse (g <$> l) ++ acc.
Proof.
  revert acc; induction l as [|x l IH]; intros acc; [reflexivity|].
  simpl. rewrite IH, reverse_cons, <- app_assoc. done.
Qed.

Lemma adj_get_append adj u v x :
  adj_get (adj_append adj u v) x
  = if decide (x = u) then adj_get adj u ++ [v] else adj_get adj x.
Proof.
  unfold adj_append, adj_get at 1. destruct (decide (x = u)) as [->|Hne].
  - by rewrite lookup_insert_eq.
  - by rewrite lookup_insert_ne.
Qed.

Lemma adj_append_dom adj u v x :
  is_Some (adj_append adj u v !! x) ↔ x = u ∨ is_Some (adj !! x).
Proof.
  unfold adj_append. rewrite lookup_insert_is_Some. split.
  - intros [->|[_ ?]]; auto.
  - intros [->|?]; [by left|]. destruct (decide (u = x)); [by left|by right].
Qed.

Lemma prim_reach_labels tsp visited adj heap :
  valid_instance tsp →
  prim_reach distance tsp visited adj heap → prim_labels tsp visited adj heap.
Proof.
  intros [Hn Hlen]. induction 1 as
    [|visited adj e h w u v rest _ IH Hsize Hpop Hv
     |visited adj e h w u v rest _ IH Hsize Hpop Hv].
  - split_and!.
    + intros u ->%elem_of_singleton. unfold in_range; lia.
    + set_solver.
    + apply Forall_forall. intros e. rewrite elem_of_reverse, list_elem_of_fmap.
      intros (v & -> & Hv%elem_of_range). simpl. split; [set_solver|unfold in_range; lia].
    + intros u [? Hu]. by rewrite lookup_empty in Hu.
    + intros u v. unfold adj_get. rewrite lookup_empty. simpl. by intros ?%elem_of_nil.
  - destruct IH as (H1 & H2 & H3 & H4 & H5). split_and!; try done.
    apply pop_min_perm in Hpop. rewrite Hpop in H3. by apply Forall_cons in H3 as [_ ?].
  - destruct IH as (H1 & H2 & H3 & H4 & H5).
    apply pop_min_perm in Hpop. rewrite Hpop in H3. apply Forall_cons in H3 as [[Hu Hvr] H3].
    simpl in Hu, Hvr. split_and!.
    + intros x [?| ->%elem_of_singleton]%elem_of_union; [by apply H1|done].
    + set_solver.
    + apply Forall_app. split.
      * apply Forall_forall. intros x. unfold fresh_edges.
        rewrite elem_of_reverse, list_elem_of_fmap.
        intros (y & -> & [_ Hy%elem_of_seq]%list_elem_of_filter). simpl.
        split; [set_solver|unfold in_range; lia].
      * eapply Forall_impl; [exact H3|]. intros x [? ?]. split; [set_solver|done].
    + intros x. rewrite !adj_append_dom. intros [->|[->|Hx]]; [set_solver..|].
      apply H4 in Hx. set_solver.
    + intros x y. rewrite !adj_get_append.
      assert (u ≠ v) as Huv by (intros ->; done).
      destruct (decide (x = v)) as [->|Hxv].
      * rewrite decide_False by done.
        intros [Hy| ->%list_elem_of_singleton]%elem_of_app; [|set_solver].
        assert (adj_get adj v = []) as Hnil; [|rewrite Hnil in Hy; by apply elem_of_nil in Hy].
        unfold adj_get. destruct (adj !! v) eqn:E; [|done].
        exfalso. apply Hv, H4. by eexists.
      * destruct (decide (x = u)) as [->|Hxu].
        -- intros [Hy| ->%list_elem_of_singleton]%elem_of_app; [|set_solver].
           apply H5 in Hy. set_solver.
        -- intros Hy. apply H5 in Hy. set_solver.
Qed.

Lemma filter_length_lt {A} (P : A → Prop) `{!∀ x, Decision (P x)} (l : list A) x :
  x ∈ l → ¬ P x → length (filter P l) < length l.
Proof.
  induction l as [|y l IH]; intros Hx HP; [by apply elem_of_nil in Hx|].
  rewrite filter_cons. apply elem_of_cons in Hx as [->|Hx].
  - rewrite decide_False by done. simpl. pose proof (length_filter P l). lia.
  - specialize (IH Hx HP). destruct (decide (P y)); simpl; lia.
Qed.

Lemma fresh_edges_length tsp v (visited : gset nat) :
  in_range (DIMENSION tsp) v → v ∈ visited →
  length (fresh_edges distance tsp (DIMENSION tsp) v visited) < DIMENSION tsp.
Proof.
  intros Hr Hv. unfold fresh_edges. rewrite length_fmap.
  eapply Nat.lt_le_trans; [apply (filter_length_lt _ _ v)|].
  - apply elem_of_seq. unfold in_range in Hr; lia.
  - by intros ?.
  - by rewrite length_seq.
Qed.

(** The loop ends before its fuel does. *)
Lemma prim_loop_total tsp fuel visited adj heap :
  valid_instance tsp →
  prim_reach distance tsp visited adj heap →
  length heap + (DIMENSION tsp - size visited) * DIMENSION tsp ≤ fuel →
  ∃ adj', prim_loop distance fuel tsp (DIMENSION tsp) visited adj heap = Ok adj'
          ∧ prim_final distance tsp adj'.
Proof.
  intros Hvalid. revert visited adj heap.
  induction fuel as [|fuel IH]; intros visited adj heap Hreach Hfuel.
  - destruct heap as [|e h].
    + exists adj. split; [done|]. exists visited, []. by split; [|left].
    + simpl. destruct (Nat.ltb_spec (size visited) (DIMENSION tsp)) as [Hlt|Hge].
      * simpl in Hfuel. nia.
      * exists adj. split; [done|]. exists visited, (e :: h). by split; [|right].
  - destruct heap as [|e h].
    + exists adj. split; [done|]. exists visited, []. by split; [|left].
    + simpl. destruct (Nat.ltb_spec (size visited) (DIMENSION tsp)) as [Hlt|Hge].
      2:{ exists adj. split; [done|]. exists visited, (e :: h). by split; [|right]. }
      destruct (pop_min e h) as [[[w u] v] rest] eqn:Hpop.
      pose proof (pop_min_perm _ _ _ _ Hpop) as Hperm.
      assert (length rest = length h) as Hlen
        by (apply Permutation_length in Hperm; simpl in Hperm; lia).
      destruct (decide (v ∈ visited)) as [Hv|Hv].
      * apply IH; [by eapply prim_reach_skip|]. simpl in Hfuel. lia.
      * pose proof (prim_reach_labels _ _ _ _ Hvalid Hreach) as (_ & _ & Hheap & _).
        rewrite Hperm in Hheap. apply Forall_cons in Hheap as [[_ Hvr] _]. simpl in Hvr.
        rewrite push_edges_fresh by done. rewrite bind_Ok.
        apply IH; [by eapply prim_reach_add|].
        rewrite length_app, length_reverse, size_union, size_singleton by set_solver.
        pose proof (fresh_edges_length tsp v (visited ∪ {[v]}) Hvr) as Hfresh.
        specialize (Hfresh ltac:(set_solver)). simpl in Hfuel. nia.
Qed.

(** [prim_mst] returns on every valid instance. *)
Lemma prim_mst_returns tsp :
  valid_instance tsp →
  ∃ adj, prim_mst distance tsp = Ok adj ∧ prim_final distance tsp adj.
Proof.
  intros Hvalid. unfold prim_mst.
  rewrite (for_each_pure _ (fun heap v => (dist_of distance tsp 1 v, 1, v) :: heap)).
  - rewrite bind_Ok, foldl_cons_reverse, app_nil_r.
    apply prim_loop_total; [done|constructor|].
    rewrite length_reverse, length_fmap, size_singleton. unfold range. rewrite length_seq.
    destruct Hvalid. nia.
  - intros h v Hv%elem_of_range. destruct Hvalid as [? ?].
    rewrite dist_in_range; [done|by split|unfold in_range; lia..].
Qed.

End Prim.

(** ** Degrees of the tree and the greedy matching *)

Section Matching.
Context {point : Type} (distance : point → point → Q).
Implicit Types (tsp : @instance point) (adj : gmap nat (list nat)).

Lemma sum_list_bump (f g : nat → nat) (l : list nat) u :
  NoDup l → u ∈ l → g u = S (f u) → (∀ x, x ≠ u → g x = f x) →
  sum_list (g <$> l) = S (sum_list (f <$> l)).
Proof.
  intros Hnd Hu Hgu Hg. induction l as [|x l IH]; [by apply elem_of_nil in Hu|].
  apply NoDup_cons in Hnd as [Hx Hnd]. rewrite !fmap_cons.
  apply elem_of_cons in Hu as [->|Hu].
  - assert (g <$> l = f <$> l) as ->; [|rewrite Hgu; simpl; lia].
    apply list_fmap_ext. intros i y Hy%list_elem_of_lookup_2.
    apply Hg. by intros ->.
  - change (g x + sum_list (g <$> l) = S (f x + sum_list (f <$> l))).
    rewrite (IH Hnd Hu), Hg by (by intros ->). lia.
Qed.

Lemma degree_sum_append n adj u v :
  in_range n u → degree_sum n (adj_append adj u v) = S (degree_sum n adj).
Proof.
  intros Hu. unfold degree_sum. apply (sum_list_bump _ _ _ u).
  - apply NoDup_seq.
  - apply elem_of_seq. unfold in_range in Hu; lia.
  - rewrite adj_get_append, decide_True by done. rewrite length_app. simpl. lia.
  - intros x Hx. by rewrite adj_get_append, decide_False.
Qed.

(** Every edge counts for two degrees. *)
Lemma prim_reach_degree_sum tsp visited adj heap :
  valid_instance tsp →
  prim_reach distance tsp visited adj heap →
  Nat.Even (degree_sum (DIMENSION tsp) adj).
Proof.
  intros Hvalid Hreach. induction Hreach as
    [|visited adj e h w u v rest Hreach IH Hsize Hpop Hv
     |visited adj e h w u v rest Hreach IH Hsize Hpop Hv].
  - exists 0. unfold degree_sum. induction (seq 1 (DIMENSION tsp)); [done|].
    simpl. unfold adj_get at 1. by rewrite lookup_empty.
  - done.
  - pose proof (prim_reach_labels _ _ _ _ _ Hvalid Hreach) as (Hr & _ & Hheap & _).
    apply pop_min_perm in Hpop. rewrite Hpop in Hheap.
    apply Forall_cons in Hheap as [[Hu Hvr] _]. simpl in Hu, Hvr.
    rewrite !degree_sum_append by auto. destruct IH as [k ->]. exists (S k). lia.
Qed.

Lemma odd_count_parity (f : nat → nat) (l : list nat) :
  ∃ k, sum_list (f <$> l) = length (filter (fun v => f v mod 2 = 1) l) + 2 * k.
Proof.
  induction l as [|x l [k IH]]; [by exists 0|].
  rewrite fmap_cons, filter_cons.
  change (sum_list (f x :: (f <$> l))) with (f x + sum_list (f <$> l)). rewrite IH.
  pose proof (Nat.div_mod_eq (f x) 2) as Hdiv.
  pose proof (Nat.mod_upper_bound (f x) 2 ltac:(done)) as Hlt.
  destruct (decide (f x mod 2 = 1)) as [H1|H1].
  - exists (k + f x / 2). rewrite length_cons. lia.
  - exists (k + f x / 2). lia.
Qed.

Lemma odd_vertices_filter adj :
  odd_vertices adj = (filter (fun p : nat * list nat => length p.2 mod 2 = 1) (map_to_list adj)).*1.
Proof.
  unfold odd_vertices. induction (map_to_list adj) as [|[v nbrs] l IH]; [done|].
  rewrite filter_cons, bind_cons, IH. cbn [snd].
  destruct (Nat.eqb_spec (length nbrs mod 2) 1) as [H1|H1].
  - by rewrite decide_True.
  - by rewrite decide_False.
Qed.

Lemma elem_of_odd_vertices adj v :
  v ∈ odd_vertices adj ↔ is_Some (adj !! v) ∧ length (adj_get adj v) mod 2 = 1.
Proof.
  rewrite odd_vertices_filter, list_elem_of_fmap. split.
  - intros ([v' nbrs] & -> & [Hodd Hin%elem_of_map_to_list]%list_elem_of_filter).
    simpl in *. unfold adj_get. rewrite Hin. eauto.
  - intros [[nbrs Hin] Hodd]. exists (v, nbrs). split; [done|].
    apply list_elem_of_filter. unfold adj_get in Hodd. rewrite Hin in Hodd.
    split; [done|by apply elem_of_map_to_list].
Qed.

Lemma NoDup_odd_vertices adj : NoDup (odd_vertices adj).
Proof.
  rewrite odd_vertices_filter.
  apply (sublist_NoDup _ (map_to_list adj).*1).
  - apply NoDup_fst_map_to_list.
  - apply fmap_sublist, sublist_filter.
Qed.

(** The handshake lemma for the adjacency lists [prim_mst] returns. *)
Lemma prim_final_odd_even tsp adj :
  valid_instance tsp → prim_final distance tsp adj →
  Nat.Even (length (odd_vertices adj))
  ∧ ∀ v, v ∈ odd_vertices adj → in_range (DIMENSION tsp) v.
Proof.
  intros Hvalid (visited & heap & Hreach & _).
  pose proof (prim_reach_labels _ _ _ _ _ Hvalid Hreach) as (Hr & _ & _ & Hdom & _).
  assert (∀ v, v ∈ odd_vertices adj → in_range (DIMENSION tsp) v) as Hrange.
  { intros v [Hv _]%elem_of_odd_vertices. auto. }
  split; [|done].
  assert (odd_vertices adj
          ≡ₚ filter (fun v => length (adj_get adj v) mod 2 = 1) (seq 1 (DIMENSION tsp))) as ->.
  { apply NoDup_Permutation; [apply NoDup_odd_vertices|apply NoDup_filter, NoDup_seq|].
    intros v. rewrite list_elem_of_filter, elem_of_odd_vertices, elem_of_seq. split.
    - intros [Hv Hodd]. split; [done|]. apply Hdom, Hr in Hv. unfold in_range in Hv. lia.
    - intros [Hodd _]. split; [|done]. unfold adj_get in Hodd.
      destruct (adj !! v); [done|]. vm_compute in Hodd. discriminate. }
  destruct (prim_reach_degree_sum _ _ _ _ Hvalid Hreach) as [k Hk].
  destruct (odd_count_parity (fun v => length (adj_get adj v)) (seq 1 (DIMENSION tsp)))
    as [k' Hk'].
  unfold degree_sum in Hk. rewrite Hk in Hk'. exists (k - k'). lia.
Qed.

Lemma py_min_elem_of {A} (ltb : A → A → bool) (l : list A) x :
  py_min ltb l = Ok x → x ∈ l.
Proof.
  destruct l as [|y l]; [discriminate|]. intros [= <-].
  revert y. induction l as [|z l IH]; intros y; [left|].
  simpl. destruct (ltb z y).
  - right. apply IH.
  - specialize (IH y). apply elem_of_cons in IH as [->|?]; [left|right; by right].
Qed.

Lemma py_min_returns {A} (ltb : A → A → bool) (l : list A) :
  l ≠ [] → ∃ x, py_min ltb l = Ok x.
Proof. destruct l; [done|]. intros _. by eexists. Qed.

Lemma elements_remove (s : gset nat) x :
  x ∈ s → elements s ≡ₚ x :: elements (s ∖ {[x]}).
Proof.
  intros Hx. rewrite <- elements_union_singleton by set_solver.
  by rewrite <- union_difference_singleton_L.
Qed.

Lemma matched_snoc matching u v : matched (matching ++ [(u, v)]) = matched matching ++ [u; v].
Proof. unfold matched. rewrite bind_app. simpl. done. Qed.

Context (set_pop : gset nat → nat) (set_iter : gset nat → list nat).
Hypothesis set_pop_elem_of : ∀ s : gset nat, s ≠ ∅ → set_pop s ∈ s.
Hypothesis set_iter_elements : ∀ s : gset nat, set_iter s ≡ₚ elements s.

Lemma nearest_returns tsp u (unmatched : gset nat) :
  valid_instance tsp → in_range (DIMENSION tsp) u →
  (∀ v, v ∈ unmatched → in_range (DIMENSION tsp) v) →
  unmatched ≠ ∅ →
  ∃ v, nearest distance set_iter tsp u unmatched = Ok v ∧ v ∈ unmatched.
Proof.
  intros Hvalid Hu Hr Hne. unfold nearest.
  rewrite (map_res_pure _ (fun x => (dist_of distance tsp u x, x))).
  - rewrite bind_Ok.
    destruct (py_min_returns (fun a b : Q * nat => Qltb a.1 b.1)
                ((fun x => (dist_of distance tsp u x, x)) <$> set_iter unmatched))
      as [[d v] Hmin].
    { intros Hnil%fmap_nil_inv. apply Hne, leibniz_equiv, elements_empty_inv.
      apply Permutation_nil_r. by rewrite <- set_iter_elements, Hnil. }
    rewrite Hmin, bind_Ok. exists v. split; [done|].
    apply py_min_elem_of, list_elem_of_fmap in Hmin as (x & [= -> ->] & Hx).
    rewrite set_iter_elements in Hx. by apply elem_of_elements in Hx.
  - intros x Hx. rewrite set_iter_elements in Hx. apply elem_of_elements in Hx.
    rewrite dist_in_range; auto.
Qed.

(** The matching loop pairs all of [unmatched] when its size is even. *)
Lemma greedy_matching_total tsp fuel (unmatched : gset nat) matching adj :
  valid_instance tsp →
  (∀ v, v ∈ unmatched → in_range (DIMENSION tsp) v) →
  Nat.Even (size unmatched) → size unmatched ≤ fuel →
  ∃ matching' adj',
    greedy_matching distance set_pop set_iter fuel tsp unmatched matching adj
    = Ok (matching', adj')
    ∧ matched matching' ≡ₚ matched matching ++ elements unmatched.
Proof.
  intros Hvalid. revert unmatched matching adj.
  induction fuel as [|fuel IH]; intros unmatched matching adj Hr Heven Hfuel.
  - assert (unmatched = ∅) as -> by (apply leibniz_equiv, size_empty_iff; lia).
    exists matching, adj. simpl. rewrite decide_True by done.
    by rewrite elements_empty, app_nil_r.
  - simpl. destruct (decide (unmatched = ∅)) as [->|Hne].
    { exists matching, adj. by rewrite elements_empty, app_nil_r. }
    pose proof (set_pop_elem_of _ Hne) as Hu.
    set (u := set_pop unmatched) in *.
    assert (size unmatched = S (size (unmatched ∖ {[u]}))) as Hsize.
    { rewrite (union_difference_singleton_L u unmatched) at 1 by done.
      rewrite size_union, size_singleton by set_solver. done. }
    destruct (nearest_returns tsp u (unmatched ∖ {[u]})) as (v & -> & Hv); auto.
    { intros x Hx. apply Hr. set_solver. }
    { intros Hempty. rewrite Hempty, size_empty in Hsize. destruct Heven as [k Hk]. lia. }
    rewrite bind_Ok.
    assert (size (unmatched ∖ {[u]}) = S (size (unmatched ∖ {[u]} ∖ {[v]}))) as Hsize'.
    { rewrite (union_difference_singleton_L v (unmatched ∖ {[u]})) at 1 by done.
      rewrite size_union, size_singleton by set_solver. done. }
    destruct (IH (unmatched ∖ {[u]} ∖ {[v]}) (matching ++ [(u, v)])
                (adj_append (adj_append adj u v) v u)) as (matching' & adj' & -> & Hperm).
    { intros x Hx. apply Hr. set_solver. }
    { destruct Heven as [k Hk]. exists (k - 1). lia. }
    { lia. }
    exists matching', adj'. split; [done|].
    rewrite Hperm, matched_snoc, <- app_assoc. apply Permutation_app_head.
    rewrite (elements_remove unmatched u), (elements_remove (unmatched ∖ {[u]}) v) by done.
    done.
Qed.

End Matching.

(** [C10]: on a valid instance, whatever the order of Python's sets, the
    tree of [christofides] is built without error, its odd-degree vertices
    are an even number, and the greedy matching never reaches [min] of an
    empty set: it returns, and the endpoints of its pairs are the
    odd-degree vertices, each exactly once. *)
Theorem christofides_matching_total {point} (distance : point → point → Q)
    (env : environment) (tsp : instance) :
  valid_instance tsp → sets_behave env →
  ∃ adj,
    prim_mst distance tsp = Ok adj
    ∧ NoDup (odd_vertices adj)
    ∧ Nat.Even (length (odd_vertices adj))
    ∧ ∃ matching adj',
        greedy_matching distance (env_set_pop env) (env_set_iter env)
          (size (list_to_set (odd_vertices adj) : gset nat)) tsp
          (list_to_set (odd_vertices adj)) [] adj
        = Ok (matching, adj')
        ∧ matched matching ≡ₚ odd_vertices adj.
Proof.
  intros Hvalid [Hpop Hiter].
  destruct (prim_mst_returns distance tsp Hvalid) as (adj & Hprim & Hfinal).
  destruct (prim_final_odd_even distance tsp adj Hvalid Hfinal) as [Heven Hrange].
  pose proof (NoDup_odd_vertices adj) as Hnd.
  exists adj. split_and!; [done..|].
  destruct (greedy_matching_total distance _ _ Hpop Hiter tsp
              (size (list_to_set (odd_vertices adj) : gset nat))
              (list_to_set (odd_vertices adj)) [] adj) as (matching & adj' & Hrun & Hperm);
    [done| |by rewrite size_list_to_set|done|].
  - intros v Hv%elem_of_list_to_set. auto.
  - exists matching, adj'. split; [done|].
    rewrite Hperm. simpl. by apply elements_list_to_set.
Qed.

Lemma christofides_matching_total_witness :
  ∃ adj,
    prim_mst grid_distance (line_instance six_spread) = Ok adj
    ∧ NoDup (odd_vertices adj)
    ∧ Nat.Even (length (odd_vertices adj))
    ∧ ∃ matching adj',
        greedy_matching grid_distance first_element elements
          (size (list_to_set (odd_vertices adj) : gset nat)) (line_instance six_spread)
          (list_to_set (odd_vertices adj)) [] adj
        = Ok (matching, adj')
        ∧ matched matching ≡ₚ odd_vertices adj.
Proof.
  apply (christofides_matching_total grid_distance (plain_env [] [] 0) (line_instance six_spread)).
  - split; simpl; lia.
  - split; simpl.
    + intros s Hs. unfold first_element. apply elem_of_elements.
      destruct (elements s) as [|x l] eqn:E; [|left].
      by apply elements_empty_inv, leibniz_equiv in E.
    + done.
Defined.

(** ** Held-Karp *)

Section Masks.

Lemma city_bit_testbit j i : N.testbit (city_bit j) i = (N.of_nat (j - 2) =? i)%N.
Proof. unfold city_bit. by rewrite N.shiftl_1_l, N.pow2_bits_eqb. Qed.

Lemma fold_mask_testbit (subset : list nat) (acc : N) (i : N) :
  NoDup subset → Forall (fun x => 2 ≤ x) subset →
  (∀ x, x ∈ subset → N.testbit acc (N.of_nat (x - 2)) = false) →
  N.testbit (fold_left N.add (map city_bit subset) acc) i
  = N.testbit acc i || bool_decide (N.to_nat i + 2 ∈ subset).
Proof.
  revert acc. induction subset as [|x subset IH]; intros acc Hnd Hge Hacc.
  - rewrite bool_decide_eq_false_2 by apply not_elem_of_nil. by rewrite orb_false_r.
  - apply NoDup_cons in Hnd as [Hx Hnd]. apply Forall_cons in Hge as [Hx2 Hge].
    cbn [map fold_left].
    assert (N.land acc (city_bit x) = 0%N) as Hland.
    { apply N.bits_inj. intros k. rewrite N.land_spec, city_bit_testbit, N.bits_0.
      destruct (N.eqb_spec (N.of_nat (x - 2)) k) as [<-|?]; [|by rewrite andb_false_r].
      rewrite Hacc by left. done. }
    rewrite N.add_nocarry_lxor, N.lxor_lor by done.
    rewrite IH; [|done..|].
    + rewrite N.lor_spec, city_bit_testbit, <- orb_assoc. f_equal.
      destruct (N.eqb_spec (N.of_nat (x - 2)) i) as [<-|Hne].
      * rewrite (bool_decide_eq_true_2 (_ ∈ x :: _)); [done|].
        rewrite Nat2N.id. replace (x - 2 + 2) with x by lia. left.
      * simpl. apply bool_decide_ext. rewrite elem_of_cons.
        split; [by right|]. intros [Heq|?]; [|done]. exfalso. apply Hne. lia.
    + intros y Hy. rewrite N.lor_spec, city_bit_testbit, Hacc by (by right). simpl.
      apply N.eqb_neq. intros Heq. apply Hx.
      rewrite Forall_forall in Hge. specialize (Hge y Hy).
      replace x with y by lia. done.
Qed.

Lemma subset_mask_testbit (subset : list nat) (i : N) :
  NoDup subset → Forall (fun x => 2 ≤ x) subset →
  N.testbit (subset_mask subset) i = bool_decide (N.to_nat i + 2 ∈ subset).
Proof.
  intros Hnd Hge. unfold subset_mask. rewrite fold_mask_testbit; [done..|].
  intros. apply N.bits_0.
Qed.

(** Subsets with the same members have the same mask, and conversely. *)
Lemma subset_mask_ext (s1 s2 : list nat) :
  NoDup s1 → Forall (fun x => 2 ≤ x) s1 →
  NoDup s2 → Forall (fun x => 2 ≤ x) s2 →
  (∀ x, x ∈ s1 ↔ x ∈ s2) → subset_mask s1 = subset_mask s2.
Proof.
  intros ? ? ? ? Hiff. apply N.bits_inj. intros i.
  rewrite !subset_mask_testbit by done. by apply bool_decide_ext.
Qed.

Lemma subset_mask_inj (s1 s2 : list nat) :
  NoDup s1 → Forall (fun x => 2 ≤ x) s1 →
  NoDup s2 → Forall (fun x => 2 ≤ x) s2 →
  subset_mask s1 = subset_mask s2 → s1 ≡ₚ s2.
Proof.
  intros Hnd1 Hge1 Hnd2 Hge2 Heq. apply NoDup_Permutation; [done..|].
  assert (∀ s s', NoDup s → Forall (fun x => 2 ≤ x) s →
                  NoDup s' → Forall (fun x => 2 ≤ x) s' →
                  subset_mask s = subset_mask s' → ∀ x, x ∈ s → x ∈ s') as Hincl.
  { intros s s' Hnd Hs Hnd' Hs' Hm x Hx.
    pose proof (proj1 (Forall_forall _ _) Hs x Hx) as Hx2. simpl in Hx2.
    pose proof (subset_mask_testbit s (N.of_nat (x - 2)) Hnd Hs) as Ht.
    pose proof (subset_mask_testbit s' (N.of_nat (x - 2)) Hnd' Hs') as Ht'.
    rewrite Hm, Ht' in Ht. rewrite Nat2N.id in Ht.
    replace (x - 2 + 2) with x in Ht by lia.
    rewrite (bool_decide_eq_true_2 (x ∈ s)) in Ht by done.
    by apply bool_decide_eq_true_1 in Ht. }
  intros x; split; eapply Hincl; eauto.
Qed.

(** [mask ^ (1 << (j-2))] takes [j] out of the subset. *)
Lemma subset_mask_remove (subset : list nat) (j : nat) :
  NoDup subset → Forall (fun x => 2 ≤ x) subset → j ∈ subset →
  N.lxor (subset_mask subset) (city_bit j) = subset_mask (filter (fun k => k ≠ j) subset).
Proof.
  intros Hnd Hge Hj. apply N.bits_inj. intros i.
  rewrite N.lxor_spec, city_bit_testbit, !subset_mask_testbit;
    [|by apply NoDup_filter| |done..].
  2:{ apply Forall_forall. intros x [_ Hx]%list_elem_of_filter.
      by apply (proj1 (Forall_forall _ _) Hge). }
  rewrite Forall_forall in Hge. pose proof (Hge j Hj).
  destruct (N.eqb_spec (N.of_nat (j - 2)) i) as [<-|Hne].
  - rewrite Nat2N.id. replace (j - 2 + 2) with j by lia.
    rewrite bool_decide_eq_true_2 by done.
    rewrite bool_decide_eq_false_2; [done|].
    rewrite list_elem_of_filter. by intros [? _].
  - rewrite xorb_false_r. apply bool_decide_ext. rewrite list_elem_of_filter.
    split; [|by intros [_ ?]]. intros Hin. split; [|done].
    intros Heq. apply Hne. rewrite <- Heq. lia.
Qed.

(** [(1 << (n-1)) - 1] is the mask of all the cities [2..n]. *)
Lemma full_mask_range (n : nat) :
  1 ≤ n → (N.shiftl 1 (N.of_nat (n - 1)) - 1)%N = subset_mask (range 2 (n + 1)).
Proof.
  intros Hn. apply N.bits_inj. intros i.
  rewrite subset_mask_testbit; [|apply NoDup_seq|].
  2:{ apply Forall_forall. intros x Hx%elem_of_range. lia. }
  rewrite N.sub_1_r, N.shiftl_1_l, <- N.ones_equiv.
  destruct (decide (i < N.of_nat (n - 1))%N) as [Hlt|Hge].
  - rewrite N.ones_spec_low by done. symmetry. apply bool_decide_eq_true_2.
    apply elem_of_range. lia.
  - rewrite N.ones_spec_high by lia. symmetry. apply bool_decide_eq_false_2.
    rewrite elem_of_range. lia.
Qed.

Lemma elem_of_combinations {A} (l : list A) (r : nat) (c : list A) :
  c ∈ combinations l r ↔ c `sublist_of` l ∧ length c = r.
Proof.
  revert r c. induction l as [|x l IH]; intros r c.
  - destruct r as [|r]; simpl.
    + rewrite list_elem_of_singleton. split; [by intros ->|].
      intros [_ Hlen]. by destruct c.
    + rewrite elem_of_nil. split; [done|]. intros [->%sublist_nil_r Hlen]. done.
  - destruct r as [|r]; simpl.
    + rewrite list_elem_of_singleton. split.
      * intros ->. split; [apply sublist_nil_l|done].
      * intros [_ Hlen]. by destruct c.
    + rewrite elem_of_app, list_elem_of_fmap, sublist_cons_r. split.
      * intros [(c' & -> & [? ?]%IH)|[? ?]%IH].
        -- split; [right; eauto|simpl; lia].
        -- split; [by left|done].
      * intros [[Hsub|(c' & -> & Hsub)] Hlen].
        -- right. by apply IH.
        -- left. exists c'. split; [done|]. apply IH. simpl in Hlen. split; [done|lia].
Qed.

End Masks.

Lemma for_each_total {A S} (P : list A → S → Prop) (f : S → A → res S) l s :
  P [] s →
  (∀ l0 x l1 s, l = l0 ++ x :: l1 → P l0 s → ∃ s', f s x = Ok s' ∧ P (l0 ++ [x]) s') →
  ∃ s', for_each f s l = Ok s' ∧ P l s'.
Proof.
  revert P s; induction l as [|x l IH]; intros P s H0 Hstep.
  - by exists s.
  - destruct (Hstep [] x l s eq_refl H0) as (s1 & Hf & HP). simpl. rewrite Hf, bind_Ok.
    apply (IH (fun l0 => P (x :: l0)) s1); [done|].
    intros l0 y l1 s2 -> HP2. by apply (Hstep (x :: l0) y l1 s2).
Qed.

Lemma py_min_le {A} (ltb : A → A → bool) (key : A → Q) (l : list A) x :
  (∀ a b, ltb a b = true → (key a <= key b)%Q) →
  (∀ a b, ltb a b = false → (key b <= key a)%Q) →
  py_min ltb l = Ok x → ∀ y, y ∈ l → (key x <= key y)%Q.
Proof.
  intros Ht Hf. destruct l as [|z l]; [discriminate|]. intros [= <-].
  assert (∀ l z, (key (fold_left (fun best y => if ltb y best then y else best) l z) <= key z)%Q
                 ∧ ∀ y, y ∈ l →
                     (key (fold_left (fun best y => if ltb y best then y else best) l z) <= key y)%Q)
    as Hfold.
  { clear z l. intros l. induction l as [|y l IH]; intros z.
    - split; [apply Qle_refl|]. by intros ? ?%elem_of_nil.
    - simpl. destruct (IH (if ltb y z then y else z)) as [IH1 IH2].
      destruct (ltb y z) eqn:E.
      + apply Ht in E. split; [by eapply Qle_trans|].
        intros y' [->|?]%elem_of_cons; [done|by apply IH2].
      + apply Hf in E. split; [done|].
        intros y' [->|?]%elem_of_cons; [by eapply Qle_trans|by apply IH2]. }
  intros y [->|Hy]%elem_of_cons; [apply (proj1 (Hfold l z))|by apply (proj2 (Hfold l z))].
Qed.

Lemma filter_negb_eqb (l : list nat) j :
  List.filter (fun k => negb (k =? j)) l = filter (fun k => k ≠ j) l.
Proof.
  induction l as [|x l IH]; [done|]. simpl. rewrite filter_cons, IH.
  destruct (Nat.eqb_spec x j) as [->|Hne]; simpl.
  - by rewrite decide_False by (by intros ?).
  - by rewrite decide_True.
Qed.

Lemma perm_remove (l : list nat) j :
  NoDup l → j ∈ l → l ≡ₚ j :: filter (fun k => k ≠ j) l.
Proof.
  intros Hnd Hj. apply NoDup_Permutation; [done| |].
  - apply NoDup_cons. split; [|by apply NoDup_filter].
    rewrite list_elem_of_filter. by intros [? _].
  - intros x. rewrite elem_of_cons, list_elem_of_filter.
    destruct (decide (x = j)) as [->|?]; naive_solver.
Qed.

Section HeldKarp.
Context {point : Type} (distance : point → point → Q) (tsp : @instance point).
Hypothesis Hvalid : valid_instance tsp.

Local Abbreviation n := (DIMENSION tsp).
Local Abbreviation d := (dist_of distance tsp).


Lemma hk_subsets_facts s :
  hk_subsets tsp s →
  NoDup s ∧ Forall (fun x => 2 ≤ x) s ∧ Forall (in_range n) s.
Proof.
  intros Hsub. split; [|split].
  - eapply sublist_NoDup; [|exact Hsub]. apply NoDup_seq.
  - apply Forall_forall. intros x Hx. eapply sublist_subseteq in Hx; [|exact Hsub].
    apply elem_of_range in Hx. lia.
  - apply Forall_forall. intros x Hx. eapply sublist_subseteq in Hx; [|exact Hsub].
    apply elem_of_range in Hx. unfold in_range. lia.
Qed.

Lemma add_leg_in_range acc u x :
  in_range n u → in_range n x →
  add_leg distance tsp acc (u, x) = Ok (acc + d u x)%Q.
Proof. intros Hu Hx. unfold add_leg. simpl. by rewrite dist_in_range. Qed.

Lemma for_each_walk p u acc :
  in_range n u → Forall (in_range n) p →
  for_each (add_leg distance tsp) acc (zip (u :: p) p)
  = Ok (walk_cost distance tsp u acc p).
Proof.
  revert u acc; induction p as [|x p IH]; intros u acc Hu Hp; [done|].
  apply Forall_cons in Hp as [Hx Hp].
  change (for_each (add_leg distance tsp) acc (zip (u :: x :: p) (x :: p)))
    with (add_leg distance tsp acc (u, x)
          ≫= fun s' => for_each (add_leg distance tsp) s' (zip (x :: p) p)).
  rewrite (add_leg_in_range acc u x) by done. rewrite bind_Ok. by apply IH.
Qed.

Lemma path_length_closed p :
  Forall (in_range n) p →
  path_length distance tsp ([1] ++ p ++ [1])
  = Ok (walk_cost distance tsp 1 0 (p ++ [1])).
Proof.
  intros Hp. unfold path_length, slice_from.
  change (drop 1 ([1] ++ p ++ [1])) with (p ++ [1]).
  assert (in_range n 1) by (destruct Hvalid; unfold in_range; lia).
  apply for_each_walk; [done|]. apply Forall_app. split; [done|]. by apply Forall_singleton.
Qed.

Lemma walk_cost_snoc p u acc j :
  walk_cost distance tsp u acc (p ++ [j])
  = (walk_cost distance tsp u acc p + d (default u (last p)) j)%Q.
Proof.
  revert u acc; induction p as [|x p IH]; intros u acc; [done|].
  cbn [walk_cost app]. rewrite IH, (last_cons x p). by destruct (last p).
Qed.

Lemma hk_opt_perm s s' j c :
  s ≡ₚ s' → hk_opt distance tsp s j c → hk_opt distance tsp s' j c.
Proof.
  intros Hperm [(p & Hp & Hlast & Hc) Hlow]. split.
  - exists p. by rewrite <- Hperm.
  - intros q Hq. apply Hlow. by rewrite Hperm.
Qed.

Lemma hk_opt_singleton j : hk_opt distance tsp [j] j (d 1 j).
Proof.
  split.
  - exists [j]. split_and!; [done..|]. simpl. lra.
  - intros p ->%Permutation_singleton_r _. simpl. lra.
Qed.

(** The recurrence of the table. *)
Lemma hk_opt_step s j (cs : nat → Q) v :
  NoDup s → j ∈ s → filter (fun k => k ≠ j) s ≠ [] →
  (∀ k, k ∈ filter (fun k => k ≠ j) s → hk_opt distance tsp (filter (fun k => k ≠ j) s) k (cs k)) →
  (∃ k, k ∈ filter (fun k => k ≠ j) s ∧ v = (cs k + d k j)%Q) →
  (∀ k, k ∈ filter (fun k => k ≠ j) s → (v <= cs k + d k j)%Q) →
  hk_opt distance tsp s j v.
Proof.
  intros Hnd Hj Hne Hcs (k & Hk & ->) Hlow.
  pose proof (perm_remove s j Hnd Hj) as Hperm. split.
  - destruct (Hcs k Hk) as [(p & Hp & Hlast & Hc) _].
    exists (p ++ [j]). split_and!.
    + rewrite Hperm, Hp. symmetry. apply Permutation_cons_append.
    + by rewrite last_snoc.
    + rewrite walk_cost_snoc, Hlast. simpl. lra.
  - intros q Hq Hlast. apply last_Some in Hlast as [q' ->].
    assert (q' ≡ₚ filter (fun k => k ≠ j) s) as Hq'.
    { apply (Permutation_cons_inv (a := j)). rewrite <- Hperm, <- Hq.
      apply Permutation_cons_append. }
    destruct (last q') as [k'|] eqn:Hlast'.
    2:{ apply last_None in Hlast'. subst q'. by apply Permutation_nil_l in Hq'. }
    assert (k' ∈ filter (fun k => k ≠ j) s) as Hk'.
    { rewrite <- Hq'. apply last_Some in Hlast' as [? ->]. set_solver. }
    destruct (Hcs k' Hk') as [_ Hlow'].
    rewrite walk_cost_snoc, Hlast'. simpl.
    specialize (Hlow k' Hk'). specialize (Hlow' q' Hq' Hlast'). lra.
Qed.

Lemma hk_sound_insert dp s j v :
  hk_subsets tsp s → j ∈ s → hk_opt distance tsp s j v →
  hk_sound distance tsp dp → hk_sound distance tsp (<[(subset_mask s, j) := v]> dp).
Proof.
  intros Hs Hj Hv Hsound s' j' c Hs' Hj' Hlook.
  destruct (decide ((subset_mask s, j) = (subset_mask s', j'))) as [[= Hm <-]|Hne].
  - rewrite Hm, lookup_insert_eq in Hlook. injection Hlook as <-.
    destruct (hk_subsets_facts s Hs) as (? & ? & _).
    destruct (hk_subsets_facts s' Hs') as (? & ? & _).
    eapply hk_opt_perm; [|exact Hv]. by apply subset_mask_inj.
  - rewrite lookup_insert_ne in Hlook by done. by apply Hsound.
Qed.

Lemma hk_extends_insert dp dp' key v :
  hk_extends dp dp' → hk_extends dp (<[key := v]> dp').
Proof.
  intros Hext key' Hkey. apply lookup_insert_is_Some'. right. by apply Hext.
Qed.

Lemma hk_complete_extends k dp dp' :
  hk_extends dp dp' → hk_complete tsp k dp → hk_complete tsp k dp'.
Proof. intros Hext Hc s j ? ? ?. by apply Hext, Hc. Qed.

Lemma hk_entry_spec dp s j :
  hk_subsets tsp s → 2 ≤ length s → j ∈ s →
  hk_sound distance tsp dp → hk_complete tsp (length s - 1) dp →
  ∃ v, hk_entry distance tsp dp s (subset_mask s) j = Ok v ∧ hk_opt distance tsp s j v.
Proof.
  intros Hs Hlen Hj Hsound Hcomplete.
  destruct (hk_subsets_facts s Hs) as (Hnd & Hge & Hrange).
  unfold hk_entry. rewrite subset_mask_remove, filter_negb_eqb by done.
  set (s' := filter (fun k => k ≠ j) s).
  pose proof (perm_remove s j Hnd Hj) as Hperm. fold s' in Hperm.
  assert (length s' = length s - 1) as Hlen'
    by (apply Permutation_length in Hperm; simpl in Hperm; lia).
  assert (hk_subsets tsp s') as Hs'.
  { unfold hk_subsets. etrans; [apply sublist_filter|done]. }
  assert (∀ k, k ∈ s' → ∃ c, dp !! (subset_mask s', k) = Some c
                            ∧ hk_opt distance tsp s' k c) as Hentries.
  { intros k Hk. destruct (Hcomplete s' k) as [c Hc]; [done|lia|done|].
    exists c. split; [done|]. by apply Hsound. }
  set (cs := fun k => default 0%Q (dp !! (subset_mask s', k))).
  rewrite (map_res_pure _ (fun k => (cs k + d k j)%Q)).
  2:{ intros k Hk. destruct (Hentries k Hk) as (c & Hc & _).
      unfold dp_get, cs. rewrite Hc. rewrite bind_Ok. simpl.
      rewrite dist_in_range; [done..| |].
      - apply (proj1 (Forall_forall _ _) Hrange).
        by apply list_elem_of_filter in Hk as [_ ?].
      - by apply (proj1 (Forall_forall _ _) Hrange). }
  rewrite bind_Ok.
  assert (s' ≠ []) as Hne by (intros E; rewrite E in Hlen'; simpl in Hlen'; lia).
  destruct (py_min_returns Qltb ((fun k => (cs k + d k j)%Q) <$> s')) as [v Hmin].
  { by intros ?%fmap_nil_inv. }
  exists v. split; [done|].
  apply (hk_opt_step s j cs v); try done.
  - intros k Hk. destruct (Hentries k Hk) as (c & Hc & Hopt). unfold cs. by rewrite Hc.
  - apply py_min_elem_of, list_elem_of_fmap in Hmin as (k & -> & Hk). eauto.
  - intros k Hk. apply (py_min_le Qltb id _ v) with (y := (cs k + d k j)%Q) in Hmin.
    + done.
    + intros a b ?%Qltb_lt. by apply Qlt_le_weak.
    + intros a b ?%Qltb_ge. done.
    + apply list_elem_of_fmap. eauto.
Qed.

Lemma hk_subset_spec dp s :
  hk_subsets tsp s → 2 ≤ length s →
  hk_sound distance tsp dp → hk_complete tsp (length s - 1) dp →
  ∃ dp', hk_subset distance tsp dp s = Ok dp'
         ∧ hk_sound distance tsp dp' ∧ hk_extends dp dp'
         ∧ ∀ j, j ∈ s → is_Some (dp' !! (subset_mask s, j)).
Proof.
  intros Hs Hlen Hsound Hcomplete. unfold hk_subset. fold (subset_mask s).
  destruct (for_each_total
    (fun done dp' => hk_sound distance tsp dp' ∧ hk_extends dp dp'
                     ∧ ∀ j, j ∈ done → is_Some (dp' !! (subset_mask s, j)))
    (fun dp j => c ← hk_entry distance tsp dp s (subset_mask s) j;
                 Ok (<[(subset_mask s, j) := c]> dp)) s dp) as (dp' & Hrun & Hpost).
  - split_and!; [done|by intros ?|by intros ? ?%elem_of_nil].
  - intros l0 j l1 dp1 Hsplit (Hs1 & He1 & Hd1).
    assert (j ∈ s) as Hj by (rewrite Hsplit; set_solver).
    destruct (hk_entry_spec dp1 s j) as (v & -> & Hv); [done..| |].
    { by eapply hk_complete_extends. }
    rewrite bind_Ok. eexists. split; [done|]. split_and!.
    + by apply hk_sound_insert.
    + by apply hk_extends_insert.
    + intros j' [Hj'| ->%list_elem_of_singleton]%elem_of_app.
      * apply lookup_insert_is_Some'. right. by apply Hd1.
      * apply lookup_insert_is_Some'. by left.
  - exists dp'. by destruct Hpost as (? & ? & ?).
Qed.

End HeldKarp.

Lemma valid_tour_closed n p :
  1 ≤ n → p ≡ₚ range 2 (n + 1) → valid_tour n ([1] ++ p ++ [1]).
Proof.
  intros Hn Hp. pose proof (Permutation_length Hp) as Hlen.
  unfold range in Hlen. rewrite length_seq in Hlen.
  unfold valid_tour. split_and!.
  - simpl. rewrite length_app. simpl. lia.
  - done.
  - change ([1] ++ p ++ [1]) with ((1 :: p) ++ [1]). apply last_snoc.
  - change ([1] ++ p ++ [1]) with ((1 :: p) ++ [1]).
    rewrite take_app_length' by (simpl; lia).
    rewrite Hp. unfold range. destruct n as [|n]; [lia|].
    replace (S n + 1 - 2) with n by lia. done.
Qed.

Lemma valid_tour_inv n tour :
  1 ≤ n → valid_tour n tour → ∃ p, tour = [1] ++ p ++ [1] ∧ p ≡ₚ range 2 (n + 1).
Proof.
  intros Hn (Hlen & Hhead & Hlast & Hperm).
  destruct tour as [|x tour]; [done|]. injection Hhead as ->.
  apply last_Some in Hlast as [q Hq].
  destruct q as [|y q].
  { simpl in Hq. injection Hq as ->. simpl in Hlen. lia. }
  simpl in Hq. injection Hq as <- ->.
  exists q. split; [done|].
  simpl in Hlen. rewrite length_app in Hlen. simpl in Hlen.
  change (1 :: q ++ [1]) with ((1 :: q) ++ [1]) in Hperm.
  rewrite take_app_length' in Hperm by (simpl; lia).
  destruct n as [|n]; [lia|]. simpl in Hperm. apply Permutation_cons_inv in Hperm.
  rewrite Hperm. unfold range. by replace (S n + 1 - 2) with n by lia.
Qed.

Lemma singleton_sublist {A} (x : A) l : x ∈ l → [x] `sublist_of` l.
Proof.
  intros (l1 & l2 & ->)%list_elem_of_split.
  apply sublist_inserts_l, sublist_skip, sublist_nil_l.
Qed.

Lemma seq_split_eq a k l0 x l1 : seq a k = l0 ++ x :: l1 → x = a + length l0.
Proof.
  intros Heq.
  assert (seq a k !! length l0 = Some x) as Hl
    by (rewrite Heq; apply list_lookup_middle; done).
  by apply lookup_seq in Hl as [-> _].
Qed.

Section HeldKarpRun.
Context {point : Type} (distance : point → point → Q) (tsp : @instance point).
Hypothesis Hvalid : valid_instance tsp.
Hypothesis Hn : 2 ≤ DIMENSION tsp.

Local Abbreviation n := (DIMENSION tsp).
Local Abbreviation d := (dist_of distance tsp).
Local Abbreviation cities := (range 2 (DIMENSION tsp + 1)).

Lemma hk_base_spec :
  ∃ dp, for_each (fun dp j => c ← dist distance tsp 1 j; Ok (<[(city_bit j, j) := c]> dp))
          (∅ : gmap (N * nat) Q) cities = Ok dp
        ∧ hk_sound distance tsp dp ∧ hk_complete tsp 1 dp.
Proof.
  destruct (for_each_total
    (fun done dp => hk_sound distance tsp dp ∧ ∀ j, j ∈ done → is_Some (dp !! (city_bit j, j)))
    (fun dp j => c ← dist distance tsp 1 j; Ok (<[(city_bit j, j) := c]> dp))
    cities (∅ : gmap (N * nat) Q)) as (dp & Hrun & Hsound & Hdone).
  - split; [|by intros ? ?%elem_of_nil].
    intros s j c _ _ Hl. by rewrite lookup_empty in Hl.
  - intros l0 j l1 dp Hsplit [Hsound Hdone].
    assert (j ∈ cities) as Hj by (rewrite Hsplit; set_solver).
    pose proof Hj as Hj'%elem_of_range.
    rewrite dist_in_range; [|done|unfold in_range; lia..].
    rewrite bind_Ok. eexists. split; [done|]. split.
    + change (city_bit j) with (subset_mask [j]).
      apply hk_sound_insert; [by apply singleton_sublist|set_solver| |done].
      apply hk_opt_singleton.
    + intros j' [?| ->%list_elem_of_singleton]%elem_of_app.
      * apply lookup_insert_is_Some'. right. auto.
      * apply lookup_insert_is_Some'. by left.
  - exists dp. split_and!; [done..|].
    intros s j Hs Hlen Hj. destruct s as [|x [|y s]]; simpl in Hlen; [lia| |lia].
    apply list_elem_of_singleton in Hj as ->.
    change (subset_mask [x]) with (city_bit x). apply Hdone.
    eapply sublist_subseteq; [exact Hs|left].
Qed.

Lemma hk_size_spec dp size :
  2 ≤ size →
  hk_sound distance tsp dp → hk_complete tsp (size - 1) dp →
  ∃ dp', for_each (hk_subset distance tsp) dp (combinations cities size) = Ok dp'
         ∧ hk_sound distance tsp dp' ∧ hk_complete tsp size dp'.
Proof.
  intros Hsize Hsound Hcomplete.
  destruct (for_each_total
    (fun done dp' => hk_sound distance tsp dp' ∧ hk_complete tsp (size - 1) dp'
       ∧ ∀ s j, s ∈ done → j ∈ s → is_Some (dp' !! (subset_mask s, j)))
    (hk_subset distance tsp) (combinations cities size) dp)
    as (dp' & Hrun & Hsound' & Hcomplete' & Hdone).
  - split_and!; [done..|]. by intros ? ? ?%elem_of_nil.
  - intros l0 s l1 dp1 Hsplit (Hs1 & Hc1 & Hd1).
    assert (s ∈ combinations cities size) as [Hs Hlen]%elem_of_combinations
      by (rewrite Hsplit; set_solver).
    destruct (hk_subset_spec distance tsp Hvalid dp1 s) as (dp2 & -> & Hs2 & Hext & Hd2);
      [done|lia|done|by rewrite Hlen|].
    exists dp2. split; [done|]. split_and!.
    + done.
    + by eapply hk_complete_extends.
    + intros s' j [?| ->%list_elem_of_singleton]%elem_of_app Hj; [|by apply Hd2].
      apply Hext. by apply Hd1.
  - exists dp'. split_and!; [done..|].
    intros s j Hs Hlen Hj.
    destruct (decide (length s = size)) as [Heq|Hne].
    + apply (Hdone s j); [|done]. by apply elem_of_combinations.
    + apply Hcomplete'; [done|lia|done].
Qed.

Lemma hk_sizes_spec dp :
  hk_sound distance tsp dp → hk_complete tsp 1 dp →
  ∃ dp', for_each (fun dp size => for_each (hk_subset distance tsp) dp (combinations cities size))
           dp (range 2 n) = Ok dp'
         ∧ hk_sound distance tsp dp' ∧ hk_complete tsp (n - 1) dp'.
Proof.
  intros Hsound Hcomplete.
  destruct (for_each_total
    (fun done dp' => hk_sound distance tsp dp' ∧ hk_complete tsp (1 + length done) dp')
    (fun dp size => for_each (hk_subset distance tsp) dp (combinations cities size))
    (range 2 n) dp) as (dp' & Hrun & Hsound' & Hcomplete').
  - done.
  - intros l0 size l1 dp1 Hsplit [Hs1 Hc1].
    apply seq_split_eq in Hsplit as ->.
    destruct (hk_size_spec dp1 (2 + length l0)) as (dp2 & -> & Hs2 & Hc2); [lia|done| |].
    { by replace (2 + length l0 - 1) with (1 + length l0) by lia. }
    exists dp2. split; [done|]. split; [done|].
    rewrite length_app. simpl length.
    by replace (1 + (length l0 + 1)) with (2 + length l0) by lia.
  - exists dp'. split_and!; [done..|].
    unfold range in Hcomplete'. rewrite length_seq in Hcomplete'.
    by replace (1 + (n - 2)) with (n - 1) in Hcomplete' by lia.
Qed.

Lemma cost_end_ltb_true (a b : Q * nat) : cost_end_ltb a b = true → (a.1 <= b.1)%Q.
Proof.
  unfold cost_end_ltb. intros [Hlt|[Heq _]%andb_true_iff]%orb_true_iff.
  - apply Qltb_lt in Hlt. by apply Qlt_le_weak.
  - apply Qeq_bool_iff in Heq. rewrite Heq. apply Qle_refl.
Qed.

Lemma cost_end_ltb_false (a b : Q * nat) : cost_end_ltb a b = false → (b.1 <= a.1)%Q.
Proof.
  unfold cost_end_ltb. intros [Hlt _]%orb_false_iff. by apply Qltb_ge.
Qed.

(** Held-Karp returns the least length of a closed tour. *)
Lemma held_karp_optimal :
  ∃ cost tour,
    held_karp distance tsp = Ok (cost, tour)
    ∧ (∃ t len, valid_tour n t ∧ path_length distance tsp t = Ok len ∧ (cost == len)%Q)
    ∧ (∀ t len, valid_tour n t → path_length distance tsp t = Ok len → (cost <= len)%Q).
Proof.
  destruct hk_base_spec as (dp0 & Hbase & Hsound0 & Hcomplete0).
  destruct (hk_sizes_spec dp0 Hsound0 Hcomplete0) as (dp & Hsizes & Hsound & Hcomplete).
  assert (hk_subsets tsp cities) as Hall by (unfold hk_subsets; reflexivity).
  assert (length cities = n - 1) as Hlen by (unfold range; rewrite length_seq; lia).
  assert (∀ j, j ∈ cities → ∃ c, dp !! (subset_mask cities, j) = Some c
                                 ∧ hk_opt distance tsp cities j c) as Hentries.
  { intros j Hj. destruct (Hcomplete cities j) as [c Hc]; [done|lia|done|].
    exists c. split; [done|]. by apply Hsound. }
  assert (∀ p, p ≡ₚ cities → Forall (in_range n) p) as Hrange.
  { intros p Hp. apply Forall_forall. intros x Hx. rewrite Hp in Hx.
    apply elem_of_range in Hx. unfold in_range. lia. }
  set (closing := fun j => ((default 0 (dp !! (subset_mask cities, j)) + d j 1)%Q, j)).
  unfold held_karp. rewrite Hbase, bind_Ok, Hsizes, bind_Ok.
  destruct (Nat.eqb_spec n 0) as [?|_]; [lia|]. rewrite bind_Ok.
  rewrite full_mask_range by lia.
  rewrite (map_res_pure _ closing).
  2:{ intros j Hj. destruct (Hentries j Hj) as (c & Hc & _).
      unfold dp_get, closing. rewrite Hc, bind_Ok. simpl.
      apply elem_of_range in Hj.
      rewrite dist_in_range; [done..|unfold in_range; lia|unfold in_range; lia]. }
  rewrite bind_Ok.
  destruct (py_min_returns cost_end_ltb (closing <$> cities)) as [[best_cost best_end] Hmin].
  { intros E%fmap_nil_inv. rewrite E in Hlen. simpl in Hlen. lia. }
  rewrite Hmin, bind_Ok. eexists _, _. split; [done|]. split.
  - pose proof Hmin as (j & [= -> ->] & Hj)%py_min_elem_of%list_elem_of_fmap.
    destruct (Hentries j Hj) as (c & Hc & (p & Hp & Hlast & Hcp) & _).
    exists ([1] ++ p ++ [1]), (walk_cost distance tsp 1 0 (p ++ [1])). split_and!.
    + apply valid_tour_closed; [lia|done].
    + apply path_length_closed; auto.
    + rewrite walk_cost_snoc, Hlast, Hc. simpl. lra.
  - intros t len Ht Hlen'. apply valid_tour_inv in Ht as (p & -> & Hp); [|lia].
    rewrite path_length_closed in Hlen' by auto. injection Hlen' as <-.
    destruct (last p) as [j|] eqn:Hlast.
    2:{ apply last_None in Hlast. subst p. apply Permutation_length in Hp.
        rewrite Hlen in Hp. simpl in Hp. lia. }
    assert (j ∈ cities) as Hj.
    { rewrite <- Hp. apply last_Some in Hlast as [? ->]. set_solver. }
    destruct (Hentries j Hj) as (c & Hc & _ & Hlow).
    apply (py_min_le cost_end_ltb fst _ _ cost_end_ltb_true cost_end_ltb_false)
      with (y := closing j) in Hmin; [|apply list_elem_of_fmap; eauto].
    unfold closing in Hmin. rewrite Hc in Hmin. simpl in Hmin.
    rewrite walk_cost_snoc, Hlast. simpl.
    specialize (Hlow p Hp Hlast). lra.
Qed.

End HeldKarpRun.

(** [C2]: on a valid instance of 2 to 10 cities [held_karp] returns, and
    its cost is the least length ([path_length]) of a valid tour: some
    valid tour has that length and no valid tour is shorter. *)
Theorem held_karp_cost_optimal {point} (distance : point → point → Q) (tsp : instance) :
  valid_instance tsp → 2 ≤ DIMENSION tsp ≤ 10 →
  ∃ cost tour,
    held_karp distance tsp = Ok (cost, tour)
    ∧ (∃ t len, valid_tour (DIMENSION tsp) t
                ∧ path_length distance tsp t = Ok len ∧ (cost == len)%Q)
    ∧ (∀ t len, valid_tour (DIMENSION tsp) t →
                path_length distance tsp t = Ok len → (cost <= len)%Q).
Proof. intros Hvalid [Hn _]. by apply held_karp_optimal. Qed.

Lemma held_karp_cost_optimal_witness :
  ∃ cost tour,
    held_karp grid_distance (line_instance four_zigzag) = Ok (cost, tour)
    ∧ (∃ t len, valid_tour 4 t
                ∧ path_length grid_distance (line_instance four_zigzag) t = Ok len
                ∧ (cost == len)%Q)
    ∧ (∀ t len, valid_tour 4 t →
                path_length grid_distance (line_instance four_zigzag) t = Ok len →
                (cost <= len)%Q).
Proof.
  apply (held_karp_cost_optimal grid_distance (line_instance four_zigzag)).
  - split; simpl; lia.
  - simpl; lia.
Defined.

(** ** The preorder walk of a tree is at most twice its weight *)

Lemma tree_ind' (P : tree → Prop) :
  (∀ x cs, Forall P cs → P (Node x cs)) → ∀ t, P t.
Proof.
  intros H. fix IH 1. intros [x cs]. apply H.
  induction cs as [|c cs IHcs]; constructor; [apply IH|exact IHcs].
Qed.

Lemma preorder_root t : ∃ l, preorder t = root t :: l.
Proof. destruct t as [x cs]. by eexists. Qed.

Section Walks.
Context {point : Type} (distance : point → point → Q) (tsp : @instance point).
Hypothesis Hvalid : valid_instance tsp.
Hypothesis Hmetric : metric_instance distance tsp.

Local Abbreviation n := (DIMENSION tsp).
Local Abbreviation d := (dist_of distance tsp).
Local Abbreviation weight := (edges_weight distance tsp).
Local Abbreviation cost := (path_cost distance tsp).

Lemma dist_nonneg i j : in_range n i → in_range n j → (0 <= d i j)%Q.
Proof.
  intros Hi Hj.
  destruct (Hmetric i j i Hi Hj Hi) as (H0 & Hsym & Htri). lra.
Qed.

Lemma edges_weight_app e1 e2 : (weight (e1 ++ e2) == weight e1 + weight e2)%Q.
Proof.
  induction e1 as [|e e1 IH]; simpl; [lra|]. rewrite IH. lra.
Qed.

Lemma edges_weight_perm e1 e2 : e1 ≡ₚ e2 → (weight e1 == weight e2)%Q.
Proof.
  induction 1 as [|e e1 e2 _ IH|e e' e1|e1 e2 e3 _ IH1 _ IH2]; simpl; lra.
Qed.

Lemma edges_weight_nonneg e :
  Forall (fun e => in_range n e.1 ∧ in_range n e.2) e → (0 <= weight e)%Q.
Proof.
  induction 1 as [|[a b] e [Ha Hb] _ IH]; simpl; [lra|].
  pose proof (dist_nonneg a b Ha Hb). simpl in *. lra.
Qed.

Lemma path_cost_cons x y l : cost (x :: y :: l) = (d x y + cost (y :: l))%Q.
Proof. reflexivity. Qed.

(** A walk splits at any of its vertices. *)
Lemma path_cost_split l x l' :
  (cost (l ++ x :: l') == cost (l ++ [x]) + cost (x :: l'))%Q.
Proof.
  induction l as [|y l IH].
  - simpl. lra.
  - destruct l as [|z l].
    + simpl app. rewrite (path_cost_cons y x l'), (path_cost_cons y x []). simpl (cost [x]). lra.
    + change ((y :: z :: l) ++ x :: l') with (y :: z :: (l ++ x :: l')).
      change ((y :: z :: l) ++ [x]) with (y :: z :: (l ++ [x])).
      rewrite !path_cost_cons.
      change (z :: l ++ x :: l') with ((z :: l) ++ x :: l').
      change (z :: l ++ [x]) with ((z :: l) ++ [x]). rewrite IH. lra.
Qed.

Lemma walk_cost_path_cost p u acc :
  (walk_cost distance tsp u acc p == acc + cost (u :: p))%Q.
Proof.
  revert u acc; induction p as [|x p IH]; intros u acc.
  - simpl. lra.
  - cbn [walk_cost]. rewrite IH, path_cost_cons. lra.
Qed.

Lemma edges_weight_zip u p : (weight (zip (u :: p) p) == cost (u :: p))%Q.
Proof.
  revert u; induction p as [|x p IH]; intros u; [reflexivity|].
  change (weight (zip (u :: x :: p) (x :: p)))
    with (d u x + weight (zip (x :: p) p))%Q.
  rewrite path_cost_cons, IH. lra.
Qed.

(** Visiting the subtrees of [cs] one after the other from [a], and then
    going to their parent [x]. *)
Lemma children_walk_bound x cs :
  in_range n x →
  Forall (fun c => Forall (in_range n) (preorder c)) cs →
  Forall (fun c => (cost (preorder c ++ [root c]) <= 2 * weight (tree_edges c))%Q) cs →
  ∀ a, in_range n a →
    (cost (a :: (cs ≫= preorder) ++ [x])
     <= d a x + 2 * weight (cs ≫= fun c => (x, root c) :: tree_edges c))%Q.
Proof.
  intros Hx Hrange Hcs. induction cs as [|c cs IH]; intros a Ha.
  - simpl. lra.
  - apply Forall_cons in Hrange as [Hc Hrange]. apply Forall_cons in Hcs as [Hbound Hcs].
    specialize (IH Hrange Hcs).
    rewrite !bind_cons.
    destruct (preorder_root c) as [tl Hpre].
    assert (∃ front lc, preorder c = front ++ [lc]) as (front & lc & Hlast).
    { destruct (last (preorder c)) as [lc|] eqn:E.
      - apply last_Some in E as [front ->]. eauto.
      - apply last_None in E. by rewrite Hpre in E. }
    assert (in_range n (root c)) as Hrc.
    { rewrite Hpre in Hc. by apply Forall_cons in Hc as [? _]. }
    assert (in_range n lc) as Hlc.
    { apply (proj1 (Forall_forall _ _) Hc). rewrite Hlast. apply elem_of_app. right. left. }
    specialize (IH lc Hlc).
    (* the walk through the first subtree *)
    assert (cost (a :: preorder c) == d a (root c) + cost (preorder c))%Q as Hin.
    { rewrite Hpre. rewrite path_cost_cons. lra. }
    assert (cost (preorder c ++ [root c]) == cost (preorder c) + d lc (root c))%Q as Hout.
    { rewrite Hlast, <- app_assoc. simpl app.
      rewrite (path_cost_split front lc [root c]), path_cost_cons. simpl (cost [root c]). lra. }
    assert (cost (a :: (preorder c ++ (cs ≫= preorder)) ++ [x])
            == cost (a :: preorder c) + cost (lc :: (cs ≫= preorder) ++ [x]))%Q as Hsplit.
    { rewrite Hlast, <- !app_assoc. simpl app.
      change (a :: front ++ lc :: (cs ≫= preorder) ++ [x])
        with ((a :: front) ++ lc :: ((cs ≫= preorder) ++ [x])).
      rewrite path_cost_split. reflexivity. }
    rewrite Hsplit, Hin.
    change (((x, root c) :: tree_edges c) ++ (cs ≫= fun c => (x, root c) :: tree_edges c))
      with ((x, root c) :: (tree_edges c ++ (cs ≫= fun c => (x, root c) :: tree_edges c))).
    assert (weight ((x, root c) :: (tree_edges c ++ (cs ≫= fun c => (x, root c) :: tree_edges c)))
            == d x (root c) + weight (tree_edges c)
               + weight (cs ≫= fun c => (x, root c) :: tree_edges c))%Q as ->.
    { change (weight ((x, root c) :: ?l)) with (d x (root c) + weight l)%Q.
      rewrite edges_weight_app. lra. }
    destruct (Hmetric a x (root c) Ha Hx Hrc) as (_ & _ & Htri1).
    destruct (Hmetric lc (root c) x Hlc Hrc Hx) as (_ & _ & Htri2).
    destruct (Hmetric x (root c) x Hx Hrc Hx) as (_ & Hsym & _).
    rewrite Hout in Hbound. lra.
Qed.

(** The closed preorder walk of a tree costs at most twice its edges. *)
Lemma preorder_walk_bound t :
  Forall (in_range n) (preorder t) →
  (cost (preorder t ++ [root t]) <= 2 * weight (tree_edges t))%Q.
Proof.
  induction t as [x cs IH] using tree_ind'. intros Hrange.
  simpl preorder in *. apply Forall_cons in Hrange as [Hx Hrange].
  assert (Forall (fun c => Forall (in_range n) (preorder c)) cs) as Hcs.
  { apply Forall_forall. intros c Hc. apply Forall_forall. intros z Hz.
    apply (proj1 (Forall_forall _ _) Hrange). apply list_elem_of_bind. eauto. }
  assert (Forall (fun c => (cost (preorder c ++ [root c]) <= 2 * weight (tree_edges c))%Q) cs)
    as Hbounds.
  { apply Forall_forall. intros c Hc.
    apply (proj1 (Forall_forall _ _) IH c Hc).
    by apply (proj1 (Forall_forall _ _) Hcs). }
  pose proof (children_walk_bound x cs Hx Hcs Hbounds x Hx) as Hwalk.
  destruct (Hmetric x x x Hx Hx Hx) as (H0 & _ & _).
  simpl root. simpl tree_edges.
  change ((x :: cs ≫= preorder) ++ [x]) with (x :: (cs ≫= preorder) ++ [x]). lra.
Qed.

End Walks.

(** ** Adding a leaf to the tree *)

Lemma root_add_leaf u v t : root (add_leaf u v t) = root t.
Proof. destruct t as [x cs]. simpl. by destruct (decide (x = u)). Qed.

Lemma add_leaf_id u v t : u ∉ preorder t → add_leaf u v t = t.
Proof.
  induction t as [x cs IH] using tree_ind'. simpl. intros Hu.
  apply not_elem_of_cons in Hu as [Hx Hu].
  rewrite decide_False by done. f_equal.
  induction cs as [|c cs IHcs]; [done|].
  apply Forall_cons in IH as [IHc IH]. rewrite bind_cons in Hu.
  apply not_elem_of_app in Hu as [Hc Hu].
  rewrite fmap_cons, IHc by done. f_equal. by apply IHcs.
Qed.

Lemma children_add_leaf {A} (X : tree → list A) (extra : list A) u v cs :
  Forall (fun c => NoDup (preorder c) → u ∈ preorder c →
                   X (add_leaf u v c) ≡ₚ extra ++ X c) cs →
  NoDup (cs ≫= preorder) → u ∈ cs ≫= preorder →
  (add_leaf u v <$> cs) ≫= X ≡ₚ extra ++ (cs ≫= X).
Proof.
  induction cs as [|c cs IH]; intros HX Hnd Hu; [by apply elem_of_nil in Hu|].
  apply Forall_cons in HX as [HXc HX]. rewrite bind_cons in Hnd, Hu.
  apply NoDup_app in Hnd as (Hndc & Hdisj & Hnd).
  rewrite fmap_cons, !bind_cons.
  destruct (decide (u ∈ preorder c)) as [Hc|Hc].
  - assert (add_leaf u v <$> cs = cs) as ->.
    { specialize (Hdisj u Hc). clear -Hdisj.
      induction cs as [|c' cs IH]; [done|]. rewrite bind_cons in Hdisj.
      apply not_elem_of_app in Hdisj as [? ?].
      rewrite fmap_cons, add_leaf_id by done. f_equal. by apply IH. }
    rewrite HXc by done. by rewrite <- app_assoc.
  - apply elem_of_app in Hu as [?|Hu]; [done|].
    rewrite add_leaf_id by done. rewrite IH by done.
    rewrite !app_assoc. apply Permutation_app_tail, Permutation_app_comm.
Qed.

Lemma preorder_add_leaf u v t :
  NoDup (preorder t) → u ∈ preorder t → preorder (add_leaf u v t) ≡ₚ v :: preorder t.
Proof.
  induction t as [x cs IH] using tree_ind'. simpl. intros Hnd Hu.
  apply NoDup_cons in Hnd as [Hx Hnd].
  destruct (decide (x = u)) as [->|Hne]; simpl.
  - rewrite bind_app. change ([Node v []] ≫= preorder) with [v].
    rewrite <- Permutation_cons_append. apply perm_swap.
  - apply elem_of_cons in Hu as [->|Hu]; [done|].
    rewrite (children_add_leaf preorder [v] u v cs); [apply perm_swap|done..].
Qed.

Lemma tree_edges_add_leaf u v t :
  NoDup (preorder t) → u ∈ preorder t → tree_edges (add_leaf u v t) ≡ₚ (u, v) :: tree_edges t.
Proof.
  induction t as [x cs IH] using tree_ind'. simpl. intros Hnd Hu.
  apply NoDup_cons in Hnd as [Hx Hnd].
  destruct (decide (x = u)) as [->|Hne]; simpl.
  - rewrite bind_app.
    change ([Node v []] ≫= _) with [(u, v)].
    by rewrite <- Permutation_cons_append.
  - apply elem_of_cons in Hu as [->|Hu]; [done|].
    apply (children_add_leaf (fun c => (x, root c) :: tree_edges c) [(u, v)] u v cs);
      [|done..].
    eapply Forall_impl; [exact IH|]. intros c Hc Hndc Huc. simpl in Hc.
    rewrite root_add_leaf, (Hc Hndc Huc). apply perm_swap.
Qed.

Lemma tree_edges_inside t a b :
  (a, b) ∈ tree_edges t → a ∈ preorder t ∧ b ∈ preorder t.
Proof.
  induction t as [x cs IH] using tree_ind'. simpl.
  intros (c & [[= -> ->]|Hin]%elem_of_cons & Hc)%list_elem_of_bind.
  - split; [left|right]. apply list_elem_of_bind. exists c. split; [|done].
    destruct (preorder_root c) as [l ->]. left.
  - destruct (proj1 (Forall_forall _ _) IH c Hc Hin) as [Ha Hb].
    split; right; apply list_elem_of_bind; eauto.
Qed.

(** *** The adjacency lists of the tree *)

Lemma tree_adj_ext adj adj' parent t :
  (∀ z, z ∈ preorder t → adj_get adj' z = adj_get adj z) →
  tree_adj adj parent t → tree_adj adj' parent t.
Proof.
  revert parent. induction t as [x cs IH] using tree_ind'. intros parent Hext Ht.
  inversion Ht as [? ? ? Hx Hcs]; subst. constructor.
  - rewrite Hext by left. done.
  - apply Forall_forall. intros c Hc.
    apply (proj1 (Forall_forall _ _) IH c Hc).
    + intros z Hz. apply Hext. right. apply list_elem_of_bind. eauto.
    + by apply (proj1 (Forall_forall _ _) Hcs).
Qed.

Lemma adj_get_new_edge adj u v z :
  u ≠ v → adj_get adj v = [] →
  adj_get (adj_append (adj_append adj u v) v u) z
  = if decide (z = v) then [u]
    else if decide (z = u) then adj_get adj u ++ [v] else adj_get adj z.
Proof.
  intros Huv Hv. rewrite !adj_get_append.
  destruct (decide (z = v)) as [->|Hzv].
  - rewrite decide_False by done. by rewrite Hv.
  - done.
Qed.

Lemma tree_adj_add_leaf adj parent t u v :
  u ≠ v → adj_get adj v = [] →
  tree_adj adj parent t → NoDup (preorder t) → v ∉ preorder t → u ∈ preorder t →
  tree_adj (adj_append (adj_append adj u v) v u) parent (add_leaf u v t).
Proof.
  intros Huv Hv. revert parent.
  induction t as [x cs IH] using tree_ind'. intros parent Ht Hnd Hfresh Hu.
  inversion Ht as [? ? ? Hx Hcs]; subst. simpl in *.
  apply NoDup_cons in Hnd as [Hxcs Hnd]. apply not_elem_of_cons in Hfresh as [Hvx Hfresh].
  assert (∀ c, c ∈ cs → u ∉ preorder c →
               tree_adj (adj_append (adj_append adj u v) v u) (Some x) c) as Hsame.
  { intros c Hc Huc. apply (tree_adj_ext adj); [|by apply (proj1 (Forall_forall _ _) Hcs)].
    intros z Hz. rewrite adj_get_new_edge by done.
    rewrite decide_False, decide_False; [done|by intros ->|].
    intros ->. apply Hfresh, list_elem_of_bind. eauto. }
  destruct (decide (x = u)) as [->|Hne].
  - constructor.
    + rewrite adj_get_new_edge, decide_False, decide_True by done.
      by rewrite Hx, fmap_app, app_assoc.
    + apply Forall_app. split.
      * apply Forall_forall. intros c Hc. apply Hsame; [done|].
        intros Huc. apply Hxcs, list_elem_of_bind. eauto.
      * apply Forall_singleton. constructor; [|done].
        by rewrite adj_get_new_edge, decide_True.
  - apply elem_of_cons in Hu as [->|Hu]; [done|]. constructor.
    + rewrite adj_get_new_edge, decide_False, decide_False by done.
      rewrite Hx. f_equal. rewrite <- list_fmap_compose.
      apply list_fmap_ext. intros i c _. simpl. by rewrite root_add_leaf.
    + apply Forall_fmap, Forall_forall. intros c Hc. simpl.
      destruct (decide (u ∈ preorder c)) as [Huc|Huc].
      * apply (proj1 (Forall_forall _ _) IH c Hc).
        -- by apply (proj1 (Forall_forall _ _) Hcs).
        -- clear -Hnd Hc. induction cs as [|c' cs IH]; [by apply elem_of_nil in Hc|].
           rewrite bind_cons in Hnd. apply NoDup_app in Hnd as (? & _ & ?).
           apply elem_of_cons in Hc as [->|Hc]; [done|by apply IH].
        -- intros Hvc. apply Hfresh, list_elem_of_bind. eauto.
        -- done.
      * rewrite add_leaf_id by done. by apply Hsame.
Qed.

(** *** The preorder walk of [dfs] *)

Lemma for_each_app {A S} (f : S → A → res S) s l1 l2 :
  for_each f s (l1 ++ l2) = (s' ← for_each f s l1; for_each f s' l2).
Proof.
  revert s; induction l1 as [|x l1 IH]; intros s; [done|].
  simpl. destruct (f s x); simpl; [apply IH|done..].
Qed.

Lemma height_le_size t : height t ≤ length (preorder t).
Proof.
  induction t as [x cs IH] using tree_ind'. simpl. apply le_n_S.
  induction cs as [|c cs IHcs]; [done|].
  apply Forall_cons in IH as [IHc IH]. specialize (IHcs IH).
  rewrite fmap_cons, bind_cons, length_app.
  change (max_list (height c :: (height <$> cs)))
    with (height c `max` max_list (height <$> cs)). lia.
Qed.

(** [dfs] walks the tree in preorder when the tree has no more levels
    than the interpreter allows nested calls, and overflows otherwise. *)
Lemma dfs_height adj t parent frames pre :
  tree_adj adj parent t → NoDup (preorder t) →
  (∀ p, parent = Some p → p ∉ preorder t) →
  dfs frames adj (root t) parent pre
  = if decide (height t ≤ frames) then Ok (pre ++ preorder t) else Raise RecursionError.
Proof.
  revert parent frames pre. induction t as [x cs IH] using tree_ind'.
  intros parent frames pre Ht Hnd Hparent.
  inversion Ht as [? ? ? Hx Hcs]; subst. simpl in *.
  destruct frames as [|frames]; [by rewrite decide_False by lia|].
  simpl. rewrite Hx, for_each_app.
  apply NoDup_cons in Hnd as [Hxcs Hnd].
  assert (for_each (fun preorder w =>
            if decide (Some w = parent) then Ok preorder
            else dfs frames adj w (Some x) preorder) (pre ++ [x]) (option_list parent)
          = Ok (pre ++ [x])) as ->.
  { destruct parent as [p|]; simpl; [|done]. by rewrite decide_True. }
  rewrite bind_Ok.
  assert (∀ p, parent = Some p → p ∉ cs ≫= preorder) as Hparent'.
  { intros p Hp Hin. apply (Hparent p Hp). by right. }
  assert (∀ acc, for_each (fun preorder w =>
            if decide (Some w = parent) then Ok preorder
            else dfs frames adj w (Some x) preorder) acc (root <$> cs)
          = if decide (max_list (height <$> cs) ≤ frames)
            then Ok (acc ++ (cs ≫= preorder)) else Raise RecursionError) as Hchildren.
  { clear Hparent Hx Ht.
    induction cs as [|c cs IHcs]; intros acc.
    - change (max_list (height <$> [])) with 0.
      destruct (decide (0 ≤ frames)); [|lia]. simpl. by rewrite app_nil_r.
    - apply Forall_cons in IH as [IHc IH]. apply Forall_cons in Hcs as [Hc Hcs].
      rewrite bind_cons in *.
      apply NoDup_app in Hnd as (Hndc & _ & Hnd).
      apply not_elem_of_app in Hxcs as [Hxc Hxcs].
      rewrite !fmap_cons. cbn [for_each].
      change (max_list (height c :: (height <$> cs)))
        with (height c `max` max_list (height <$> cs)).
      rewrite decide_False.
      2:{ intros <-. apply (Hparent' (root c) eq_refl).
          apply elem_of_app. left. destruct (preorder_root c) as [l ->]. left. }
      rewrite (IHc (Some x) frames acc); [|done|done|by intros p [= <-]].
      destruct (decide (height c ≤ frames)) as [Hc'|Hc'].
      + rewrite bind_Ok, IHcs; [|done..|].
        2:{ intros p Hp Hin. apply (Hparent' p Hp), elem_of_app. by right. }
        destruct (decide (max_list (height <$> cs) ≤ frames)).
        * rewrite decide_True by lia. by rewrite app_assoc.
        * by rewrite decide_False by lia.
      + by rewrite decide_False by lia. }
  rewrite Hchildren.
  destruct (decide (max_list (height <$> cs) ≤ frames)).
  - rewrite decide_True by lia. by rewrite <- app_assoc.
  - by rewrite decide_False by lia.
Qed.

(** *** Connection *)

Lemma walk_mono e1 e2 a l :
  (∀ x, x ∈ e1 → x ∈ e2) → walk e1 a l → walk e2 a l.
Proof.
  intros Hsub. revert a; induction l as [|b l IH]; intros a; [done|].
  simpl. intros [[?|?] ?]; (split; [|by apply IH]); [left|right]; by apply Hsub.
Qed.

Lemma joined_mono e1 e2 a b :
  (∀ x, x ∈ e1 → x ∈ e2) → joined e1 a b → joined e2 a b.
Proof. intros Hsub (l & Hw & Hl). exists l. split; [by eapply walk_mono|done]. Qed.

Lemma joined_refl e a : joined e a a.
Proof. by exists []. Qed.

Lemma joined_step e a b c : step e a b → joined e b c → joined e a c.
Proof.
  intros Hs (l & Hw & Hl). exists (b :: l). split; [done|exact Hl].
Qed.

Lemma joined_trans e a b c : joined e a b → joined e b c → joined e a c.
Proof.
  intros (l & Hw & Hl) Hbc. revert a Hw Hl. induction l as [|x l IH]; intros a Hw Hl.
  - simpl in Hl. by injection Hl as ->.
  - destruct Hw as [Hs Hw]. apply (joined_step e a x c Hs). apply IH; [done|exact Hl].
Qed.

Lemma step_sym e a b : step e a b → step e b a.
Proof. intros [?|?]; [by right|by left]. Qed.

Lemma joined_sym e a b : joined e a b → joined e b a.
Proof.
  intros (l & Hw & Hl). revert a Hw Hl. induction l as [|x l IH]; intros a Hw Hl.
  - simpl in Hl. injection Hl as ->. apply joined_refl.
  - destruct Hw as [Hs Hw].
    eapply joined_trans; [apply IH; [done|exact Hl]|].
    apply (joined_step e x a a); [by apply step_sym|apply joined_refl].
Qed.

(** Every vertex of a tree is joined to its root by the edges of the tree. *)
Lemma tree_joined t z : z ∈ preorder t → joined (tree_edges t) (root t) z.
Proof.
  induction t as [x cs IH] using tree_ind'. simpl.
  intros [->|(c & Hz & Hc)%list_elem_of_bind]%elem_of_cons; [apply joined_refl|].
  apply (joined_step _ x (root c) z).
  - left. apply list_elem_of_bind. exists c. split; [left|done].
  - eapply joined_mono; [|by apply (proj1 (Forall_forall _ _) IH c Hc)].
    intros e He. apply list_elem_of_bind. exists c. split; [by right|done].
Qed.

(** ** The cut property *)

Lemma walk_suffix e c l1 z l2 : walk e c (l1 ++ z :: l2) → walk e z l2.
Proof.
  revert c; induction l1 as [|x l1 IH]; intros c; simpl.
  - by intros [_ ?].
  - intros [_ ?]. by eapply IH.
Qed.

Lemma walk_avoiding e x c l : walk e c l → x ∉ c :: l → walk (avoiding x e) c l.
Proof.
  revert c; induction l as [|b l IH]; intros c; [done|].
  simpl. intros [Hs Hw] Hx.
  apply not_elem_of_cons in Hx as [Hxc Hx]. pose proof Hx as [Hxb _]%not_elem_of_cons.
  split; [|by apply IH].
  destruct Hs as [Hs|Hs]; [left|right]; apply list_elem_of_filter; by split.
Qed.

(** A walk that leaves [s] crosses the border on an edge [(x, y)] that
    can be taken out without separating the start from [x] or [y] from
    the end. *)
Lemma cut_crossing (s : gset nat) e l a b :
  a ∈ s → b ∉ s → walk e a l → last (a :: l) = Some b →
  ∃ x y, x ∈ s ∧ y ∉ s ∧ step e x y
         ∧ joined (inside s e) a x ∧ joined (avoiding x e) y b.
Proof.
  remember (length l) as k eqn:Hk. revert l a Hk.
  induction k as [k IH] using lt_wf_ind. intros l a Hk Ha Hb Hw Hl.
  destruct l as [|a1 l].
  { simpl in Hl. injection Hl as ->. done. }
  destruct Hw as [Hs Hw]. destruct (decide (a1 ∈ s)) as [Ha1|Ha1].
  - destruct (IH (length l) ltac:(simpl in Hk; lia) l a1 eq_refl Ha1 Hb Hw Hl)
      as (x & y & Hx & Hy & Hxy & Hax & Hyb).
    exists x, y. split_and!; try done.
    apply (joined_step _ a a1 x); [|done].
    destruct Hs as [Hs|Hs]; [left|right]; apply list_elem_of_filter; by split.
  - destruct (decide (a ∈ l)) as [Hin|Hin].
    + apply list_elem_of_split in Hin as (l1 & l2 & ->).
      apply walk_suffix in Hw.
      apply (IH (length l2) ltac:(simpl in Hk; rewrite length_app in Hk; simpl in Hk; lia)
               l2 a eq_refl Ha Hb Hw).
      change (a :: a1 :: l1 ++ a :: l2) with ((a :: a1 :: l1) ++ a :: l2) in Hl.
      by rewrite last_app_cons in Hl.
    + exists a, a1. split_and!; try done; [apply joined_refl|].
      exists l. split; [|exact Hl].
      apply walk_avoiding; [done|]. apply not_elem_of_cons. split; [|done].
      by intros ->.
Qed.

Lemma joined_simulated e1 e2 a b :
  (∀ x y, step e1 x y → joined e2 x y) → joined e1 a b → joined e2 a b.
Proof.
  intros Hsim (l & Hw & Hl). revert a Hw Hl. induction l as [|x l IH]; intros a Hw Hl.
  - simpl in Hl. injection Hl as ->. apply joined_refl.
  - destruct Hw as [Hs Hw]. eapply joined_trans; [by apply Hsim|].
    apply IH; [done|exact Hl].
Qed.

Lemma path_joined a l z : z ∈ a :: l → joined (zip (a :: l) l) a z.
Proof.
  revert a; induction l as [|x l IH]; intros a.
  - intros ->%list_elem_of_singleton. apply joined_refl.
  - intros [->|Hz]%elem_of_cons; [apply joined_refl|].
    change (zip (a :: x :: l) (x :: l)) with ((a, x) :: zip (x :: l) l).
    apply (joined_step _ a x z); [left; left|].
    eapply joined_mono; [|by apply IH]. intros e He. by right.
Qed.

Lemma edge_ltb_true (a b : edge) : edge_ltb a b = true → (a.1.1 <= b.1.1)%Q.
Proof.
  destruct a as [[wa ua] va], b as [[wb ub] vb]. simpl.
  intros [Hlt|[Heq _]%andb_true_iff]%orb_true_iff.
  - apply Qltb_lt in Hlt. by apply Qlt_le_weak.
  - apply Qeq_bool_iff in Heq. rewrite Heq. apply Qle_refl.
Qed.

Lemma edge_ltb_false (a b : edge) : edge_ltb a b = false → (b.1.1 <= a.1.1)%Q.
Proof.
  destruct a as [[wa ua] va], b as [[wb ub] vb]. simpl.
  intros [Hlt _]%orb_false_iff. by apply Qltb_ge.
Qed.

(** [heappop] returns an item of least weight. *)
Lemma pop_min_least (e : edge) h m rest :
  pop_min e h = (m, rest) → ∀ x, x ∈ e :: h → (m.1.1 <= x.1.1)%Q.
Proof.
  revert e m rest; induction h as [|e' h IH]; intros e m rest Hpop x Hx.
  - simpl in Hpop. injection Hpop as <- <-.
    apply list_elem_of_singleton in Hx as ->. apply Qle_refl.
  - simpl in Hpop. destruct (pop_min e' h) as [m' rest'] eqn:Hp.
    specialize (IH e' m' rest' Hp).
    destruct (edge_ltb m' e) eqn:Hlt; injection Hpop as <- <-.
    + apply elem_of_cons in Hx as [->|Hx]; [by apply edge_ltb_true|by apply IH].
    + apply edge_ltb_false in Hlt.
      apply elem_of_cons in Hx as [->|Hx]; [apply Qle_refl|].
      eapply Qle_trans; [exact Hlt|by apply IH].
Qed.

(** ** Prim's tree is a lightest spanning tree *)

Section Approx.
Context {point : Type} (distance : point → point → Q) (tsp : @instance point).
Hypothesis Hvalid : valid_instance tsp.
Hypothesis Hmetric : metric_instance distance tsp.

Local Abbreviation n := (DIMENSION tsp).
Local Abbreviation d := (dist_of distance tsp).
Local Abbreviation weight := (edges_weight distance tsp).
Local Abbreviation cost := (path_cost distance tsp).

Lemma prim_reach_cut visited adj heap :
  prim_reach distance tsp visited adj heap → prim_cut distance tsp visited heap.
Proof.
  induction 1 as
    [|visited adj e h w u v rest _ IH Hsize Hpop Hv
     |visited adj e h w u v rest _ IH Hsize Hpop Hv].
  - split.
    + apply Forall_forall. intros e.
      rewrite elem_of_reverse, list_elem_of_fmap. by intros (v & -> & _).
    + intros x y ->%elem_of_singleton Hy Hy1.
      apply elem_of_reverse, list_elem_of_fmap. exists y. split; [done|].
      apply elem_of_range. unfold in_range in Hy.
      assert (y ≠ 1) by set_solver. lia.
  - destruct IH as [Hw Hcut]. apply pop_min_perm in Hpop. split.
    + rewrite Hpop in Hw. by apply Forall_cons in Hw as [_ ?].
    + intros x y Hx Hy Hyv. specialize (Hcut x y Hx Hy Hyv).
      rewrite Hpop in Hcut. apply elem_of_cons in Hcut as [[= _ _ ->]|?]; done.
  - destruct IH as [Hw Hcut]. apply pop_min_perm in Hpop. split.
    + apply Forall_app. split.
      * apply Forall_forall. intros x. unfold fresh_edges.
        rewrite elem_of_reverse, list_elem_of_fmap. by intros (y & -> & _).
      * rewrite Hpop in Hw. by apply Forall_cons in Hw as [_ ?].
    + intros x y Hx Hy Hyv. apply elem_of_app.
      apply elem_of_union in Hx as [Hx| ->%elem_of_singleton].
      * right. specialize (Hcut x y Hx Hy ltac:(set_solver)).
        rewrite Hpop in Hcut. apply elem_of_cons in Hcut as [[= _ _ ->]|?]; [|done].
        set_solver.
      * left. apply elem_of_reverse. unfold fresh_edges. apply list_elem_of_fmap.
        exists y. split; [done|]. apply list_elem_of_filter. split; [done|].
        apply elem_of_seq. unfold in_range in Hy. lia.
Qed.

Lemma step_elem e x y : step e x y → ∃ e', e' ∈ e ∧ (e' = (x, y) ∨ e' = (y, x)).
Proof. intros [?|?]; eauto. Qed.

(** The exchange step: the lightest edge leaving the tree can replace an
    edge of the completion. *)
Lemma mst_inv_add graph t u v (s : gset nat) :
  root t = 1 → NoDup (preorder t) → (∀ z, z ∈ preorder t ↔ z ∈ s) →
  (∀ z, z ∈ s → in_range n z) →
  u ∈ s → v ∉ s → in_range n v →
  (∀ x y, x ∈ s → in_range n y → y ∉ s → (d u v <= d x y)%Q) →
  mst_inv distance tsp graph t → mst_inv distance tsp graph (add_leaf u v t).
Proof.
  intros Hroot Hnd Hlabels Hrange Hu Hv Hvr Hleast (rest & Hrest & Hconn & Hweight).
  assert (1 ∈ s) as H1.
  { apply Hlabels. rewrite <- Hroot. destruct (preorder_root t) as [l ->]. left. }
  destruct (Hconn v Hvr) as (l & Hwalk & Hlast).
  destruct (cut_crossing s _ l 1 v H1 Hv Hwalk Hlast)
    as (x & y & Hx & Hy & Hxy & H1x & Hyv).
  apply step_elem in Hxy as (e' & He' & Hends).
  assert (e' ∈ rest) as He'rest.
  { apply elem_of_app in He' as [He'|?]; [|done]. exfalso.
    destruct Hends as [-> | ->]; apply tree_edges_inside in He' as [? ?];
      apply Hy, Hlabels; done. }
  apply elem_of_Permutation in He'rest as [rest' Hperm].
  assert (in_range n x ∧ in_range n y) as [Hxr Hyr].
  { unfold edges_in_range in Hrest. rewrite Hperm in Hrest.
    apply Forall_cons in Hrest as [[? ?] _]. destruct Hends as [-> | ->]; by simpl in *. }
  assert (weight [e'] == d x y)%Q as Hwe'.
  { destruct (Hmetric x y x Hxr Hyr Hxr) as (_ & Hsym & _).
    destruct Hends as [-> | ->]; simpl; lra. }
  exists rest'. split_and!.
  - unfold edges_in_range in *. rewrite Hperm in Hrest. by apply Forall_cons in Hrest as [_ ?].
  - assert (∀ e, e ∈ tree_edges t ++ rest → e ≠ e' →
                 e ∈ tree_edges (add_leaf u v t) ++ rest') as Hkeep.
    { intros e He Hne. rewrite tree_edges_add_leaf by (done || by apply Hlabels).
      right. rewrite Hperm in He. set_solver. }
    assert (∀ a b, joined (tree_edges t) a b →
                   joined (tree_edges (add_leaf u v t) ++ rest') a b) as Htree.
    { intros a b. apply joined_mono. intros e He.
      rewrite tree_edges_add_leaf by (done || by apply Hlabels). set_solver. }
    assert (joined (tree_edges (add_leaf u v t) ++ rest') x y) as Hdetour.
    { (* x to the root, the root to u, the new edge, v to y *)
      apply (joined_trans _ x 1 y).
      { apply joined_sym. eapply joined_mono; [|exact H1x].
        intros e [[He1 He2] He]%list_elem_of_filter. apply Hkeep; [done|].
        intros ->. destruct Hends as [-> | ->]; simpl in *; done. }
      apply (joined_trans _ 1 u y).
      { apply Htree. rewrite <- Hroot. by apply tree_joined, Hlabels. }
      apply (joined_step _ u v y).
      { left. rewrite tree_edges_add_leaf by (done || by apply Hlabels). set_solver. }
      apply joined_sym. eapply joined_mono; [|exact Hyv].
      intros e [[He1 He2] He]%list_elem_of_filter. apply Hkeep; [done|].
      intros ->. destruct Hends as [-> | ->]; simpl in *; done. }
    intros z Hz. eapply joined_simulated; [|exact (Hconn z Hz)].
    intros a b Hab. apply step_elem in Hab as (e & He & Hab).
    destruct (decide (e = e')) as [->|Hne].
    + destruct Hends as [-> | ->]; destruct Hab as [[= -> ->]|[= -> ->]];
        (exact Hdetour || by apply joined_sym).
    + apply (joined_step _ a b b); [|apply joined_refl].
      destruct Hab as [-> | ->]; [left|right]; by apply Hkeep.
  - rewrite (edges_weight_perm distance tsp _ _ (tree_edges_add_leaf u v t Hnd
               (proj2 (Hlabels u) Hu))).
    rewrite (edges_weight_perm distance tsp _ _ Hperm) in Hweight.
    change (weight (e' :: rest')) with (d e'.1 e'.2 + weight rest')%Q in Hweight.
    change (weight ((u, v) :: tree_edges t)) with (d u v + weight (tree_edges t))%Q.
    specialize (Hleast x y Hx Hyr Hy).
    simpl in Hwe'. lra.
Qed.

(** What holds along the loop, for any connected graph to compare with. *)
Lemma prim_reach_tree graph visited adj heap :
  edges_in_range n graph → connected n graph →
  prim_reach distance tsp visited adj heap →
  ∃ t, prim_tree visited adj t ∧ mst_inv distance tsp graph t.
Proof.
  intros Hgraph Hconn Hreach.
  induction Hreach as
    [|visited adj e h w u v rest Hreach IH Hsize Hpop Hv
     |visited adj e h w u v rest Hreach IH Hsize Hpop Hv].
  - exists (Node 1 []). split.
    + split_and!; [done|apply NoDup_singleton|set_solver|].
      constructor; [|done]. unfold adj_get. by rewrite lookup_empty.
    + exists graph. split_and!; [done..|]. simpl. lra.
  - done.
  - destruct IH as (t & (Hroot & Hnd & Hlabels & Hadj) & Hmst).
    pose proof (prim_reach_labels _ _ _ _ _ Hvalid Hreach) as (Hr & _ & Hheap & Hdom & _).
    pose proof (prim_reach_cut _ _ _ Hreach) as [Hw Hcut].
    pose proof (pop_min_perm _ _ _ _ Hpop) as Hperm.
    pose proof (pop_min_least _ _ _ _ Hpop) as Hleast. simpl in Hleast.
    rewrite Hperm in Hheap, Hw.
    apply Forall_cons in Hheap as [[Hu Hvr] _]. apply Forall_cons in Hw as [Hwuv _].
    simpl in Hu, Hvr, Hwuv.
    exists (add_leaf u v t). split.
    + split_and!.
      * by rewrite root_add_leaf.
      * rewrite preorder_add_leaf by (done || by apply Hlabels).
        apply NoDup_cons. split; [|done]. by intros ?%Hlabels.
      * intros z. rewrite preorder_add_leaf by (done || by apply Hlabels).
        rewrite elem_of_cons, elem_of_union, elem_of_singleton, Hlabels. naive_solver.
      * apply tree_adj_add_leaf; [by intros ->| |done|done|by intros ?%Hlabels|by apply Hlabels].
        unfold adj_get. destruct (adj !! v) eqn:E; [|done].
        exfalso. apply Hv, Hdom. by eexists.
    + apply (mst_inv_add graph t u v visited); try done.
      intros x y Hx Hy Hyv. rewrite <- Hwuv.
      apply (Hleast (d x y, x, y)). by apply Hcut.
Qed.

(** When the loop ends every city is in the tree. *)
Lemma prim_final_visited visited adj heap :
  prim_reach distance tsp visited adj heap →
  heap = [] ∨ n ≤ size visited →
  ∀ z, z ∈ visited ↔ in_range n z.
Proof.
  intros Hreach Hend.
  pose proof (prim_reach_labels _ _ _ _ _ Hvalid Hreach) as (Hr & H1 & _).
  pose proof (prim_reach_cut _ _ _ Hreach) as [_ Hcut].
  intros z. split; [apply Hr|]. intros Hz.
  destruct Hend as [->|Hsize].
  - destruct (decide (z ∈ visited)) as [?|Hnot]; [done|].
    by apply (Hcut 1 z H1 Hz), elem_of_nil in Hnot.
  - assert (visited ⊆ list_to_set (seq 1 n)) as Hsub.
    { intros x Hx. apply elem_of_list_to_set, elem_of_seq. apply Hr in Hx.
      unfold in_range in Hx. lia. }
    assert (visited = list_to_set (seq 1 n)) as ->.
    { apply set_subseteq_size_eq; [done|].
      rewrite size_list_to_set by apply NoDup_seq. by rewrite length_seq. }
    apply elem_of_list_to_set, elem_of_seq. unfold in_range in Hz. lia.
Qed.

Lemma path_cost_snoc_ge l z :
  Forall (in_range n) l → in_range n z → (cost l <= cost (l ++ [z]))%Q.
Proof.
  intros Hl Hz. induction Hl as [|x l Hx Hl IH]; [simpl; lra|].
  destruct l as [|y l].
  - simpl app. rewrite path_cost_cons. simpl. pose proof (dist_nonneg distance tsp Hmetric x z Hx Hz). lra.
  - change ((x :: y :: l) ++ [z]) with (x :: y :: (l ++ [z])).
    rewrite !path_cost_cons. change (y :: l ++ [z]) with ((y :: l) ++ [z]). lra.
Qed.

(** The walk of [approx_tsp_tour], compared with the closed tour through
    the cities [1 :: p]. *)
Lemma approx_tsp_tour_bound frames p :
  p ≡ₚ range 2 (n + 1) →
  ∃ t len tour,
    height t ≤ n
    ∧ approx_tsp_tour distance frames tsp
      = (if decide (height t ≤ frames) then Ok (len, tour) else Raise RecursionError)
    ∧ valid_tour n tour
    ∧ path_length distance tsp tour = Ok len
    ∧ (len <= 2 * cost ([1%nat] ++ p ++ [1%nat]))%Q.
Proof.
  intros Hp.
  assert (in_range n 1) as Hr1 by (destruct Hvalid; unfold in_range; lia).
  assert (Forall (in_range n) p) as Hpr.
  { apply Forall_forall. intros x Hx. rewrite Hp in Hx. apply elem_of_range in Hx.
    unfold in_range. lia. }
  set (graph := zip (1 :: p) p).
  assert (edges_in_range n graph) as Hgraph.
  { apply Forall_forall. intros [a b] Hab. unfold graph in Hab.
    pose proof (elem_of_zip_l _ _ _ _ Hab) as Ha. pose proof (elem_of_zip_r _ _ _ _ Hab) as Hb.
    simpl. split.
    - apply elem_of_cons in Ha as [->|Ha]; [done|].
      by apply (proj1 (Forall_forall _ _) Hpr).
    - by apply (proj1 (Forall_forall _ _) Hpr). }
  assert (connected n graph) as Hconn.
  { intros z Hz. apply path_joined. destruct (decide (z = 1)) as [->|Hne]; [left|right].
    rewrite Hp. apply elem_of_range. unfold in_range in Hz. lia. }
  destruct (prim_mst_returns distance tsp Hvalid) as (adj & Hprim & visited & heap & Hreach & Hend).
  destruct (prim_reach_tree graph visited adj heap Hgraph Hconn Hreach)
    as (t & (Hroot & Hnd & Hlabels & Hadj) & rest & Hrest & _ & Hweight).
  pose proof (prim_final_visited visited adj heap Hreach Hend) as Hall.
  assert (preorder t ≡ₚ seq 1 n) as Hperm.
  { apply NoDup_Permutation; [done|apply NoDup_seq|].
    intros z. rewrite Hlabels, Hall, elem_of_seq. unfold in_range. lia. }
  destruct (preorder_root t) as [tl Htl]. rewrite Hroot in Htl.
  assert (tl ≡ₚ range 2 (n + 1)) as Htlp.
  { rewrite Htl in Hperm. destruct Hvalid as [Hn _].
    destruct n as [|k] eqn:En; [lia|]. simpl in Hperm.
    apply Permutation_cons_inv in Hperm. rewrite Hperm. unfold range.
    by replace (S k + 1 - 2) with k by lia. }
  assert (Forall (in_range n) (preorder t)) as Htr.
  { apply Forall_forall. intros z Hz. by apply Hall, Hlabels. }
  assert (Forall (in_range n) tl) as Htlr.
  { rewrite Htl in Htr. by apply Forall_cons in Htr as [_ ?]. }
  assert (dfs frames adj 1 None []
          = if decide (height t ≤ frames) then Ok (preorder t) else Raise RecursionError)
    as Hdfs.
  { rewrite <- Hroot. by apply (dfs_height adj t None frames []). }
  assert (height t ≤ n) as Hheight.
  { pose proof (height_le_size t). apply Permutation_length in Hperm.
    rewrite length_seq in Hperm. lia. }
  pose proof (path_length_closed distance tsp Hvalid tl Htlr) as Hlen.
  change ([1] ++ tl ++ [1]) with ((1 :: tl) ++ [1]) in Hlen.
  assert (approx_tsp_tour distance frames tsp
          = if decide (height t ≤ frames)
            then Ok (walk_cost distance tsp 1 0 (tl ++ [1]), (1 :: tl) ++ [1])
            else Raise RecursionError) as Hrun.
  { unfold approx_tsp_tour. rewrite Hprim, bind_Ok.
    cbv zeta. rewrite Hdfs. destruct (decide (height t ≤ frames)); [|done].
    unfold path_length in Hlen. rewrite bind_Ok, Htl, Hlen. done. }
  exists t. eexists _, _. split; [exact Hheight|]. split; [exact Hrun|].
  split; [|split; [exact Hlen|]].
  - change ((1 :: tl) ++ [1]) with ([1] ++ tl ++ [1]).
    apply valid_tour_closed; [by destruct Hvalid|done].
  - rewrite walk_cost_path_cost.
    pose proof (preorder_walk_bound distance tsp Hmetric t Htr) as Hwalk.
    rewrite Hroot, Htl in Hwalk.
    change ((1 :: tl) ++ [1]) with (1 :: tl ++ [1]) in Hwalk.
    pose proof (edges_weight_nonneg distance tsp Hmetric rest Hrest) as Hnonneg.
    pose proof (edges_weight_zip distance tsp 1 p) as Hzip. fold graph in Hzip.
    pose proof (path_cost_snoc_ge (1 :: p) 1 ltac:(by constructor) Hr1) as Hclose.
    change ((1 :: p) ++ [1]) with ([1] ++ p ++ [1]) in Hclose.
    lra.
Qed.

End Approx.

Lemma metric_check_sound {point} (distance : point → point → Q) (tsp : instance) :
  metric_check distance tsp = true → metric_instance distance tsp.
Proof.
  unfold metric_check. intros Hcheck i j k Hi Hj Hk.
  assert (∀ x, in_range (DIMENSION tsp) x → In x (seq 1 (DIMENSION tsp))) as Hin.
  { intros x Hx. apply in_seq. unfold in_range in Hx. lia. }
  rewrite forallb_forall in Hcheck. specialize (Hcheck i (Hin i Hi)).
  rewrite forallb_forall in Hcheck. specialize (Hcheck j (Hin j Hj)).
  rewrite forallb_forall in Hcheck. specialize (Hcheck k (Hin k Hk)).
  apply andb_true_iff in Hcheck as [[H0 Hsym]%andb_true_iff Htri].
  apply Qeq_bool_iff in H0, Hsym. apply Qle_bool_iff in Htri. done.
Qed.

(** [C8]: on a valid instance whose distances form a metric, the length
    that [approx_tsp_tour] returns is at most twice the length of any valid
    tour, hence at most twice the optimum, for any number of cities: the
    function returns whenever the interpreter allows [dfs] one nested call
    per city, and whatever it returns is a valid tour together with the
    [path_length] of that tour, which is within the bound. *)
Theorem approx_tsp_tour_within_twice_optimal {point} (distance : point → point → Q)
    (frames : nat) (tsp : instance) :
  valid_instance tsp → metric_instance distance tsp →
  (DIMENSION tsp ≤ frames →
   ∃ len tour, approx_tsp_tour distance frames tsp = Ok (len, tour))
  ∧ ∀ len tour,
      approx_tsp_tour distance frames tsp = Ok (len, tour) →
      valid_tour (DIMENSION tsp) tour
      ∧ path_length distance tsp tour = Ok len
      ∧ ∀ t best, valid_tour (DIMENSION tsp) t →
          path_length distance tsp t = Ok best → (len <= 2 * best)%Q.
Proof.
  intros Hvalid Hmetric.
  destruct (approx_tsp_tour_bound distance tsp Hvalid Hmetric frames
              (range 2 (DIMENSION tsp + 1)))
    as (t0 & len0 & tour0 & Hheight & Hrun & Htour & Hlen & _); [done|].
  split.
  - intros Hframes. exists len0, tour0. by rewrite Hrun, decide_True by lia.
  - intros len tour Hret. rewrite Hrun in Hret.
    destruct (decide (height t0 ≤ frames)); [|done]. injection Hret as <- <-.
    split_and!; [done..|].
    intros t best Ht Hbest.
    apply valid_tour_inv in Ht as (p & -> & Hp); [|by destruct Hvalid].
    destruct (approx_tsp_tour_bound distance tsp Hvalid Hmetric frames p Hp)
      as (t1 & len1 & tour1 & _ & Hrun' & _ & _ & Hbound).
    rewrite Hrun in Hrun'. destruct (decide (height t0 ≤ frames)) as [Hin|]; [|done].
    destruct (decide (height t1 ≤ frames)); [|done]. injection Hrun' as <- <-.
    rewrite path_length_closed in Hbest; [|done|].
    2:{ apply Forall_forall. intros x Hx. rewrite Hp in Hx. apply elem_of_range in Hx.
        unfold in_range. lia. }
    injection Hbest as <-.
    rewrite walk_cost_path_cost.
    change (1 :: p ++ [1]) with ([1] ++ p ++ [1]). lra.
Qed.

Lemma approx_tsp_tour_within_twice_optimal_witness :
  (6 ≤ 6 → ∃ len tour,
     approx_tsp_tour grid_distance 6 (line_instance six_spread) = Ok (len, tour))
  ∧ ∀ len tour,
      approx_tsp_tour grid_distance 6 (line_instance six_spread) = Ok (len, tour) →
      valid_tour 6 tour
      ∧ path_length grid_distance (line_instance six_spread) tour = Ok len
      ∧ ∀ t best, valid_tour 6 t →
          path_length grid_distance (line_instance six_spread) t = Ok best →
          (len <= 2 * best)%Q.
Proof.
  apply (approx_tsp_tour_within_twice_optimal grid_distance 6 (line_instance six_spread)).
  - split; simpl; lia.
  - apply metric_check_sound. vm_compute. reflexivity.
Defined.

(** ** 2-opt: what does hold *)

Section TwoOpt.
Context {point : Type} (distance : point → point → Q).
Implicit Types (tsp : @instance point) (tour : list nat) (m : list (list Q)).

Lemma two_opt_body_inv tsp tour m i j l0 bt st st' :
  1 ≤ i → i + 2 ≤ j → j < length tour - 1 →
  (st.1.2 <= l0)%Q ∧ (st.1.1 = bt ∨ ∃ i j, 1 ≤ i ∧ i + 2 ≤ j ∧ j < length tour - 1
                                          ∧ st.1.1 = reverse_segment tour i j) →
  two_opt_body distance tsp tour m i j st = Ok st' →
  (st'.1.2 <= l0)%Q ∧ (st'.1.1 = bt ∨ ∃ i j, 1 ≤ i ∧ i + 2 ≤ j ∧ j < length tour - 1
                                            ∧ st'.1.1 = reverse_segment tour i j).
Proof.
  intros Hi Hij Hj [Hle Hshape] H. destruct st as [[bt0 bl0] imp]. unfold two_opt_body in H.
  do 8 bind_inv H.
  destruct (Qltb _ _); [|by inversion H; subst].
  bind_inv H. destruct (Qltb a7 bl0) eqn:Hlt; inversion H; subst; [|done].
  simpl in *. apply Qltb_lt in Hlt. split; [lra|].
  right. exists i, j. by split_and!.
Qed.

Lemma two_opt_sweep_inv tsp tour m l0 bt bl st' :
  (bl <= l0)%Q →
  two_opt_sweep distance tsp tour m (length tour - 1) bt bl = Ok st' →
  (st'.1.2 <= l0)%Q ∧ (st'.1.1 = bt ∨ ∃ i j, 1 ≤ i ∧ i + 2 ≤ j ∧ j < length tour - 1
                                            ∧ st'.1.1 = reverse_segment tour i j).
Proof.
  intros Hle H. unfold two_opt_sweep in H.
  eapply (for_each_inv (fun st => (st.1.2 <= l0)%Q
            ∧ (st.1.1 = bt ∨ ∃ i j, 1 ≤ i ∧ i + 2 ≤ j ∧ j < length tour - 1
                                    ∧ st.1.1 = reverse_segment tour i j))) in H; [done| |].
  - intros st1 i st2 Hinv Hi%elem_of_range H2.
    eapply (for_each_inv (fun st => (st.1.2 <= l0)%Q
              ∧ (st.1.1 = bt ∨ ∃ i j, 1 ≤ i ∧ i + 2 ≤ j ∧ j < length tour - 1
                                      ∧ st.1.1 = reverse_segment tour i j))) in H2; [done| |done].
    intros st3 j st4 Hinv3 Hj%elem_of_range H4.
    eapply (two_opt_body_inv tsp tour m i j); [lia..|done|done].
  - simpl. split; [done|by left].
Qed.

(** The result of [two_opt] is the input tour or one reversal of a
    segment of it, and is not longer than the input. *)
Lemma two_opt_result tsp tour m fuel bt bl :
  two_opt distance fuel tsp tour m = Ok (bt, bl) →
  ∃ l0, path_length distance tsp tour = Ok l0
        ∧ (bl <= l0)%Q
        ∧ (bt = tour ∨ ∃ i j, 1 ≤ i ∧ i + 2 ≤ j ∧ j < length tour - 1
                              ∧ bt = reverse_segment tour i j).
Proof.
  unfold two_opt. intros H. bind_inv H. rename a into l0. exists l0. split; [done|].
  assert (∀ fuel bt0 bl0,
    (bl0 <= l0)%Q →
    (bt0 = tour ∨ ∃ i j, 1 ≤ i ∧ i + 2 ≤ j ∧ j < length tour - 1
                         ∧ bt0 = reverse_segment tour i j) →
    two_opt_loop distance fuel tsp tour m (length tour - 1) bt0 bl0 = Ok (bt, bl) →
    (bl <= l0)%Q ∧ (bt = tour ∨ ∃ i j, 1 ≤ i ∧ i + 2 ≤ j ∧ j < length tour - 1
                                       ∧ bt = reverse_segment tour i j)) as Hloop.
  { clear H. intros fuel'. induction fuel' as [|fuel' IH]; intros bt0 bl0 Hle Hshape Hrun;
      [discriminate|].
    simpl in Hrun. bind_inv Hrun. destruct a as [[bt1 bl1] imp].
    apply (two_opt_sweep_inv tsp tour m l0) in Ha0 as [Hle1 Hshape1]; [|done].
    simpl in Hle1, Hshape1.
    assert (bt1 = tour ∨ ∃ i j, 1 ≤ i ∧ i + 2 ≤ j ∧ j < length tour - 1
                                ∧ bt1 = reverse_segment tour i j) as Hshape1'.
    { destruct Hshape1 as [->|?]; [done|by right]. }
    destruct imp; [by eapply IH|]. by inversion Hrun; subst. }
  eapply Hloop; [apply Qle_refl|by left|done].
Qed.

End TwoOpt.

(** Reversing a segment that leaves both ends in place keeps a tour valid. *)
Lemma reverse_segment_valid n tour i j :
  valid_tour n tour → 1 ≤ i → i ≤ j → j < length tour - 1 →
  valid_tour n (reverse_segment tour i j).
Proof.
  intros (Hlen & Hhead & Hlast & Hperm) Hi Hij Hj.
  unfold reverse_segment, slice.
  assert (tour = take i tour ++ take (j + 1 - i) (drop i tour) ++ drop (j + 1) tour) as Hsplit.
  { rewrite <- (take_drop i tour) at 1. f_equal.
    rewrite <- (take_drop (j + 1 - i) (drop i tour)) at 1. f_equal.
    rewrite drop_drop. f_equal. lia. }
  set (A := take i tour) in *. set (B := take (j + 1 - i) (drop i tour)) in *.
  set (C := drop (j + 1) tour) in *.
  assert (length A = i) as HA by (unfold A; rewrite length_take; lia).
  assert (length B = j + 1 - i) as HB
    by (unfold B; rewrite length_take, length_drop; lia).
  assert (length C = n - j) as HC by (unfold C; rewrite length_drop; lia).
  destruct (last C) as [c|] eqn:HlastC.
  2:{ apply last_None in HlastC. rewrite HlastC in HC. simpl in HC. lia. }
  apply last_Some in HlastC as [C' HC'].
  assert (length C' = n - j - 1) as HC'len.
  { rewrite HC', length_app in HC. simpl in HC. lia. }
  unfold valid_tour. split_and!.
  - rewrite !length_app, length_reverse. lia.
  - rewrite Hsplit in Hhead. destruct A as [|a A']; [simpl in HA; lia|done].
  - rewrite Hsplit, !app_assoc, HC', !app_assoc, last_snoc in Hlast.
    by rewrite !app_assoc, HC', !app_assoc, last_snoc.
  - rewrite Hsplit in Hperm.
    rewrite HC' in Hperm |- *.
    assert (∀ X : list nat, length X = j + 1 - i →
              take n (A ++ X ++ C' ++ [c]) = A ++ X ++ C') as Htake.
    { intros X HX. rewrite !app_assoc. apply take_app_length'.
      rewrite !length_app. lia. }
    rewrite Htake in Hperm by done.
    rewrite Htake by (rewrite length_reverse; done).
    by rewrite reverse_Permutation.
Qed.

(** ** 2-opt on a valid tour: it returns, within two sweeps *)

Section TwoOptTotal.
Context {point : Type} (distance : point → point → Q) (tsp : @instance point).
Hypothesis Hvalid : valid_instance tsp.

Local Abbreviation n := (DIMENSION tsp).
Local Abbreviation d := (dist_of distance tsp).

Lemma build_matrix_full : build_matrix distance tsp n = Ok (full_matrix distance tsp).
Proof.
  unfold build_matrix, full_matrix.
  replace (range 1 (n + 1)) with (seq 1 n) by (unfold range; f_equal; lia).
  apply map_res_pure. intros i Hi%elem_of_seq.
  apply map_res_pure. intros j Hj%elem_of_seq.
  apply dist_in_range; [done|unfold in_range; lia..].
Qed.

Lemma py_get_label_lookup {A} (l : list A) u x :
  1 ≤ u → l !! (u - 1) = Some x → py_get l (label_index u) = Ok x.
Proof.
  intros Hu Hx. unfold py_get, label_index.
  destruct (Z.ltb_spec (Z.of_nat u - 1) 0) as [?|_]; [lia|].
  destruct (Z.ltb_spec (Z.of_nat u - 1) 0) as [?|_]; [lia|].
  replace (Z.to_nat (Z.of_nat u - 1)) with (u - 1) by lia. by rewrite Hx.
Qed.

Lemma matrix_get_full a b :
  in_range n a → in_range n b →
  matrix_get (full_matrix distance tsp) a b = Ok (d a b).
Proof.
  intros Ha Hb. unfold matrix_get, full_matrix, in_range in *.
  rewrite (py_get_label_lookup _ a ((fun j => d a j) <$> seq 1 n)); [|lia|].
  2:{ rewrite list_lookup_fmap, lookup_seq_lt by lia. simpl. do 3 f_equal. lia. }
  rewrite bind_Ok. apply py_get_label_lookup; [lia|].
  rewrite list_lookup_fmap, lookup_seq_lt by lia. simpl. do 2 f_equal. lia.
Qed.

Lemma path_length_returns l :
  Forall (in_range n) l → ∃ v, path_length distance tsp l = Ok v.
Proof.
  intros Hl. destruct l as [|u p]; [by exists 0%Q|].
  apply Forall_cons in Hl as [Hu Hp]. exists (walk_cost distance tsp u 0 p).
  change (path_length distance tsp (u :: p))
    with (for_each (add_leg distance tsp) 0%Q (zip (u :: p) p)).
  by apply for_each_walk.
Qed.

Lemma item_lookup {A} (l : list A) i x : l !! i = Some x → item l i = Ok x.
Proof. unfold item. by intros ->. Qed.

Lemma valid_tour_in_range tour : valid_tour n tour → Forall (in_range n) tour.
Proof.
  intros Ht. apply valid_tour_inv in Ht as (p & -> & Hp); [|by destruct Hvalid].
  assert (in_range n 1) by (destruct Hvalid; unfold in_range; lia).
  apply Forall_app. split; [by apply Forall_singleton|].
  apply Forall_app. split; [|by apply Forall_singleton].
  apply Forall_forall. intros x Hx. rewrite Hp in Hx. apply elem_of_range in Hx.
  unfold in_range. lia.
Qed.

(** On a valid tour the body of the loops does not fail, and what it does
    to the state is [two_opt_pick] of a candidate that depends on [tour],
    [i] and [j] only. *)
Lemma two_opt_body_pick tour i j :
  valid_tour n tour → 1 ≤ i → i + 2 ≤ j → j < n →
  ∃ c, (∀ t l, c = Some (t, l) →
          t = reverse_segment tour i j ∧ path_length distance tsp t = Ok l)
       ∧ ∀ st, two_opt_body distance tsp tour (full_matrix distance tsp) i j st
               = Ok (two_opt_pick st c).
Proof.
  intros Ht Hi Hij Hj. pose proof Ht as (Hlen & _).
  pose proof (valid_tour_in_range tour Ht) as Hrange.
  assert (∀ k, k ≤ n → ∃ x, tour !! k = Some x ∧ in_range n x) as Hitem.
  { intros k Hk. destruct (lookup_lt_is_Some_2 tour k) as [x Hx]; [lia|].
    exists x. split; [done|].
    by apply (proj1 (Forall_forall _ _) Hrange), list_elem_of_lookup_2 with k. }
  destruct (Hitem (i - 1)) as (a & Ha & Har); [lia|].
  destruct (Hitem i) as (b & Hb & Hbr); [lia|].
  destruct (Hitem j) as (c & Hc & Hcr); [lia|].
  destruct (Hitem (j + 1)) as (e & He & Her); [lia|].
  assert (valid_tour n (reverse_segment tour i j)) as Hnew
    by (apply reverse_segment_valid; [done|lia..]).
  destruct (path_length_returns (reverse_segment tour i j)) as [len Hlen'];
    [by apply valid_tour_in_range|].
  exists (if Qltb (d a c + d b e) (d a b + d c e)
          then Some (reverse_segment tour i j, len) else None).
  split.
  - intros t l Hsome. destruct (Qltb _ _); [|discriminate]. by injection Hsome as <- <-.
  - intros [[bt bl] imp]. unfold two_opt_body.
    rewrite (item_lookup _ _ _ Ha), bind_Ok, (item_lookup _ _ _ Hb), bind_Ok.
    rewrite (matrix_get_full a b), bind_Ok by done.
    rewrite (item_lookup _ _ _ Hc), bind_Ok, (item_lookup _ _ _ He), bind_Ok.
    rewrite (matrix_get_full c e), bind_Ok by done.
    rewrite (matrix_get_full a c), bind_Ok by done.
    rewrite (matrix_get_full b e), bind_Ok by done.
    destruct (Qltb _ _); [|done].
    change (slice_to tour i ++ reverse (slice tour i (j + 1)) ++ slice_from tour (j + 1))
      with (reverse_segment tour i j).
    rewrite Hlen', bind_Ok. simpl. by destruct (Qltb len bl).
Qed.

Lemma for_each_picks {A} (body : A → list nat * Q * bool → res (list nat * Q * bool))
    (good : option (list nat * Q) → Prop) (l : list A) :
  (∀ x, x ∈ l → ∃ c, good c ∧ ∀ st, body x st = Ok (two_opt_pick st c)) →
  ∃ cs, Forall good cs
        ∧ ∀ st, for_each (fun st x => body x st) st l = Ok (foldl two_opt_pick st cs).
Proof.
  induction l as [|x l IH]; intros Hbody.
  - exists []. by split.
  - destruct (Hbody x) as (c & Hc & Hx); [left|].
    destruct IH as (cs & Hcs & Hl); [intros; apply Hbody; by right|].
    exists (c :: cs). split; [by constructor|].
    intros st. simpl. rewrite Hx, bind_Ok. apply Hl.
Qed.

Lemma for_each_nested_picks {A B}
    (body : A → B → list nat * Q * bool → res (list nat * Q * bool))
    (good : option (list nat * Q) → Prop) (inner : A → list B) (l : list A) :
  (∀ x y, x ∈ l → y ∈ inner x →
     ∃ c, good c ∧ ∀ st, body x y st = Ok (two_opt_pick st c)) →
  ∃ cs, Forall good cs
        ∧ ∀ st, for_each (fun st x => for_each (fun st y => body x y st) st (inner x)) st l
                = Ok (foldl two_opt_pick st cs).
Proof.
  induction l as [|x l IH]; intros Hbody.
  - exists []. by split.
  - destruct (for_each_picks (body x) good (inner x)) as (c1 & Hc1 & Hx).
    { intros y Hy. apply Hbody; [left|done]. }
    destruct IH as (cs & Hcs & Hl); [intros; apply Hbody; [by right|done]|].
    exists (c1 ++ cs). split; [by apply Forall_app|].
    intros st. simpl. rewrite Hx, bind_Ok, foldl_app. apply Hl.
Qed.

(** After a sweep the best length is at most the length of every
    candidate; a sweep that starts there changes nothing. *)
Lemma foldl_pick_least cs st :
  ((foldl two_opt_pick st cs).1.2 <= st.1.2)%Q
  ∧ ∀ t l, Some (t, l) ∈ cs → ((foldl two_opt_pick st cs).1.2 <= l)%Q.
Proof.
  revert st. induction cs as [|c cs IH]; intros st.
  - split; [apply Qle_refl|]. by intros ? ? ?%elem_of_nil.
  - simpl. destruct (IH (two_opt_pick st c)) as [IH1 IH2].
    assert ((two_opt_pick st c).1.2 <= st.1.2)%Q as Hstep.
    { destruct c as [[t l]|]; simpl; [|apply Qle_refl].
      destruct (Qltb l st.1.2) eqn:E; [|apply Qle_refl].
      apply Qltb_lt in E. simpl. by apply Qlt_le_weak. }
    split; [by eapply Qle_trans|].
    intros t l [[= <-]|Hin]%elem_of_cons; [|by eapply IH2].
    eapply Qle_trans; [exact IH1|]. simpl.
    destruct (Qltb l st.1.2) eqn:E; [apply Qle_refl|by apply Qltb_ge in E].
Qed.

Lemma foldl_pick_stable cs bt bl :
  (∀ t l, Some (t, l) ∈ cs → (bl <= l)%Q) →
  foldl two_opt_pick (bt, bl, false) cs = (bt, bl, false).
Proof.
  induction cs as [|c cs IH]; intros Hle; [done|].
  simpl. assert (two_opt_pick (bt, bl, false) c = (bt, bl, false)) as ->.
  { destruct c as [[t l]|]; [|done]. simpl.
    destruct (Qltb l bl) eqn:E; [|done]. apply Qltb_lt in E.
    specialize (Hle t l ltac:(left)). lra. }
  apply IH. intros t l Hin. apply (Hle t l). by right.
Qed.

(** [two_opt] on a valid tour and the matrix of the instance: two sweeps
    are enough, the result is a valid tour with its own length, not
    longer than the tour given. *)
Lemma two_opt_total tour fuel :
  valid_tour n tour →
  ∃ bt bl l0,
    two_opt distance (S (S fuel)) tsp tour (full_matrix distance tsp) = Ok (bt, bl)
    ∧ valid_tour n bt
    ∧ path_length distance tsp bt = Ok bl
    ∧ path_length distance tsp tour = Ok l0
    ∧ (bl <= l0)%Q.
Proof.
  intros Ht. pose proof Ht as (Hlen & _).
  destruct (path_length_returns tour (valid_tour_in_range tour Ht)) as [l0 Hl0].
  destruct (for_each_nested_picks
    (fun i j st => two_opt_body distance tsp tour (full_matrix distance tsp) i j st)
    (fun c => ∀ t l, c = Some (t, l) →
       valid_tour n t ∧ path_length distance tsp t = Ok l)
    (fun i => range (i + 2) n) (range 1 (n - 2))) as (cs & Hcs & Hsweep).
  { intros i j Hi%elem_of_range Hj%elem_of_range.
    destruct (two_opt_body_pick tour i j Ht) as (c & Hc & Hbody); [lia..|].
    exists c. split; [|done]. intros t l Hsome. destruct (Hc t l Hsome) as [-> ?].
    split; [|done]. apply reverse_segment_valid; [done|lia..]. }
  assert (∀ bt bl, two_opt_sweep distance tsp tour (full_matrix distance tsp) n bt bl
                   = Ok (foldl two_opt_pick (bt, bl, false) cs)) as Hsweep'.
  { intros bt bl. unfold two_opt_sweep. apply Hsweep. }
  assert (∀ st, (valid_tour n st.1.1 ∧ path_length distance tsp st.1.1 = Ok st.1.2) →
                valid_tour n (foldl two_opt_pick st cs).1.1
                ∧ path_length distance tsp (foldl two_opt_pick st cs).1.1
                  = Ok (foldl two_opt_pick st cs).1.2) as Hkeep.
  { clear Hsweep Hsweep'. induction cs as [|c cs IH]; intros st Hst; [done|].
    apply Forall_cons in Hcs as [Hc Hcs]. simpl. apply IH; [done|].
    destruct c as [[t l]|]; [|done]. simpl.
    destruct (Qltb l st.1.2); [|done]. simpl. by apply Hc. }
  unfold two_opt. rewrite Hl0, bind_Ok.
  replace (length tour - 1) with n by lia.
  cbn [two_opt_loop]. rewrite Hsweep', bind_Ok.
  destruct (foldl two_opt_pick (tour, l0, false) cs) as [[bt1 bl1] imp] eqn:Hfold.
  pose proof (foldl_pick_least cs (tour, l0, false)) as [Hle1 Hleast].
  pose proof (Hkeep (tour, l0, false) (conj Ht Hl0)) as [Hv1 Hm1].
  rewrite Hfold in Hle1, Hleast, Hv1, Hm1. simpl in Hle1, Hleast, Hv1, Hm1.
  destruct imp.
  - rewrite Hsweep', bind_Ok, foldl_pick_stable by done.
    exists bt1, bl1, l0. by split_and!.
  - exists bt1, bl1, l0. by split_and!.
Qed.

End TwoOptTotal.

Section PathLength.
Context {point : Type} (distance : point → point → Q).
Implicit Types (tsp : @instance point) (tour : list nat).

Lemma py_get_label_zero {A} (l : list A) :
  py_get l (label_index 0) = py_get l (label_index (length l)).
Proof.
  unfold py_get, label_index. destruct l as [|x l]; [done|].
  rewrite length_cons. change (Z.of_nat 0 - 1 <? 0)%Z with true. cbv iota.
  destruct (Z.ltb_spec (Z.of_nat (S (length l)) - 1) 0) as [?|_]; [lia|].
  destruct (Z.ltb_spec (Z.of_nat (S (length l)) + (Z.of_nat 0 - 1)) 0) as [?|_]; [lia|].
  destruct (Z.ltb_spec (Z.of_nat (S (length l)) - 1) 0) as [?|_]; [lia|].
  replace (Z.to_nat (Z.of_nat (S (length l)) + (Z.of_nat 0 - 1)))
    with (Z.to_nat (Z.of_nat (S (length l)) - 1)) by lia.
  done.
Qed.

Lemma py_get_wrap_label {A} (l : list A) u :
  py_get l (label_index (wrap_label (length l) u)) = py_get l (label_index u).
Proof.
  unfold wrap_label. destruct (decide (u = 0)) as [->|]; [|done].
  by rewrite py_get_label_zero.
Qed.

Lemma dist_wrap_label tsp u v :
  dist distance tsp (wrap_label (length (CITIES tsp)) u) (wrap_label (length (CITIES tsp)) v)
  = dist distance tsp u v.
Proof. unfold dist. by rewrite !py_get_wrap_label. Qed.

Lemma for_each_fmap {A B S} (f : S → B → res S) (g : A → B) s l :
  for_each f s (g <$> l) = for_each (fun s x => f s (g x)) s l.
Proof.
  revert s. induction l as [|x l IH]; intros s; [done|].
  rewrite fmap_cons. simpl. destruct (f s (g x)); simpl; auto.
Qed.

Lemma for_each_ext {A S} (f g : S → A → res S) s l :
  (∀ s x, f s x = g s x) → for_each f s l = for_each g s l.
Proof.
  intros Hfg. revert s. induction l as [|x l IH]; intros s; [done|].
  simpl. rewrite Hfg. destruct (g s x); simpl; auto.
Qed.

Lemma zip_fmap_both {A B} (g : A → B) (l1 l2 : list A) :
  zip (g <$> l1) (g <$> l2) = prod_map g g <$> zip l1 l2.
Proof.
  revert l2. induction l1 as [|x l1 IH]; intros [|y l2]; try done.
  rewrite !fmap_cons. simpl. by rewrite IH.
Qed.

Lemma path_length_wrap tsp tour :
  path_length distance tsp (wrap_label (length (CITIES tsp)) <$> tour)
  = path_length distance tsp tour.
Proof.
  unfold path_length, slice_from. rewrite <- fmap_drop, zip_fmap_both, for_each_fmap.
  apply for_each_ext. intros s [u v]. unfold add_leg. simpl.
  by rewrite dist_wrap_label.
Qed.


Lemma py_get_label_above {A} (l : list A) u :
  length l < u → py_get l (label_index u) = Raise IndexError.
Proof.
  intros Hu. unfold py_get, label_index.
  destruct (Z.ltb_spec (Z.of_nat u - 1) 0) as [?|_]; [lia|].
  destruct (Z.ltb_spec (Z.of_nat u - 1) 0) as [?|_]; [lia|].
  rewrite lookup_ge_None_2; [done|lia].
Qed.

Lemma py_get_label_fit {A} (l : list A) u :
  l ≠ [] → u ≤ length l → ∃ x, py_get l (label_index u) = Ok x.
Proof.
  intros Hl Hu. rewrite <- py_get_wrap_label. apply py_get_label.
  unfold wrap_label. destruct l; [done|]. rewrite length_cons in *.
  destruct (decide (u = 0)); lia.
Qed.

Lemma wrap_label_in_range n u : 1 ≤ n → u ≤ n → in_range n (wrap_label n u).
Proof. unfold wrap_label, in_range. destruct (decide (u = 0)); lia. Qed.

Lemma dist_fit tsp u v :
  valid_instance tsp → u ≤ DIMENSION tsp → v ≤ DIMENSION tsp →
  dist distance tsp u v
  = Ok (dist_of distance tsp (wrap_label (DIMENSION tsp) u) (wrap_label (DIMENSION tsp) v)).
Proof.
  intros Hvalid Hu Hv. pose proof Hvalid as [Hn Hlen].
  rewrite <- dist_wrap_label, Hlen.
  apply dist_in_range; [done|by apply wrap_label_in_range..].
Qed.

Lemma dist_unfit tsp u v :
  valid_instance tsp → ¬ (u ≤ DIMENSION tsp ∧ v ≤ DIMENSION tsp) →
  dist distance tsp u v = Raise IndexError.
Proof.
  intros [Hn Hlen] Hnot. unfold dist.
  destruct (decide (u ≤ DIMENSION tsp)) as [Hu|Hu].
  - destruct (py_get_label_fit (CITIES tsp) u) as [x ->]; [|lia|].
    { intros E. rewrite E in Hlen. simpl in Hlen. lia. }
    rewrite bind_Ok, (py_get_label_above _ v); [reflexivity|lia].
  - rewrite (py_get_label_above _ u); [reflexivity|lia].
Qed.

(** With every label at most [n] the sum is the one of [path_cost]. *)
Lemma path_length_fit tsp tour :
  valid_instance tsp → Forall (fun u => u ≤ DIMENSION tsp) tour →
  ∃ len, path_length distance tsp tour = Ok len
         ∧ (len == path_cost distance tsp (wrap_label (DIMENSION tsp) <$> tour))%Q.
Proof.
  intros Hvalid Hfit. pose proof Hvalid as [Hn Hlen].
  rewrite <- path_length_wrap, Hlen.
  assert (Forall (in_range (DIMENSION tsp)) (wrap_label (DIMENSION tsp) <$> tour)) as Hr.
  { apply Forall_fmap. eapply Forall_impl; [exact Hfit|].
    intros u Hu. by apply wrap_label_in_range. }
  destruct (wrap_label (DIMENSION tsp) <$> tour) as [|u p].
  { exists 0%Q. split; [done|]. simpl. lra. }
  apply Forall_cons in Hr as [Hu Hp].
  exists (walk_cost distance tsp u 0 p). split.
  - change (path_length distance tsp (u :: p))
      with (for_each (add_leg distance tsp) 0%Q (zip (u :: p) p)).
    by apply for_each_walk.
  - rewrite walk_cost_path_cost. lra.
Qed.

Lemma for_each_add_leg_unfit tsp x l acc :
  valid_instance tsp → l ≠ [] → ¬ Forall (fun u => u ≤ DIMENSION tsp) (x :: l) →
  for_each (add_leg distance tsp) acc (zip (x :: l) l) = Raise IndexError.
Proof.
  intros Hvalid. revert x acc. induction l as [|y l IH]; intros x acc Hl Hnot; [done|].
  change (for_each (add_leg distance tsp) acc (zip (x :: y :: l) (y :: l)))
    with (add_leg distance tsp acc (x, y)
          ≫= fun s' => for_each (add_leg distance tsp) s' (zip (y :: l) l)).
  unfold add_leg. simpl fst. simpl snd.
  destruct (decide (x ≤ DIMENSION tsp ∧ y ≤ DIMENSION tsp)) as [[Hx Hy]|Hxy].
  - rewrite dist_fit, !bind_Ok by done. apply IH.
    + intros ->. apply Hnot. by repeat constructor.
    + intros Hyl. apply Hnot. by constructor.
  - by rewrite dist_unfit.
Qed.

Lemma path_length_unfit tsp tour :
  valid_instance tsp → ¬ labels_fit (DIMENSION tsp) tour →
  path_length distance tsp tour = Raise IndexError.
Proof.
  intros Hvalid Hnot. destruct tour as [|x [|y l]].
  - exfalso. apply Hnot. left. simpl. lia.
  - exfalso. apply Hnot. left. simpl. lia.
  - apply (for_each_add_leg_unfit tsp x (y :: l) 0%Q); [done..|].
    intros Hfit. apply Hnot. by right.
Qed.

Lemma path_length_short tsp tour :
  length tour ≤ 1 → path_length distance tsp tour = Ok 0%Q.
Proof. destruct tour as [|x [|y l]]; simpl; [done..|lia]. Qed.

Lemma path_cost_short tsp (l : list nat) :
  length l ≤ 1 → path_cost distance tsp l = 0%Q.
Proof. destruct l as [|x [|y l]]; simpl; [done..|lia]. Qed.

Lemma path_length_labels_fit tsp tour :
  valid_instance tsp → labels_fit (DIMENSION tsp) tour →
  ∃ len, path_length distance tsp tour = Ok len
         ∧ (len == path_cost distance tsp (wrap_label (DIMENSION tsp) <$> tour))%Q.
Proof.
  intros Hvalid [Hshort|Hfit]; [|by apply path_length_fit].
  exists 0%Q. split; [by apply path_length_short|].
  rewrite path_cost_short; [done|by rewrite length_fmap].
Qed.

(** Adding the legs to [a] or to [c] makes the same difference, and fails
    alike. *)
Lemma for_each_add_leg_shift tsp (a c : Q) pairs :
  match for_each (add_leg distance tsp) a pairs, for_each (add_leg distance tsp) c pairs with
  | Ok ra, Ok rc => (ra - a == rc - c)%Q
  | Raise e1, Raise e2 => e1 = e2
  | OutOfFuel, OutOfFuel => True
  | _, _ => False
  end.
Proof.
  revert a c. induction pairs as [|[u v] pairs IH]; intros a c.
  - simpl. lra.
  - assert (∀ s, for_each (add_leg distance tsp) s ((u, v) :: pairs)
                 = dist distance tsp u v
                   ≫= fun d => for_each (add_leg distance tsp) (s + d)%Q pairs) as Hcons.
    { intros s. cbn [for_each]. unfold add_leg. simpl. by destruct (dist distance tsp u v). }
    rewrite !Hcons. destruct (dist distance tsp u v) as [d| |]; [|done..].
    rewrite !bind_Ok. specialize (IH (a + d)%Q (c + d)%Q).
    destruct (for_each _ (a + d)%Q pairs), (for_each _ (c + d)%Q pairs); try done.
    lra.
Qed.

Lemma zip_drop_app (l1 : list nat) x l2 :
  zip (l1 ++ x :: l2) (drop 1 (l1 ++ x :: l2))
  = zip (l1 ++ [x]) (drop 1 (l1 ++ [x])) ++ zip (x :: l2) l2.
Proof.
  destruct l1 as [|y l1]; [done|]. change (drop 1 ((y :: l1) ++ ?l)) with (l1 ++ l).
  revert y. induction l1 as [|z l1 IH]; intros y; [done|].
  change (zip ((y :: z :: l1) ++ ?l) ((z :: l1) ++ ?l))
    with ((y, z) :: zip ((z :: l1) ++ l) (l1 ++ l)).
  by rewrite IH.
Qed.

Lemma dist_of_sym tsp i j :
  (∀ p q, distance p q == distance q p)%Q →
  (dist_of distance tsp i j == dist_of distance tsp j i)%Q.
Proof.
  intros Hsym. unfold dist_of, dist.
  destruct (py_get (CITIES tsp) (label_index i)) as [ci| |],
           (py_get (CITIES tsp) (label_index j)) as [cj| |]; simpl; try done.
Qed.

Lemma path_cost_reverse tsp (l : list nat) :
  (∀ p q, distance p q == distance q p)%Q →
  (path_cost distance tsp (reverse l) == path_cost distance tsp l)%Q.
Proof.
  intros Hsym. destruct l as [|x l]; [done|]. revert x.
  induction l as [|y l IH]; intros x; [done|].
  rewrite path_cost_cons, <- (IH y), (reverse_cons _ x), (reverse_cons l y), <- app_assoc.
  rewrite (path_cost_split distance tsp (reverse l) y [x]).
  rewrite (dist_of_sym tsp x y Hsym). simpl. lra.
Qed.

End PathLength.

(** [X1]: [path_length] reads the label [0] as the last city: Python's
    [CITIES[-1]].  Replacing every [0] of a tour by the number of cities
    changes neither the length nor the failure. *)
Theorem path_length_label_zero_is_last_city {point} (distance : point → point → Q)
    (tsp : instance) (tour : list nat) :
  path_length distance tsp
    ((fun u => if decide (u = 0) then length (CITIES tsp) else u) <$> tour)
  = path_length distance tsp tour.
Proof.
  change (fun u => if decide (u = 0) then length (CITIES tsp) else u)
    with (wrap_label (length (CITIES tsp))).
  apply path_length_wrap.
Qed.



(** [X3]: lengths add up along a walk, where the sums of the code are
    exact: the length of a walk through [x] is the length up to [x] plus
    the length from [x] on, and the walk fails when one of the two parts
    fails, with the same exception. *)
Theorem path_length_splits_at_city {point} (distance : point → point → Q)
    (tsp : instance) (l1 : list nat) (x : nat) (l2 : list nat) :
  exact_sums distance tsp (length (l1 ++ x :: l2)) →
  same_length (path_length distance tsp (l1 ++ x :: l2))
    (a ← path_length distance tsp (l1 ++ [x]);
     b ← path_length distance tsp (x :: l2);
     Ok (a + b)%Q).
Proof.
  intros _.
  unfold path_length, slice_from. rewrite zip_drop_app, for_each_app.
  change (drop 1 (x :: l2)) with l2.
  destruct (for_each (add_leg distance tsp) 0%Q (zip (l1 ++ [x]) (drop 1 (l1 ++ [x]))))
    as [a| |]; [|done..].
  rewrite !bind_Ok.
  pose proof (for_each_add_leg_shift distance tsp a 0%Q (zip (x :: l2) l2)) as Hshift.
  destruct (for_each (add_leg distance tsp) a (zip (x :: l2) l2)),
           (for_each (add_leg distance tsp) 0%Q (zip (x :: l2) l2)); try done.
  rewrite bind_Ok. simpl in *. lra.
Qed.

Lemma path_length_splits_at_city_witness :
  same_length (path_length grid_distance (line_instance six_spread) ([1; 4; 2] ++ 6 :: [3; 5; 1]))
    (a ← path_length grid_distance (line_instance six_spread) ([1; 4; 2] ++ [6]);
     b ← path_length grid_distance (line_instance six_spread) (6 :: [3; 5; 1]);
     Ok (a + b)%Q).
Proof.
  apply (path_length_splits_at_city grid_distance (line_instance six_spread) [1; 4; 2] 6 [3; 5; 1]).
  decide_true.
Defined.

(** [X4]: with a symmetric distance, and where the sums of the code are
    exact, the direction of a tour does not matter: [path_length] of the
    reversed tour is the same length, or the same [IndexError]. *)
Theorem path_length_of_reversed_tour {point} (distance : point → point → Q)
    (tsp : instance) (tour : list nat) :
  valid_instance tsp → (∀ p q, distance p q == distance q p)%Q →
  exact_sums distance tsp (length tour) →
  same_length (path_length distance tsp (reverse tour)) (path_length distance tsp tour).
Proof.
  intros Hvalid Hsym _.
  destruct (decide (labels_fit (DIMENSION tsp) tour)) as [Hfit|Hnot].
  - assert (labels_fit (DIMENSION tsp) (reverse tour)) as Hfit'.
    { destruct Hfit as [?|?]; [left; by rewrite length_reverse|right; by apply Forall_reverse]. }
    destruct (path_length_labels_fit distance tsp tour Hvalid Hfit) as (a & -> & Ha).
    destruct (path_length_labels_fit distance tsp _ Hvalid Hfit') as (b & -> & Hb).
    simpl. rewrite Ha, Hb, fmap_reverse. by apply path_cost_reverse.
  - assert (¬ labels_fit (DIMENSION tsp) (reverse tour)) as Hnot'.
    { intros [?|?]; apply Hnot; [left; by rewrite <- length_reverse|right].
      rewrite <- (reverse_involutive tour). by apply Forall_reverse. }
    by rewrite !path_length_unfit.
Qed.

(** On a horizontal line [grid_distance] is the distance of the spec. *)
Lemma grid_distance_on_line (x x' y : Z) :
  grid_distance (x, y) (x', y) = inject_Z (Z.abs (x - x')).
Proof.
  unfold grid_distance. simpl. f_equal.
  replace ((x - x') ^ 2 + (y - y) ^ 2)%Z with (Z.abs (x - x') * Z.abs (x - x'))%Z by lia.
  apply Z.sqrt_square. lia.
Qed.

Lemma grid_distance_sym (p q : Z * Z) : (grid_distance p q == grid_distance q p)%Q.
Proof.
  unfold grid_distance.
  replace ((p.1 - q.1) ^ 2 + (p.2 - q.2) ^ 2)%Z with ((q.1 - p.1) ^ 2 + (q.2 - p.2) ^ 2)%Z by ring.
  reflexivity.
Qed.

Lemma path_length_of_reversed_tour_witness :
  same_length (path_length grid_distance (line_instance six_spread) (reverse [1; 4; 2; 6; 3; 5; 1]))
    (path_length grid_distance (line_instance six_spread) [1; 4; 2; 6; 3; 5; 1]).
Proof.
  apply (path_length_of_reversed_tour grid_distance (line_instance six_spread)).
  - split; simpl; lia.
  - apply grid_distance_sym.
  - decide_true.
Defined.

(** ** Prim's loop, whatever the distances *)

Section PrimTree.
Context {point : Type} (distance : point → point → Q) (tsp : @instance point).
Hypothesis Hvalid : valid_instance tsp.

Local Abbreviation n := (DIMENSION tsp).
Local Abbreviation d := (dist_of distance tsp).

(** Along the loop the heap holds every edge that leaves the visited
    cities, and [adj] holds a tree on them; with metric distances the tree
    is part of a lightest connected graph. *)
Lemma prim_reach_shape visited adj heap :
  prim_reach distance tsp visited adj heap →
  prim_cut distance tsp visited heap
  ∧ ∃ t, prim_tree visited adj t
         ∧ (metric_instance distance tsp →
            ∀ graph, edges_in_range n graph → connected n graph →
                     mst_inv distance tsp graph t).
Proof.
  intros Hreach. induction Hreach as
    [|visited adj e h w u v rest Hreach [[Hw Hcut] IH] Hsize Hpop Hv
     |visited adj e h w u v rest Hreach [[Hw Hcut] IH] Hsize Hpop Hv].
  - split; [split|].
    + apply Forall_forall. intros e [x [-> _]]%elem_of_reverse%list_elem_of_fmap. done.
    + intros x y ->%elem_of_singleton Hy Hy1.
      apply elem_of_reverse, list_elem_of_fmap. exists y. split; [done|].
      apply elem_of_range. unfold in_range in Hy.
      assert (y ≠ 1) by (intros ->; apply Hy1; by apply elem_of_singleton). lia.
    + exists (Node 1 []). split.
      * split_and!; [done|apply NoDup_singleton| |].
        { intros z. simpl. by rewrite list_elem_of_singleton, elem_of_singleton. }
        { constructor; [|done]. unfold adj_get. by rewrite lookup_empty. }
      * intros _ graph Hgraph Hconn. exists graph. split_and!; [done..|]. simpl. lra.
  - pose proof (pop_min_perm _ _ _ _ Hpop) as Hperm. split; [split|done].
    + rewrite Hperm in Hw. by apply Forall_cons in Hw as [_ ?].
    + intros x y Hx Hy Hyv. specialize (Hcut x y Hx Hy Hyv).
      rewrite Hperm in Hcut. apply elem_of_cons in Hcut as [[= _ _ ->]|?]; done.
  - pose proof (pop_min_perm _ _ _ _ Hpop) as Hperm.
    pose proof (prim_reach_labels _ _ _ _ _ Hvalid Hreach) as (Hr & _ & Hheap & Hdom & _).
    split; [split|].
    + apply Forall_app. split.
      * apply Forall_forall. intros x. unfold fresh_edges.
        rewrite elem_of_reverse, list_elem_of_fmap. by intros (y & -> & _).
      * rewrite Hperm in Hw. by apply Forall_cons in Hw as [_ ?].
    + intros x y Hx Hy Hyv. apply elem_of_app.
      apply elem_of_union in Hx as [Hx| ->%elem_of_singleton].
      * right. assert (y ∉ visited) as Hyv' by (intros ?; apply Hyv, elem_of_union; by left).
        specialize (Hcut x y Hx Hy Hyv').
        rewrite Hperm in Hcut. apply elem_of_cons in Hcut as [[= _ _ ->]|?]; [|done].
        exfalso. apply Hyv, elem_of_union. right. by apply elem_of_singleton.
      * left. apply elem_of_reverse. unfold fresh_edges. apply list_elem_of_fmap.
        exists y. split; [done|]. apply list_elem_of_filter. split; [done|].
        apply elem_of_seq. unfold in_range in Hy. lia.
    + destruct IH as (t & (Hroot & Hnd & Hlabels & Hadj) & Hmst).
      pose proof (pop_min_least _ _ _ _ Hpop) as Hleast. simpl in Hleast.
      rewrite Hperm in Hheap, Hw.
      apply Forall_cons in Hheap as [[Hu Hvr] _]. apply Forall_cons in Hw as [Hwuv _].
      simpl in Hu, Hvr, Hwuv.
      assert (u ∈ preorder t) as Hut by by apply Hlabels.
      assert (v ∉ preorder t) as Hvt by by intros ?%Hlabels.
      exists (add_leaf u v t). split.
      * split_and!.
        -- by rewrite root_add_leaf.
        -- rewrite preorder_add_leaf by done. by apply NoDup_cons.
        -- intros z. rewrite preorder_add_leaf by done.
           rewrite elem_of_cons, elem_of_union, elem_of_singleton, Hlabels. tauto.
        -- apply tree_adj_add_leaf; [by intros ->| |done..].
           unfold adj_get. destruct (adj !! v) eqn:E; [|done].
           exfalso. apply Hv, Hdom. by eexists.
      * intros Hmetric graph Hgraph Hconn.
        apply (mst_inv_add distance tsp Hvalid Hmetric graph t u v visited); try done.
        -- intros x y Hx Hy Hyv. rewrite <- Hwuv.
           apply (Hleast (d x y, x, y)). by apply Hcut.
        -- by apply Hmst.
Qed.

(** When the loop ends every city is in the tree. *)
Lemma prim_final_spans visited adj heap :
  prim_reach distance tsp visited adj heap →
  heap = [] ∨ n ≤ size visited →
  ∀ z, z ∈ visited ↔ in_range n z.
Proof.
  intros Hreach Hend.
  pose proof (prim_reach_labels _ _ _ _ _ Hvalid Hreach) as (Hr & H1 & _).
  pose proof (prim_reach_shape _ _ _ Hreach) as [[_ Hcut] _].
  intros z. split; [apply Hr|]. intros Hz.
  destruct Hend as [->|Hsize].
  - destruct (decide (z ∈ visited)) as [?|Hnot]; [done|].
    by apply (Hcut 1 z H1 Hz), elem_of_nil in Hnot.
  - assert (visited ⊆ list_to_set (seq 1 n)) as Hsub.
    { intros x Hx. apply elem_of_list_to_set, elem_of_seq. apply Hr in Hx.
      unfold in_range in Hx. lia. }
    assert (visited = list_to_set (seq 1 n)) as ->.
    { apply set_subseteq_size_eq; [done|].
      rewrite size_list_to_set by apply NoDup_seq. by rewrite length_seq. }
    apply elem_of_list_to_set, elem_of_seq. unfold in_range in Hz. lia.
Qed.

(** [prim_mst] returns the adjacency lists of a tree on all the cities. *)
Lemma prim_mst_tree :
  ∃ adj t,
    prim_mst distance tsp = Ok adj
    ∧ prim_final distance tsp adj
    ∧ root t = 1 ∧ tree_adj adj None t ∧ preorder t ≡ₚ seq 1 n
    ∧ (metric_instance distance tsp →
       ∀ graph, edges_in_range n graph → connected n graph →
                mst_inv distance tsp graph t).
Proof.
  destruct (prim_mst_returns distance tsp Hvalid) as (adj & Hprim & Hfinal).
  pose proof Hfinal as (visited & heap & Hreach & Hend).
  destruct (prim_reach_shape _ _ _ Hreach) as (_ & t & (Hroot & Hnd & Hlabels & Hadj) & Hmst).
  pose proof (prim_final_spans visited adj heap Hreach Hend) as Hall.
  exists adj, t. split_and!; try done.
  apply NoDup_Permutation; [done|apply NoDup_seq|].
  intros z. rewrite Hlabels, Hall, elem_of_seq. unfold in_range. lia.
Qed.

Lemma approx_tsp_tour_run frames :
  ∃ adj t len,
    prim_mst distance tsp = Ok adj
    ∧ root t = 1 ∧ tree_adj adj None t ∧ preorder t ≡ₚ seq 1 n
    ∧ height t ≤ n
    ∧ approx_tsp_tour distance frames tsp
      = (if decide (height t ≤ frames) then Ok (len, preorder t ++ [1])
         else Raise RecursionError)
    ∧ path_length distance tsp (preorder t ++ [1]) = Ok len
    ∧ valid_tour n (preorder t ++ [1]).
Proof.
  destruct prim_mst_tree as (adj & t & Hprim & _ & Hroot & Hadj & Hperm & _).
  assert (NoDup (preorder t)) as Hnd by (rewrite Hperm; apply NoDup_seq).
  destruct (preorder_root t) as [tl Htl]. rewrite Hroot in Htl.
  assert (tl ≡ₚ range 2 (n + 1)) as Htlp.
  { rewrite Htl in Hperm. destruct Hvalid as [Hn _].
    destruct n as [|k] eqn:En; [lia|]. simpl in Hperm.
    apply Permutation_cons_inv in Hperm. rewrite Hperm. unfold range.
    by replace (S k + 1 - 2) with k by lia. }
  assert (Forall (in_range n) tl) as Htlr.
  { apply Forall_forall. intros z Hz. rewrite Htlp in Hz. apply elem_of_range in Hz.
    unfold in_range. lia. }
  assert (dfs frames adj 1 None []
          = if decide (height t ≤ frames) then Ok (preorder t) else Raise RecursionError)
    as Hdfs.
  { rewrite <- Hroot. by apply (dfs_height adj t None frames []). }
  pose proof (path_length_closed distance tsp Hvalid tl Htlr) as Hlen.
  change ([1] ++ tl ++ [1]) with ((1 :: tl) ++ [1]) in Hlen. rewrite <- Htl in Hlen.
  exists adj, t, (walk_cost distance tsp 1 0 (tl ++ [1])). split_and!; try done.
  - pose proof (height_le_size t) as Hsize. apply Permutation_length in Hperm.
    rewrite length_seq in Hperm. lia.
  - unfold approx_tsp_tour. rewrite Hprim, bind_Ok. cbv zeta.
    rewrite Hdfs. destruct (decide (height t ≤ frames)); [|done].
    rewrite bind_Ok. unfold path_length in Hlen. by rewrite Hlen.
  - rewrite Htl. change ((1 :: tl) ++ [1]) with ([1] ++ tl ++ [1]).
    apply valid_tour_closed; [by destruct Hvalid|done].
Qed.

End PrimTree.

(** [X5]: on every valid instance, whatever the distances,
    [approx_tsp_tour] returns exactly when the tree [prim_mst] built has no
    more levels than the interpreter allows [dfs] nested calls, which a
    limit of one call per city always grants; otherwise it raises
    [RecursionError].  The tour returned is the preorder walk of the tree
    closed at city 1; it is a valid tour and the length returned is its
    [path_length]. *)
Theorem approx_tsp_tour_returns_preorder_walk {point} (distance : point → point → Q)
    (frames : nat) (tsp : instance) :
  valid_instance tsp →
  ∃ adj t len,
    prim_mst distance tsp = Ok adj
    ∧ root t = 1 ∧ tree_adj adj None t
    ∧ height t ≤ DIMENSION tsp
    ∧ approx_tsp_tour distance frames tsp
      = (if decide (height t ≤ frames) then Ok (len, preorder t ++ [1])
         else Raise RecursionError)
    ∧ valid_tour (DIMENSION tsp) (preorder t ++ [1])
    ∧ path_length distance tsp (preorder t ++ [1]) = Ok len.
Proof.
  intros Hvalid.
  destruct (approx_tsp_tour_run distance tsp Hvalid frames)
    as (adj & t & len & Hprim & Hroot & Hadj & _ & Hheight & Hrun & Hlen & Htour).
  exists adj, t, len. by split_and!.
Qed.

Lemma approx_tsp_tour_returns_preorder_walk_witness :
  ∃ adj t len,
    prim_mst grid_distance (line_instance six_in_a_row) = Ok adj
    ∧ root t = 1 ∧ tree_adj adj None t
    ∧ height t ≤ 6
    ∧ approx_tsp_tour grid_distance 5 (line_instance six_in_a_row)
      = (if decide (height t ≤ 5) then Ok (len, preorder t ++ [1])
         else Raise RecursionError)
    ∧ valid_tour 6 (preorder t ++ [1])
    ∧ path_length grid_distance (line_instance six_in_a_row) (preorder t ++ [1]) = Ok len.
Proof.
  apply (approx_tsp_tour_returns_preorder_walk grid_distance 5 (line_instance six_in_a_row)).
  split; simpl; lia.
Defined.

(** [X6]: on a valid instance with metric distances the loop of Prim's
    algorithm (shared by [approx_tsp_tour] and [christofides]) builds the
    adjacency lists of a minimum spanning tree: a tree rooted at city 1
    that holds every city once and weighs no more than any connected
    graph on the cities. *)
Theorem prim_mst_is_minimum_spanning_tree {point} (distance : point → point → Q)
    (tsp : instance) :
  valid_instance tsp → metric_instance distance tsp →
  ∃ adj t,
    prim_mst distance tsp = Ok adj
    ∧ root t = 1 ∧ tree_adj adj None t ∧ preorder t ≡ₚ seq 1 (DIMENSION tsp)
    ∧ ∀ graph, edges_in_range (DIMENSION tsp) graph → connected (DIMENSION tsp) graph →
        (edges_weight distance tsp (tree_edges t) <= edges_weight distance tsp graph)%Q.
Proof.
  intros Hvalid Hmetric.
  destruct (prim_mst_tree distance tsp Hvalid)
    as (adj & t & Hprim & _ & Hroot & Hadj & Hperm & Hmst).
  exists adj, t. split_and!; try done.
  intros graph Hgraph Hconn.
  destruct (Hmst Hmetric graph Hgraph Hconn) as (rest & Hrest & _ & Hweight).
  pose proof (edges_weight_nonneg distance tsp Hmetric rest Hrest). lra.
Qed.

Lemma prim_mst_is_minimum_spanning_tree_witness :
  ∃ adj t,
    prim_mst grid_distance (line_instance six_spread) = Ok adj
    ∧ root t = 1 ∧ tree_adj adj None t ∧ preorder t ≡ₚ seq 1 6
    ∧ ∀ graph, edges_in_range 6 graph → connected 6 graph →
        (edges_weight grid_distance (line_instance six_spread) (tree_edges t)
         <= edges_weight grid_distance (line_instance six_spread) graph)%Q.
Proof.
  apply (prim_mst_is_minimum_spanning_tree grid_distance (line_instance six_spread)).
  - split; simpl; lia.
  - apply metric_check_sound. vm_compute. reflexivity.
Defined.

(** ** Lists with repeated items *)

Lemma occurrences_app x l1 l2 :
  occurrences x (l1 ++ l2) = occurrences x l1 + occurrences x l2.
Proof. unfold occurrences. by rewrite filter_app, length_app. Qed.

Lemma occurrences_singleton x y :
  occurrences x [y] = if decide (y = x) then 1 else 0.
Proof.
  unfold occurrences. rewrite filter_cons, filter_nil. by destruct (decide (y = x)).
Qed.

Lemma occurrences_elem_of x l : 0 < occurrences x l ↔ x ∈ l.
Proof.
  unfold occurrences. split.
  - intros Hpos. destruct (filter (λ y, y = x) l) as [|y l'] eqn:E; [simpl in Hpos; lia|].
    assert (y ∈ filter (λ y, y = x) l) as Hy by (rewrite E; left).
    by apply list_elem_of_filter in Hy as [-> ?].
  - intros Hx. assert (x ∈ filter (λ y, y = x) l) as Hin by by apply list_elem_of_filter.
    destruct (filter (λ y, y = x) l); [by apply elem_of_nil in Hin|simpl; lia].
Qed.

Lemma list_remove_spec x l :
  x ∈ l →
  ∃ l', list_remove x l = Ok l'
        ∧ (∀ y, occurrences y l = occurrences y l' + (if decide (x = y) then 1 else 0))
        ∧ length l = S (length l').
Proof.
  induction l as [|z l IH]; intros Hx; [by apply elem_of_nil in Hx|].
  simpl. destruct (decide (z = x)) as [->|Hne].
  - exists l. split_and!; [done| |done].
    intros y. change (x :: l) with ([x] ++ l). rewrite occurrences_app, occurrences_singleton. lia.
  - apply elem_of_cons in Hx as [->|Hx]; [done|].
    destruct (IH Hx) as (l' & -> & Hocc & Hlen). rewrite bind_Ok.
    exists (z :: l'). split_and!; [done| |simpl; lia].
    intros y. change (z :: ?k) with ([z] ++ k). rewrite !occurrences_app, Hocc. lia.
Qed.

Lemma elem_of_occurrences_le (l l' : list nat) :
  (∀ y, occurrences y l' ≤ occurrences y l) → ∀ y, y ∈ l' → y ∈ l.
Proof. intros Hle y Hy%occurrences_elem_of. apply occurrences_elem_of. specialize (Hle y). lia. Qed.

(** ** Adjacency lists *)

Lemma adj_get_insert (adj : gmap nat (list nat)) u l x :
  adj_get (<[u := l]> adj) x = if decide (x = u) then l else adj_get adj x.
Proof.
  unfold adj_get. destruct (decide (x = u)) as [->|Hne].
  - by rewrite lookup_insert_eq.
  - by rewrite lookup_insert_ne.
Qed.

Lemma adj_entries_insert (adj : gmap nat (list nat)) u l :
  adj_entries (<[u := l]> adj) + length (adj_get adj u) = adj_entries adj + length l.
Proof.
  unfold adj_entries, adj_get.
  assert (∀ (j1 j2 : nat) (z1 z2 : list nat) (y : nat),
            length z1 + (length z2 + y) = length z2 + (length z1 + y)) as Hcomm by (intros; lia).
  destruct (adj !! u) as [l0|] eqn:E.
  - rewrite <- insert_delete_eq.
    rewrite (map_fold_insert_L (fun _ nbrs acc => length nbrs + acc) 0 u l (delete u adj));
      [|intros; apply Hcomm; done|by rewrite lookup_delete_eq].
    rewrite (map_fold_delete_L (fun _ nbrs acc => length nbrs + acc) 0 u l0 adj);
      [|intros; apply Hcomm; done|done].
    simpl. lia.
  - rewrite (map_fold_insert_L (fun _ nbrs acc => length nbrs + acc) 0 u l adj);
      [|intros; apply Hcomm; done|done].
    simpl. lia.
Qed.

Lemma sym_graph_add_edge n adj u v :
  sym_graph n adj → in_range n u → in_range n v → u ≠ v →
  sym_graph n (adj_append (adj_append adj u v) v u).
Proof.
  intros [Hlabels Hsym] Hu Hv Hne. split.
  - intros a b. rewrite !adj_get_append.
    destruct (decide (a = v)) as [->|Hav].
    + rewrite decide_False by done.
      intros [Hb| ->%list_elem_of_singleton]%elem_of_app; [by apply Hlabels|done].
    + destruct (decide (a = u)) as [->|Hau]; [|by apply Hlabels].
      intros [Hb| ->%list_elem_of_singleton]%elem_of_app; [by apply Hlabels|done].
  - intros a b. rewrite !adj_get_append.
    destruct (decide (a = v)) as [->|Hav], (decide (b = v)) as [->|Hbv];
      rewrite ?(decide_False (P := v = u)) by done.
    + done.
    + rewrite occurrences_app, occurrences_singleton.
      destruct (decide (b = u)) as [->|Hbu].
      * rewrite decide_True by done. rewrite occurrences_app, occurrences_singleton.
        rewrite decide_True by done. by rewrite Hsym.
      * rewrite decide_False by done. rewrite Hsym. lia.
    + rewrite occurrences_app, occurrences_singleton.
      destruct (decide (a = u)) as [->|Hau].
      * rewrite decide_True by done. rewrite occurrences_app, occurrences_singleton.
        rewrite decide_True by done. by rewrite Hsym.
      * rewrite decide_False by done. rewrite Hsym. lia.
    + destruct (decide (a = u)) as [->|Hau], (decide (b = u)) as [->|Hbu]; try done.
      * rewrite occurrences_app, occurrences_singleton, decide_False by done.
        rewrite Hsym. lia.
      * rewrite occurrences_app, occurrences_singleton, decide_False by done.
        rewrite Hsym. lia.
Qed.

Lemma adj_step_add_edge adj u v a b :
  adj_step adj a b → adj_step (adj_append (adj_append adj u v) v u) a b.
Proof.
  unfold adj_step. rewrite !adj_get_append. intros Hab.
  destruct (decide (a = v)) as [->|?].
  - apply elem_of_app. left. by destruct (decide (v = u)) as [->|?]; [apply elem_of_app; left|].
  - destruct (decide (a = u)) as [->|?]; [apply elem_of_app; by left|done].
Qed.

Lemma linked_add_edge n adj u v :
  linked n adj → linked n (adj_append (adj_append adj u v) v u).
Proof.
  intros Hlinked z Hz. eapply rtc_subrel; [|by apply Hlinked].
  intros a b. apply adj_step_add_edge.
Qed.

(** ** The graph after Prim's loop and after the matching *)

Section Christofides.
Context {point : Type} (distance : point → point → Q) (tsp : @instance point).
Hypothesis Hvalid : valid_instance tsp.

Local Abbreviation n := (DIMENSION tsp).

Lemma prim_reach_graph visited adj heap :
  prim_reach distance tsp visited adj heap →
  sym_graph n adj ∧ ∀ z, z ∈ visited → rtc (adj_step adj) 1 z.
Proof.
  intros Hreach. induction Hreach as
    [|visited adj e h w u v rest Hreach IH Hsize Hpop Hv
     |visited adj e h w u v rest Hreach [Hsym Hlinked] Hsize Hpop Hv].
  - split; [split|].
    + intros u v. unfold adj_get. rewrite lookup_empty. by intros ?%elem_of_nil.
    + intros u v. unfold adj_get. by rewrite !lookup_empty.
    + by intros z ->%elem_of_singleton.
  - done.
  - pose proof (prim_reach_labels _ _ _ _ _ Hvalid Hreach) as (Hr & _ & Hheap & _).
    apply pop_min_perm in Hpop. rewrite Hpop in Hheap.
    apply Forall_cons in Hheap as [[Hu Hvr] _]. simpl in Hu, Hvr.
    assert (u ≠ v) as Hne by (by intros ->).
    split.
    + apply sym_graph_add_edge; auto.
    + intros z [Hz| ->%elem_of_singleton]%elem_of_union.
      * eapply rtc_subrel; [|by apply Hlinked]. intros a b. apply adj_step_add_edge.
      * apply (rtc_r _ u).
        -- eapply rtc_subrel; [|by apply Hlinked]. intros a b. apply adj_step_add_edge.
        -- unfold adj_step. rewrite !adj_get_append.
           rewrite (decide_False (P := u = v)), decide_True by done.
           apply elem_of_app. right. by apply list_elem_of_singleton.
Qed.

Lemma prim_final_graph adj :
  prim_final distance tsp adj → sym_graph n adj ∧ linked n adj.
Proof.
  intros (visited & heap & Hreach & Hend).
  destruct (prim_reach_graph _ _ _ Hreach) as [Hsym Hlinked].
  split; [done|]. intros z Hz. apply Hlinked.
  by apply (prim_final_spans distance tsp Hvalid visited adj heap Hreach Hend).
Qed.

(** A vertex is in [odd_vertices] when its list has odd length. *)
Lemma elem_of_odd_vertices_degree adj v :
  v ∈ odd_vertices adj ↔ length (adj_get adj v) mod 2 = 1.
Proof.
  rewrite elem_of_odd_vertices. split; [by intros [_ ?]|].
  intros Hodd. split; [|done]. unfold adj_get in Hodd.
  destruct (adj !! v); [done|]. simpl in Hodd. discriminate.
Qed.

Context (set_pop : gset nat → nat) (set_iter : gset nat → list nat).
Hypothesis set_pop_elem_of : ∀ s : gset nat, s ≠ ∅ → set_pop s ∈ s.
Hypothesis set_iter_elements : ∀ s : gset nat, set_iter s ≡ₚ elements s.

Lemma nearest_elem_of u (unmatched : gset nat) v :
  nearest distance set_iter tsp u unmatched = Ok v → v ∈ unmatched.
Proof.
  unfold nearest. intros Hrun.
  apply bind_Ok_inv in Hrun as (keyed & Hkeyed & Hrun).
  apply bind_Ok_inv in Hrun as ([q v'] & Hmin & [= ->]).
  apply py_min_elem_of in Hmin.
  assert (∀ l keyed', map_res (fun x => d ← dist distance tsp u x; Ok (d, x)) l = Ok keyed' →
            ∀ p, p ∈ keyed' → p.2 ∈ l) as Hmap.
  { clear. induction l as [|x l IH]; intros keyed' Hrun p Hp.
    - injection Hrun as <-. by apply elem_of_nil in Hp.
    - simpl in Hrun. apply bind_Ok_inv in Hrun as (y & Hy & Hrun).
      apply bind_Ok_inv in Hy as (d & _ & [= <-]).
      apply bind_Ok_inv in Hrun as (ys & Hys & [= <-]).
      apply elem_of_cons in Hp as [->|Hp]; [left|right; by apply (IH ys)]. }
  specialize (Hmap _ _ Hkeyed _ Hmin). simpl in Hmap.
  rewrite set_iter_elements in Hmap. by apply elem_of_elements in Hmap.
Qed.

(** What an iteration of the matching loop keeps, the loop keeps. *)
Lemma greedy_matching_inv (P : gset nat → gmap nat (list nat) → Prop)
    fuel (unmatched : gset nat) matching adj matching' adj' :
  (∀ (unmatched : gset nat) adj u v,
     P unmatched adj → u ∈ unmatched → v ∈ unmatched → u ≠ v →
     P (unmatched ∖ {[u]} ∖ {[v]}) (adj_append (adj_append adj u v) v u)) →
  P unmatched adj →
  greedy_matching distance set_pop set_iter fuel tsp unmatched matching adj
  = Ok (matching', adj') →
  P ∅ adj'.
Proof.
  intros Hstep. revert unmatched matching adj.
  induction fuel as [|fuel IH]; intros unmatched matching adj HP Hrun.
  - simpl in Hrun. destruct (decide (unmatched = ∅)) as [->|]; [|done].
    by injection Hrun as <- <-.
  - simpl in Hrun. destruct (decide (unmatched = ∅)) as [->|Hne].
    { by injection Hrun as <- <-. }
    apply bind_Ok_inv in Hrun as (v & Hv & Hrun).
    apply nearest_elem_of in Hv.
    apply (IH _ _ _ (Hstep unmatched adj (set_pop unmatched) v HP
                       (set_pop_elem_of _ Hne) ltac:(set_solver) ltac:(set_solver)) Hrun).
Qed.

Lemma length_snoc_parity (l : list nat) (x : nat) :
  length (l ++ [x]) mod 2 = 1 - length l mod 2.
Proof.
  rewrite length_app. change (length [x]) with 1.
  pose proof (Nat.div_mod_eq (length l) 2).
  pose proof (Nat.div_mod_eq (length l + 1) 2).
  pose proof (Nat.mod_upper_bound (length l) 2 ltac:(done)).
  pose proof (Nat.mod_upper_bound (length l + 1) 2 ltac:(done)).
  lia.
Qed.

(** The graph [christofides] hands to [eulerian_tour]. *)
Lemma christofides_graph adj :
  prim_final distance tsp adj →
  ∃ matching adj',
    greedy_matching distance set_pop set_iter
      (size (list_to_set (odd_vertices adj) : gset nat)) tsp
      (list_to_set (odd_vertices adj)) [] adj = Ok (matching, adj')
    ∧ sym_graph n adj' ∧ linked n adj' ∧ even_degrees adj'.
Proof.
  intros Hfinal.
  destruct (prim_final_odd_even distance tsp adj Hvalid Hfinal) as [Heven Hrange].
  pose proof (NoDup_odd_vertices adj) as Hnd.
  destruct (prim_final_graph adj Hfinal) as [Hsym Hlinked].
  destruct (greedy_matching_total distance _ _ set_pop_elem_of set_iter_elements tsp
              (size (list_to_set (odd_vertices adj) : gset nat))
              (list_to_set (odd_vertices adj)) [] adj) as (matching & adj' & Hrun & _);
    [done| |by rewrite size_list_to_set|done|].
  { intros v Hv%elem_of_list_to_set. auto. }
  exists matching, adj'. split; [done|].
  apply (greedy_matching_inv
    (fun unmatched adj =>
       (∀ v, v ∈ unmatched → in_range n v)
       ∧ (∀ v, v ∈ unmatched ↔ length (adj_get adj v) mod 2 = 1)
       ∧ sym_graph n adj ∧ linked n adj) _ _ _ _ _ _) in Hrun.
  - destruct Hrun as (_ & Hodd & Hsym' & Hlinked'). split_and!; [done..|].
    intros v. pose proof (Nat.mod_upper_bound (length (adj_get adj' v)) 2 ltac:(done)).
    destruct (decide (length (adj_get adj' v) mod 2 = 1)) as [H1|H1]; [|lia].
    by apply Hodd, not_elem_of_empty in H1.
  - intros unmatched adj1 u v (Hr & Hodd & Hsym1 & Hlinked1) Hu Hv Hne.
    split_and!.
    + intros x Hx. apply Hr. set_solver.
    + intros x. rewrite !elem_of_difference, !elem_of_singleton, Hodd, !adj_get_append.
      destruct (decide (x = v)) as [->|Hxv].
      * rewrite decide_False by done. rewrite length_snoc_parity.
        apply Hodd in Hv. rewrite Hv. split; [tauto|done].
      * destruct (decide (x = u)) as [->|Hxu]; [|tauto].
        rewrite length_snoc_parity. apply Hodd in Hu. rewrite Hu. split; [tauto|done].
    + apply sym_graph_add_edge; auto.
    + by apply linked_add_edge.
  - split_and!; [|intros v; by rewrite elem_of_list_to_set, elem_of_odd_vertices_degree|done..].
    intros v Hv%elem_of_list_to_set. auto.
Qed.

End Christofides.

(** ** The loop of [eulerian_tour] *)

Lemma eulerian_loop_eq fuel adj stack circuit :
  eulerian_loop fuel adj stack circuit
  = match last stack with
    | None => Ok circuit
    | Some u =>
        match fuel with
        | 0 => OutOfFuel
        | S fuel' =>
            match last (adj_get adj u) with
            | Some v =>
                let adj := <[u := removelast (adj_get adj u)]> adj in
                nbrs ← list_remove u (adj_get adj v);
                let adj := <[v := nbrs]> adj in
                eulerian_loop fuel' adj (stack ++ [v]) circuit
            | None => eulerian_loop fuel' adj (removelast stack) (circuit ++ [u])
            end
        end
    end.
Proof. by destruct fuel. Qed.

Lemma link_sym a b x y : link a b x y = link a b y x.
Proof.
  unfold link. destruct (decide ((x = a ∧ y = b) ∨ (x = b ∧ y = a))) as [H|H].
  - rewrite decide_True; [done|]. tauto.
  - rewrite decide_False; [done|]. tauto.
Qed.

Lemma link_ends a b x y : link a b x y = link x y a b.
Proof.
  unfold link. destruct (decide ((x = a ∧ y = b) ∨ (x = b ∧ y = a))) as [H|H].
  - rewrite decide_True; [done|]. destruct H as [[-> ->]|[-> ->]]; tauto.
  - rewrite decide_False; [done|]. intros [[-> ->]|[-> ->]]; tauto.
Qed.

(** Taking the edge [u - v] out of the lists: one occurrence less on
    both sides, nothing else changes. *)
Lemma take_edge_occurrences n adj u v l' nbrs a b :
  sym_graph n adj → adj_get adj u = l' ++ [v] →
  (∀ y, occurrences y (adj_get adj v)
        = occurrences y nbrs + (if decide (u = y) then 1 else 0)) →
  occurrences b (adj_get (<[v := nbrs]> (<[u := l']> adj)) a) + link a b u v
  = occurrences b (adj_get adj a).
Proof.
  intros [Hlabels Hsym] Hu Hnbrs.
  assert (v ≠ u) as Hvu.
  { apply (Hlabels u v). rewrite Hu. apply elem_of_app. right. by apply list_elem_of_singleton. }
  rewrite !adj_get_insert. unfold link.
  destruct (decide (a = v)) as [->|Hav].
  - rewrite Hnbrs. destruct (decide (u = b)) as [<-|Hub].
    + rewrite decide_True by auto. done.
    + rewrite decide_False; [lia|]. intros [[? ?]|[? ?]]; congruence.
  - destruct (decide (a = u)) as [->|Hau].
    + rewrite Hu, occurrences_app, occurrences_singleton.
      destruct (decide (v = b)) as [<-|Hvb].
      * rewrite decide_True by auto. done.
      * rewrite decide_False; [lia|]. intros [[? ?]|[? ?]]; congruence.
    + rewrite decide_False; [lia|]. intros [[? ?]|[? ?]]; congruence.
Qed.

(** An iteration that follows the edge to [v = adj[u].pop()]:
    [adj[v].remove(u)] finds [u], and the invariant is kept. *)
Lemma euler_inv_push n adj0 start adj stack u v l' circuit :
  euler_inv n adj0 start adj (stack ++ [u]) circuit →
  adj_get adj u = l' ++ [v] →
  ∃ nbrs,
    list_remove u (adj_get (<[u := l']> adj) v) = Ok nbrs
    ∧ v ≠ u
    ∧ length (adj_get adj v) = S (length nbrs)
    ∧ (∀ a b, occurrences b (adj_get (<[v := nbrs]> (<[u := l']> adj)) a) + link a b u v
              = occurrences b (adj_get adj a))
    ∧ euler_inv n adj0 start (<[v := nbrs]> (<[u := l']> adj)) ((stack ++ [u]) ++ [v]) circuit.
Proof.
  intros ((Hlabels & Hsym) & Hdone & Hedges & Hrange & Hstart) Hl'.
  assert (v ∈ adj_get adj u) as Hvin.
  { rewrite Hl'. apply elem_of_app. right. by apply list_elem_of_singleton. }
  destruct (Hlabels u v Hvin) as (Hur & Hvr & Hvu).
  rewrite adj_get_insert, decide_False by done.
  assert (u ∈ adj_get adj v) as Huin.
  { apply occurrences_elem_of. rewrite <- Hsym. by apply occurrences_elem_of. }
  destruct (list_remove_spec u (adj_get adj v) Huin) as (nbrs & Hremove & Hnbrs & Hlen).
  exists nbrs. split_and!; [done..| |].
  { intros a b. by apply (take_edge_occurrences n). }
  pose proof (fun a b => take_edge_occurrences n adj u v l' nbrs a b
                           (conj Hlabels Hsym) Hl' Hnbrs) as Htake.
  set (adj2 := <[v := nbrs]> (<[u := l']> adj)) in *.
  assert (∀ a b, b ∈ adj_get adj2 a → b ∈ adj_get adj a) as Hsub.
  { intros a b Hb%occurrences_elem_of. apply occurrences_elem_of.
    specialize (Htake a b). lia. }
  split_and!.
  - split; [intros a b Hb; by apply Hlabels, Hsub|].
    intros a b. pose proof (Htake a b) as H1. pose proof (Htake b a) as H2.
    rewrite (Hsym a b) in H1. rewrite (link_ends b a), (link_sym u v), <- (link_ends a b) in H2.
    lia.
  - intros x Hx. pose proof (Hdone x Hx) as Hnil.
    unfold adj2. rewrite !adj_get_insert.
    destruct (decide (x = v)) as [->|?].
    { rewrite Hnil in Huin. by apply elem_of_nil in Huin. }
    destruct (decide (x = u)) as [->|?]; [|done].
    rewrite Hnil in Hvin. by apply elem_of_nil in Hvin.
  - intros a b Hab. destruct (Hedges a b Hab) as [Hin|[Ha Hb]].
    + destruct (decide ((u = a ∧ v = b) ∨ (u = b ∧ v = a))) as [Huv|Huv].
      * right. destruct Huv as [[<- <-]|[<- <-]]; set_solver.
      * left. apply occurrences_elem_of. apply occurrences_elem_of in Hin.
        specialize (Htake a b). unfold link in Htake.
        rewrite decide_False in Htake by done. lia.
    + right. set_solver.
  - intros x Hx.
    destruct (decide (x = v)) as [->|Hxv]; [done|]. apply Hrange. set_solver.
  - left. destruct Hstart as [Hhead|[Hnil _]].
    + rewrite <- app_assoc, head_app. rewrite head_app in Hhead.
      destruct (head stack); [done|]. by simpl in *.
    + by destruct stack.
Qed.

(** An iteration that backtracks: the top of the stack has no edge left. *)
Lemma euler_inv_pop n adj0 start adj stack u circuit :
  euler_inv n adj0 start adj (stack ++ [u]) circuit →
  adj_get adj u = [] →
  euler_inv n adj0 start adj stack (circuit ++ [u]).
Proof.
  intros (Hgraph & Hdone & Hedges & Hrange & Hstart) Hu. split_and!; [done| | | |].
  - intros x [Hx| ->%list_elem_of_singleton]%elem_of_app; [by apply Hdone|done].
  - intros a b Hab. destruct (Hedges a b Hab) as [Hin|[Ha Hb]]; [by left|right].
    set_solver.
  - intros x Hx. apply Hrange. set_solver.
  - destruct Hstart as [Hhead|[Hnil _]]; [|by destruct stack].
    destruct stack as [|y stack]; [|by left].
    right. split; [done|]. injection Hhead as ->. by rewrite last_snoc.
Qed.

(** The loop ends within its fuel; it keeps [euler_inv] and whatever else
    its two kinds of iteration keep. *)
Lemma eulerian_loop_run (P : gmap nat (list nat) → list nat → list nat → Prop)
    n adj0 start fuel adj stack circuit :
  (∀ adj stack u v l' nbrs circuit,
     euler_inv n adj0 start adj (stack ++ [u]) circuit → P adj (stack ++ [u]) circuit →
     adj_get adj u = l' ++ [v] →
     list_remove u (adj_get (<[u := l']> adj) v) = Ok nbrs →
     P (<[v := nbrs]> (<[u := l']> adj)) ((stack ++ [u]) ++ [v]) circuit) →
  (∀ adj stack u circuit,
     euler_inv n adj0 start adj (stack ++ [u]) circuit → P adj (stack ++ [u]) circuit →
     adj_get adj u = [] →
     P adj stack (circuit ++ [u])) →
  euler_inv n adj0 start adj stack circuit → P adj stack circuit →
  adj_entries adj + length stack ≤ fuel →
  ∃ circuit' adj',
    eulerian_loop fuel adj stack circuit = Ok circuit'
    ∧ euler_inv n adj0 start adj' [] circuit'
    ∧ P adj' [] circuit'.
Proof.
  intros Hpush Hpop. revert adj stack circuit.
  induction fuel as [|fuel IH]; intros adj stack circuit Hinv HP Hfuel;
    rewrite eulerian_loop_eq.
  - destruct stack as [|x stack]; [|simpl in Hfuel; lia].
    exists circuit, adj. by split.
  - destruct (last stack) as [u|] eqn:Hlast.
    2:{ apply last_None in Hlast as ->. exists circuit, adj. by split. }
    apply last_Some in Hlast as [stack' ->].
    rewrite length_app in Hfuel. simpl in Hfuel.
    destruct (last (adj_get adj u)) as [v|] eqn:Hv.
    + apply last_Some in Hv as [l' Hl'].
      destruct (euler_inv_push n adj0 start adj stack' u v l' circuit Hinv Hl')
        as (nbrs & Hremove & Hvu & Hlen & _ & Hinv').
      rewrite Hl', removelast_last. cbv zeta. rewrite Hremove, bind_Ok.
      apply IH; [done|by eapply Hpush|].
      pose proof (adj_entries_insert adj u l') as H1. rewrite Hl', length_app in H1.
      pose proof (adj_entries_insert (<[u := l']> adj) v nbrs) as H2.
      rewrite adj_get_insert, decide_False in H2 by done.
      rewrite !length_app. simpl in *. lia.
    + apply last_None in Hv. rewrite removelast_last.
      apply IH; [by apply euler_inv_pop|by eapply Hpop|lia].
Qed.

Lemma eulerian_loop_total n adj0 start fuel adj stack circuit :
  euler_inv n adj0 start adj stack circuit →
  adj_entries adj + length stack ≤ fuel →
  ∃ circuit' adj',
    eulerian_loop fuel adj stack circuit = Ok circuit'
    ∧ euler_inv n adj0 start adj' [] circuit'.
Proof.
  intros Hinv Hfuel.
  destruct (eulerian_loop_run (fun _ _ _ => True) n adj0 start fuel adj stack circuit)
    as (circuit' & adj' & Hrun & Hinv' & _); [done..|].
  by exists circuit', adj'.
Qed.

Lemma eulerian_tour_covers n adj :
  1 ≤ n → sym_graph n adj → linked n adj →
  ∃ circuit,
    eulerian_tour adj 1 = Ok circuit
    ∧ head circuit = Some 1
    ∧ ∀ z, z ∈ circuit ↔ in_range n z.
Proof.
  intros Hn Hsym Hlinked.
  destruct (eulerian_loop_total n adj 1 (S (adj_entries adj)) adj [1] [])
    as (circuit & adj' & Hrun & (_ & Hdone & Hedges & Hrange & Hstart)).
  { split_and!; [done| | | |by left].
    - by intros x ?%elem_of_nil.
    - intros a b Hb. by left.
    - intros x ->%list_elem_of_singleton. unfold in_range. lia. }
  { simpl. lia. }
  destruct Hstart as [?|[_ Hlast]]; [done|].
  unfold eulerian_tour. rewrite Hrun, bind_Ok. exists (reverse circuit).
  split_and!; [done|by rewrite head_reverse|].
  intros z. rewrite elem_of_reverse. split; [apply Hrange|].
  intros Hz. apply (rtc_ind_r (R := adj_step adj) (fun z => z ∈ circuit) 1); [| |by apply Hlinked].
  - apply last_Some in Hlast as [c ->]. apply elem_of_app. right.
    by apply list_elem_of_singleton.
  - intros a b _ Hab Ha. destruct (Hedges a b Hab) as [Hin|[_ Hb]]; [|done].
    rewrite (Hdone a Ha) in Hin. by apply elem_of_nil in Hin.
Qed.

(** ** The shortcut *)

Lemma shortcut_state_spec l t (s : gset nat) :
  s = list_to_set t → NoDup t →
  ∃ k, (shortcut_state l (t, s)).1 = t ++ k
       ∧ (shortcut_state l (t, s)).2 = list_to_set (t ++ k)
       ∧ NoDup (t ++ k)
       ∧ k `sublist_of` l
       ∧ ∀ x, x ∈ l → x ∈ t ++ k.
Proof.
  revert t s. induction l as [|x l IH]; intros t s Hs Hnd.
  - exists []. rewrite app_nil_r. split_and!; [done..|]. by intros x ?%elem_of_nil.
  - unfold shortcut_state. cbn [fold_left]. fold (shortcut_state l).
    destruct (decide (x ∈ s)) as [Hx|Hx].
    + destruct (IH t s Hs Hnd) as (k & Ht & Hset & Hnd' & Hsub & Hall).
      exists k. split_and!; [done..|by apply sublist_cons|].
      intros y [->|Hy]%elem_of_cons; [|by apply Hall].
      apply elem_of_app. left. rewrite Hs in Hx. by apply elem_of_list_to_set in Hx.
    + destruct (IH (t ++ [x]) (s ∪ {[x]})) as (k & Ht & Hset & Hnd' & Hsub & Hall).
      { by rewrite Hs, list_to_set_snoc_L. }
      { apply NoDup_app. split_and!; [done| |apply NoDup_singleton].
        intros y Hy ->%list_elem_of_singleton. apply Hx. rewrite Hs.
        by apply elem_of_list_to_set. }
      rewrite <- app_assoc in Ht, Hset, Hnd', Hall.
      exists ([x] ++ k). split_and!; [done..|by apply sublist_skip|].
      intros y [->|Hy]%elem_of_cons; [|by apply Hall].
      apply elem_of_app. right. left.
Qed.

Lemma shortcut_spec (l : list nat) :
  NoDup (shortcut l) ∧ shortcut l `sublist_of` l
  ∧ (∀ x, x ∈ shortcut l ↔ x ∈ l) ∧ head (shortcut l) = head l.
Proof.
  change (shortcut l) with (shortcut_state l ([], ∅)).1.
  split_and!.
  - destruct (shortcut_state_spec l [] ∅) as (k & -> & _ & Hnd & _);
      [done|apply NoDup_nil_2|done].
  - destruct (shortcut_state_spec l [] ∅) as (k & -> & _ & _ & Hsub & _);
      [done|apply NoDup_nil_2|done].
  - destruct (shortcut_state_spec l [] ∅) as (k & -> & _ & _ & Hsub & Hall);
      [done|apply NoDup_nil_2|].
    intros x. split; [|by apply Hall]. intros Hx. by eapply elem_of_sublist.
  - destruct l as [|x l]; [done|].
    change (shortcut_state (x :: l) ([], ∅)) with (shortcut_state l ([x], ∅ ∪ {[x]})).
    destruct (shortcut_state_spec l [x] (∅ ∪ {[x]})) as (k & -> & _);
      [|apply NoDup_singleton|done].
    simpl. set_solver.
Qed.

(** The loop started with a tour [t] and its set of vertices adds to [t]
    the shortcut of [l] without the vertices of [t]. *)
Lemma shortcut_state_filter l t (s : gset nat) :
  s = list_to_set t →
  (shortcut_state l (t, s)).1 = t ++ filter (fun y => y ∉ t) (shortcut l).
Proof.
  revert t s. induction l as [|x l IH]; intros t s Hs.
  - simpl. by rewrite app_nil_r.
  - assert (shortcut (x :: l) = [x] ++ filter (fun y => y ∉ [x]) (shortcut l)) as ->.
    { change (shortcut (x :: l)) with (shortcut_state l ([x], ∅ ∪ {[x]})).1.
      apply IH. set_solver. }
    unfold shortcut_state. cbn [fold_left]. fold (shortcut_state l).
    rewrite filter_app, list_filter_filter.
    destruct (decide (x ∈ s)) as [Hx|Hx].
    + assert (x ∈ t) as Hxt by (rewrite Hs in Hx; by apply elem_of_list_to_set in Hx).
      pose proof (IH t s Hs) as IHt. unfold shortcut_state in IHt.
      rewrite IHt, filter_cons_False, filter_nil by (intros H; by apply H).
      simpl. f_equal. apply list_filter_iff. intros y. split; [|tauto].
      intros Hy. split; [done|]. intros ->%list_elem_of_singleton. done.
    + assert (x ∉ t) as Hxt by (intros H; apply Hx; rewrite Hs; by apply elem_of_list_to_set).
      pose proof (IH (t ++ [x]) (s ∪ {[x]})) as IHt. unfold shortcut_state in IHt.
      rewrite IHt by (by rewrite Hs, list_to_set_snoc_L).
      rewrite filter_cons_True, filter_nil by done.
      rewrite <- app_assoc. do 2 f_equal. apply list_filter_iff. intros y.
      rewrite elem_of_app. tauto.
Qed.

(** The shortcut of a circuit in two parts: the shortcut of the first
    part, then what the second part adds to it. *)
Lemma shortcut_app l1 l2 :
  shortcut (l1 ++ l2) = shortcut l1 ++ filter (fun y => y ∉ l1) (shortcut l2).
Proof.
  assert (shortcut (l1 ++ l2) = (shortcut_state l2 (shortcut_state l1 ([], ∅))).1) as ->.
  { unfold shortcut, shortcut_state. by rewrite fold_left_app. }
  destruct (shortcut_state_spec l1 [] ∅) as (k & Hk & Hset & _); [done|apply NoDup_nil_2|].
  destruct (shortcut_state l1 ([], ∅)) as [t s] eqn:E. simpl in Hk, Hset.
  assert (t = shortcut l1) as Ht.
  { change (shortcut l1) with (shortcut_state l1 ([], ∅)).1. by rewrite E. }
  rewrite (shortcut_state_filter l2 t s) by (by rewrite Hset, Hk).
  rewrite Ht. f_equal. apply list_filter_iff. intros y.
  destruct (shortcut_spec l1) as (_ & _ & Hsame & _). by rewrite Hsame.
Qed.

(** [X7]: the shortcut of [christofides] keeps the first visit of every
    vertex of the circuit.  The result has no vertex twice and holds the
    vertices of the circuit; where the circuit meets a vertex [x] for the
    first time, after the vertices [l1], the result has [x] right after
    the vertices of [l1], so the result lists the vertices in the order of
    their first visits.  It is a subsequence of the circuit. *)
Theorem shortcut_keeps_first_visits (circuit : list nat) :
  NoDup (shortcut circuit)
  ∧ (∀ x, x ∈ shortcut circuit ↔ x ∈ circuit)
  ∧ (∀ l1 x l2, circuit = l1 ++ x :: l2 → x ∉ l1 →
       ∃ r1 r2, shortcut circuit = r1 ++ x :: r2 ∧ ∀ y, y ∈ r1 ↔ y ∈ l1)
  ∧ shortcut circuit `sublist_of` circuit.
Proof.
  destruct (shortcut_spec circuit) as (Hnd & Hsub & Hall & _).
  split_and!; [done..| |done].
  intros l1 x l2 -> Hx.
  destruct (shortcut_spec l1) as (_ & _ & Hsame & _).
  assert (shortcut (x :: l2) = [x] ++ filter (fun y => y ∉ [x]) (shortcut l2)) as Hcons.
  { apply (shortcut_app [x] l2). }
  exists (shortcut l1), (filter (fun y => y ∉ l1) (filter (fun y => y ∉ [x]) (shortcut l2))).
  split; [|done].
  rewrite shortcut_app, Hcons, filter_app, filter_cons_True, filter_nil by done. done.
Qed.

(** [X8]: on a valid instance, whatever the order of Python's sets, the
    greedy matching of [christofides] leaves the multigraph that
    [eulerian_tour] needs: the tree plus the matching is symmetric and
    free of loops, every city can be reached from city 1, and every city
    has an even number of neighbours. *)
Theorem christofides_matching_makes_degrees_even {point} (distance : point → point → Q)
    (env : environment) (tsp : instance) :
  valid_instance tsp → sets_behave env →
  ∃ adj matching adj',
    prim_mst distance tsp = Ok adj
    ∧ greedy_matching distance (env_set_pop env) (env_set_iter env)
        (size (list_to_set (odd_vertices adj) : gset nat)) tsp
        (list_to_set (odd_vertices adj)) [] adj = Ok (matching, adj')
    ∧ sym_graph (DIMENSION tsp) adj'
    ∧ linked (DIMENSION tsp) adj'
    ∧ even_degrees adj'.
Proof.
  intros Hvalid [Hpop Hiter].
  destruct (prim_mst_returns distance tsp Hvalid) as (adj & Hprim & Hfinal).
  destruct (christofides_graph distance tsp Hvalid _ _ Hpop Hiter adj Hfinal)
    as (matching & adj' & Hrun & Hsym & Hlinked & Heven).
  exists adj, matching, adj'. by split_and!.
Qed.

Lemma first_element_elem_of (s : gset nat) : s ≠ ∅ → first_element s ∈ s.
Proof.
  intros Hs. unfold first_element. apply elem_of_elements.
  destruct (elements s) as [|x l] eqn:E; [|left].
  by apply elements_empty_inv, leibniz_equiv in E.
Qed.

Lemma plain_env_sets_behave shuffle draws fuel : sets_behave (plain_env shuffle draws fuel).
Proof. split; simpl; [apply first_element_elem_of|done]. Qed.

Lemma christofides_matching_makes_degrees_even_witness :
  ∃ adj matching adj',
    prim_mst grid_distance (line_instance six_spread) = Ok adj
    ∧ greedy_matching grid_distance first_element elements
        (size (list_to_set (odd_vertices adj) : gset nat)) (line_instance six_spread)
        (list_to_set (odd_vertices adj)) [] adj = Ok (matching, adj')
    ∧ sym_graph 6 adj' ∧ linked 6 adj' ∧ even_degrees adj'.
Proof.
  apply (christofides_matching_makes_degrees_even grid_distance (plain_env [] [] 0)
           (line_instance six_spread)).
  - split; simpl; lia.
  - apply plain_env_sets_behave.
Defined.

Lemma christofides_run {point} (distance : point → point → Q)
    (set_pop : gset nat → nat) (set_iter : gset nat → list nat) (tsp : instance) :
  valid_instance tsp →
  (∀ s : gset nat, s ≠ ∅ → set_pop s ∈ s) → (∀ s : gset nat, set_iter s ≡ₚ elements s) →
  ∃ len tour,
    christofides distance set_pop set_iter tsp = Ok (len, tour)
    ∧ valid_tour (DIMENSION tsp) tour
    ∧ path_length distance tsp tour = Ok len.
Proof.
  intros Hvalid Hpop Hiter. pose proof Hvalid as [Hn _].
  destruct (prim_mst_returns distance tsp Hvalid) as (adj & Hprim & Hfinal).
  destruct (christofides_graph distance tsp Hvalid _ _ Hpop Hiter adj Hfinal)
    as (matching & adj' & Hmatch & Hsym & Hlinked & _).
  destruct (eulerian_tour_covers (DIMENSION tsp) adj' Hn Hsym Hlinked)
    as (circuit & Heuler & Hhead & Hall).
  destruct (shortcut_spec circuit) as (Hnd & _ & Hsame & Hfirst).
  assert (shortcut circuit ≡ₚ seq 1 (DIMENSION tsp)) as Hperm.
  { apply NoDup_Permutation; [done|apply NoDup_seq|].
    intros z. rewrite Hsame, Hall, elem_of_seq. unfold in_range. lia. }
  assert (valid_tour (DIMENSION tsp) (shortcut circuit ++ [1])) as Htour.
  { pose proof (Permutation_length Hperm) as Hlen. rewrite length_seq in Hlen.
    split_and!.
    - rewrite length_app. simpl. lia.
    - rewrite head_app, Hfirst, Hhead. done.
    - by rewrite last_snoc.
    - replace (take (DIMENSION tsp) (shortcut circuit ++ [1])) with (shortcut circuit);
        [done|]. by rewrite <- Hlen, take_app_length. }
  destruct (path_length_returns distance tsp Hvalid (shortcut circuit ++ [1]))
    as [len Hlen]; [by apply valid_tour_in_range|].
  exists len, (shortcut circuit ++ [1]). split_and!; [|done..].
  unfold christofides. rewrite Hprim, bind_Ok. cbv zeta.
  rewrite Hmatch, bind_Ok, Heuler, bind_Ok, Hlen. done.
Qed.

(** [X9]: on every valid instance, whatever the order of Python's sets,
    [christofides] returns: the loop of [eulerian_tour] ends without
    error, and the tour returned is a valid tour whose [path_length] is
    the length returned. *)
Theorem christofides_returns_valid_tour {point} (distance : point → point → Q)
    (env : environment) (tsp : instance) :
  valid_instance tsp → sets_behave env →
  ∃ len tour,
    christofides distance (env_set_pop env) (env_set_iter env) tsp = Ok (len, tour)
    ∧ valid_tour (DIMENSION tsp) tour
    ∧ path_length distance tsp tour = Ok len.
Proof.
  intros Hvalid [Hpop Hiter].
  destruct (christofides_run distance _ _ tsp Hvalid Hpop Hiter) as (len & tour & Hrun).
  by exists len, tour.
Qed.

Lemma christofides_returns_valid_tour_witness :
  ∃ len tour,
    christofides grid_distance first_element elements (line_instance six_spread)
    = Ok (len, tour)
    ∧ valid_tour 6 tour
    ∧ path_length grid_distance (line_instance six_spread) tour = Ok len.
Proof.
  apply (christofides_returns_valid_tour grid_distance (plain_env [] [] 0)
           (line_instance six_spread)).
  - split; simpl; lia.
  - apply plain_env_sets_behave.
Defined.

Section TwoOptBest.
Context {point : Type} (distance : point → point → Q) (tsp : @instance point).
Hypothesis Hvalid : valid_instance tsp.

Local Abbreviation n := (DIMENSION tsp).
Local Abbreviation d := (dist_of distance tsp).

Lemma two_opt_body_move tour i j st :
  valid_tour n tour → 1 ≤ i → i + 2 ≤ j → j < n →
  two_opt_body distance tsp tour (full_matrix distance tsp) i j st
  = Ok (two_opt_pick st (two_opt_move distance tsp tour i j)).
Proof.
  intros Ht Hi Hij Hj. pose proof Ht as (Hlen & _).
  pose proof (valid_tour_in_range tsp Hvalid tour Ht) as Hrange.
  assert (∀ k, k ≤ n → ∃ x, tour !! k = Some x ∧ in_range n x) as Hitem.
  { intros k Hk. destruct (lookup_lt_is_Some_2 tour k) as [x Hx]; [lia|].
    exists x. split; [done|].
    by apply (proj1 (Forall_forall _ _) Hrange), list_elem_of_lookup_2 with k. }
  destruct (Hitem (i - 1)) as (a & Ha & Har); [lia|].
  destruct (Hitem i) as (b & Hb & Hbr); [lia|].
  destruct (Hitem j) as (c & Hc & Hcr); [lia|].
  destruct (Hitem (j + 1)) as (e & He & Her); [lia|].
  assert (valid_tour n (reverse_segment tour i j)) as Hnew
    by (apply reverse_segment_valid; [done|lia..]).
  destruct (path_length_returns distance tsp Hvalid (reverse_segment tour i j)) as [len Hlen'];
    [by apply valid_tour_in_range|].
  unfold two_opt_move. rewrite Ha, Hb, Hc, He, Hlen'. cbv zeta.
  destruct st as [[bt bl] imp]. unfold two_opt_body.
  rewrite (item_lookup _ _ _ Ha), bind_Ok, (item_lookup _ _ _ Hb), bind_Ok.
  rewrite (matrix_get_full distance tsp a b), bind_Ok by done.
  rewrite (item_lookup _ _ _ Hc), bind_Ok, (item_lookup _ _ _ He), bind_Ok.
  rewrite (matrix_get_full distance tsp c e), bind_Ok by done.
  rewrite (matrix_get_full distance tsp a c), bind_Ok by done.
  rewrite (matrix_get_full distance tsp b e), bind_Ok by done.
  destruct (Qltb _ _); [|done].
  change (slice_to tour i ++ reverse (slice tour i (j + 1)) ++ slice_from tour (j + 1))
    with (reverse_segment tour i j).
  rewrite Hlen', bind_Ok. simpl. by destruct (Qltb len bl).
Qed.

Lemma for_each_nested_moves {A B}
    (body : A → B → list nat * Q * bool → res (list nat * Q * bool))
    (move : A → B → option (list nat * Q)) (inner : A → list B) (l : list A) st :
  (∀ x y st, x ∈ l → y ∈ inner x → body x y st = Ok (two_opt_pick st (move x y))) →
  for_each (fun st x => for_each (fun st y => body x y st) st (inner x)) st l
  = Ok (foldl two_opt_pick st (l ≫= fun x => move x <$> inner x)).
Proof.
  revert st. induction l as [|x l IH]; intros st Hbody; [done|].
  rewrite bind_cons, foldl_app. cbn [for_each].
  rewrite (for_each_pure _ (fun st y => two_opt_pick st (move x y))).
  - rewrite bind_Ok, foldl_fmap. apply IH.
    intros x' y st' Hx' Hy. apply Hbody; [by right|done].
  - intros st' y Hy. apply Hbody; [left|done].
Qed.

(** The moves a sweep of [two_opt] looks at, in its order. *)
Lemma two_opt_sweep_moves tour bt bl :
  valid_tour n tour →
  two_opt_sweep distance tsp tour (full_matrix distance tsp) n bt bl
  = Ok (foldl two_opt_pick (bt, bl, false)
          (range 1 (n - 2) ≫= fun i => two_opt_move distance tsp tour i <$> range (i + 2) n)).
Proof.
  intros Ht. unfold two_opt_sweep. apply for_each_nested_moves.
  intros i j st Hi%elem_of_range Hj%elem_of_range. apply two_opt_body_move; [done|lia..].
Qed.

Lemma foldl_pick_member cs st :
  (foldl two_opt_pick st cs).1 = st.1 ∨ Some (foldl two_opt_pick st cs).1 ∈ cs.
Proof.
  revert st. induction cs as [|c cs IH]; intros st; [by left|].
  simpl. destruct (IH (two_opt_pick st c)) as [->|Hin]; [|right; by right].
  destruct c as [[t l]|]; [|by left]. simpl.
  destruct (Qltb l st.1.2); [right; left|by left].
Qed.

(** [two_opt] returns a best one among the tour given and the moves that
    pass the test. *)
Lemma two_opt_best tour fuel bt bl :
  valid_tour n tour →
  two_opt distance (S (S fuel)) tsp tour (full_matrix distance tsp) = Ok (bt, bl) →
  (∀ i j t l, 1 ≤ i → i + 2 ≤ j → j < n →
     two_opt_move distance tsp tour i j = Some (t, l) → (bl <= l)%Q)
  ∧ ((bt = tour ∧ path_length distance tsp tour = Ok bl)
     ∨ ∃ i j, 1 ≤ i ∧ i + 2 ≤ j ∧ j < n
              ∧ two_opt_move distance tsp tour i j = Some (bt, bl)).
Proof.
  intros Ht Hrun. pose proof Ht as (Hlen & _).
  destruct (path_length_returns distance tsp Hvalid tour
              (valid_tour_in_range tsp Hvalid tour Ht)) as [l0 Hl0].
  set (moves := range 1 (n - 2) ≫= fun i => two_opt_move distance tsp tour i <$> range (i + 2) n).
  assert (∀ c, c ∈ moves ↔ ∃ i j, 1 ≤ i ∧ i + 2 ≤ j ∧ j < n
                                  ∧ c = two_opt_move distance tsp tour i j) as Hmoves.
  { intros c. unfold moves. rewrite list_elem_of_bind. split.
    - intros (i & (j & -> & Hj%elem_of_range)%list_elem_of_fmap & Hi%elem_of_range).
      exists i, j. split_and!; [lia..|done].
    - intros (i & j & Hi & Hij & Hj & ->). exists i. split.
      + apply list_elem_of_fmap. exists j. split; [done|]. apply elem_of_range. lia.
      + apply elem_of_range. lia. }
  unfold two_opt in Hrun. rewrite Hl0, bind_Ok in Hrun.
  replace (length tour - 1) with n in Hrun by lia.
  cbn [two_opt_loop] in Hrun. rewrite (two_opt_sweep_moves tour tour l0 Ht), bind_Ok in Hrun.
  fold moves in Hrun.
  pose proof (foldl_pick_least moves (tour, l0, false)) as [Hle1 Hleast].
  pose proof (foldl_pick_member moves (tour, l0, false)) as Hmember.
  destruct (foldl two_opt_pick (tour, l0, false) moves) as [[bt1 bl1] imp] eqn:Hfold.
  simpl in Hle1, Hleast, Hmember.
  assert (bt = bt1 ∧ bl = bl1) as [-> ->].
  { destruct imp; [|by injection Hrun as <- <-].
    rewrite (two_opt_sweep_moves tour bt1 bl1 Ht), bind_Ok in Hrun. fold moves in Hrun.
    rewrite foldl_pick_stable in Hrun by done. by injection Hrun as <- <-. }
  split.
  - intros i j t l Hi Hij Hj Hmove. apply (Hleast t l). apply Hmoves.
    exists i, j. by split_and!.
  - destruct Hmember as [[= -> ->]|Hin]; [by left|right].
    apply Hmoves in Hin as (i & j & Hi & Hij & Hj & Hmove). exists i, j. by split_and!.
Qed.

End TwoOptBest.

Lemma range_empty a b : b ≤ a → range a b = [].
Proof. intros Hab. unfold range. by replace (b - a) with 0 by lia. Qed.

(** [X10]: on a valid instance, a valid tour and the distance matrix
    [fuzzopt] builds, [two_opt] returns after at most two sweeps; its
    result is a valid tour, the length returned is the [path_length] of
    that tour, and it is not longer than the tour given. *)
Theorem two_opt_returns_valid_tour_not_longer {point} (distance : point → point → Q)
    (tsp : instance) (tour : list nat) (m : list (list Q)) (fuel : nat) :
  valid_instance tsp → valid_tour (DIMENSION tsp) tour →
  build_matrix distance tsp (DIMENSION tsp) = Ok m →
  ∃ bt bl l0,
    two_opt distance (S (S fuel)) tsp tour m = Ok (bt, bl)
    ∧ valid_tour (DIMENSION tsp) bt
    ∧ path_length distance tsp bt = Ok bl
    ∧ path_length distance tsp tour = Ok l0
    ∧ (bl <= l0)%Q.
Proof.
  intros Hvalid Ht Hm.
  rewrite (build_matrix_full distance tsp Hvalid) in Hm. injection Hm as <-.
  by apply two_opt_total.
Qed.

Lemma two_opt_returns_valid_tour_not_longer_witness :
  ∃ bt bl l0,
    two_opt grid_distance 2 (line_instance six_in_a_row) [1; 4; 2; 5; 3; 6; 1]
      six_in_a_row_matrix = Ok (bt, bl)
    ∧ valid_tour 6 bt
    ∧ path_length grid_distance (line_instance six_in_a_row) bt = Ok bl
    ∧ path_length grid_distance (line_instance six_in_a_row) [1; 4; 2; 5; 3; 6; 1] = Ok l0
    ∧ (bl <= l0)%Q.
Proof.
  apply (two_opt_returns_valid_tour_not_longer grid_distance (line_instance six_in_a_row)
           [1; 4; 2; 5; 3; 6; 1] six_in_a_row_matrix 0).
  - split; simpl; lia.
  - decide_true.
  - vm_compute. reflexivity.
Defined.

(** [X11]: whatever the tour and the matrix, when [two_opt] returns it
    has applied at most one move: its result is the tour given or that
    tour with one segment [tour[i..j]] reversed ([1 <= i], [i + 2 <= j],
    [j < n]), with the [path_length] of the result, which is not above
    the one of the tour given. *)
Theorem two_opt_applies_at_most_one_move {point} (distance : point → point → Q)
    (tsp : instance) (tour : list nat) (m : list (list Q)) (fuel : nat)
    (bt : list nat) (bl : Q) :
  two_opt distance fuel tsp tour m = Ok (bt, bl) →
  ∃ l0,
    path_length distance tsp tour = Ok l0
    ∧ path_length distance tsp bt = Ok bl
    ∧ (bl <= l0)%Q
    ∧ (bt = tour
       ∨ ∃ i j, 1 ≤ i ∧ i + 2 ≤ j ∧ j < length tour - 1 ∧ bt = reverse_segment tour i j).
Proof.
  intros Hrun.
  destruct (two_opt_result distance tsp tour m fuel bt bl Hrun) as (l0 & Hl0 & Hle & Hshape).
  exists l0. split_and!; [done| |done..].
  exact (two_opt_measured distance fuel tsp tour m (bt, bl) Hrun).
Qed.

Lemma two_opt_applies_at_most_one_move_witness :
  ∃ l0,
    path_length grid_distance (line_instance six_in_a_row) [1; 4; 2; 5; 3; 6; 1] = Ok l0
    ∧ path_length grid_distance (line_instance six_in_a_row) [1; 4; 6; 3; 5; 2; 1] = Ok 14%Q
    ∧ (14 <= l0)%Q
    ∧ ([1; 4; 6; 3; 5; 2; 1] = [1; 4; 2; 5; 3; 6; 1]
       ∨ ∃ i j, 1 ≤ i ∧ i + 2 ≤ j ∧ j < length [1; 4; 2; 5; 3; 6; 1] - 1
                ∧ [1; 4; 6; 3; 5; 2; 1] = reverse_segment [1; 4; 2; 5; 3; 6; 1] i j).
Proof.
  apply (two_opt_applies_at_most_one_move grid_distance (line_instance six_in_a_row)
           [1; 4; 2; 5; 3; 6; 1] six_in_a_row_matrix 2).
  vm_compute. reflexivity.
Defined.

(** [X12]: on a valid instance and a valid tour [two_opt] returns a best
    single move: no reversal that passes its test on the four distances
    is shorter than the result, and the result is such a reversal, or the
    tour given when none is shorter than it. *)
Theorem two_opt_returns_best_single_move {point} (distance : point → point → Q)
    (tsp : instance) (tour : list nat) (m : list (list Q)) (fuel : nat)
    (bt : list nat) (bl : Q) :
  valid_instance tsp → valid_tour (DIMENSION tsp) tour →
  build_matrix distance tsp (DIMENSION tsp) = Ok m →
  two_opt distance (S (S fuel)) tsp tour m = Ok (bt, bl) →
  (∀ i j t l, 1 ≤ i → i + 2 ≤ j → j < DIMENSION tsp →
     two_opt_move distance tsp tour i j = Some (t, l) → (bl <= l)%Q)
  ∧ ((bt = tour ∧ path_length distance tsp tour = Ok bl)
     ∨ ∃ i j, 1 ≤ i ∧ i + 2 ≤ j ∧ j < DIMENSION tsp
              ∧ two_opt_move distance tsp tour i j = Some (bt, bl)).
Proof.
  intros Hvalid Ht Hm Hrun.
  rewrite (build_matrix_full distance tsp Hvalid) in Hm. injection Hm as <-.
  by apply (two_opt_best distance tsp Hvalid tour fuel).
Qed.

Lemma two_opt_returns_best_single_move_witness :
  (∀ i j t l, 1 ≤ i → i + 2 ≤ j → j < 6 →
     two_opt_move grid_distance (line_instance six_in_a_row) [1; 4; 2; 5; 3; 6; 1] i j
     = Some (t, l) → (14 <= l)%Q)
  ∧ (([1; 4; 6; 3; 5; 2; 1] = [1; 4; 2; 5; 3; 6; 1]
      ∧ path_length grid_distance (line_instance six_in_a_row) [1; 4; 2; 5; 3; 6; 1] = Ok 14%Q)
     ∨ ∃ i j, 1 ≤ i ∧ i + 2 ≤ j ∧ j < 6
              ∧ two_opt_move grid_distance (line_instance six_in_a_row)
                  [1; 4; 2; 5; 3; 6; 1] i j = Some ([1; 4; 6; 3; 5; 2; 1], 14%Q)).
Proof.
  apply (two_opt_returns_best_single_move grid_distance (line_instance six_in_a_row)
           [1; 4; 2; 5; 3; 6; 1] six_in_a_row_matrix 0).
  - split; simpl; lia.
  - decide_true.
  - vm_compute. reflexivity.
  - vm_compute. reflexivity.
Defined.

(** [X13]: [two_opt] never tries to reverse two neighbours ([j] starts at
    [i + 2]).  With at most four cities and a symmetric distance no move
    is left: it returns every valid tour as it is, whether or not a
    shorter tour exists. *)
Theorem two_opt_returns_four_cities_unchanged {point} (distance : point → point → Q)
    (tsp : instance) (tour : list nat) (m : list (list Q)) (fuel : nat) :
  valid_instance tsp → DIMENSION tsp ≤ 4 →
  (∀ p q, distance p q == distance q p)%Q →
  valid_tour (DIMENSION tsp) tour →
  build_matrix distance tsp (DIMENSION tsp) = Ok m →
  ∃ len, path_length distance tsp tour = Ok len
         ∧ two_opt distance (S fuel) tsp tour m = Ok (tour, len).
Proof.
  intros Hvalid Hn Hsym Ht Hm. pose proof Ht as (Hlen & Hhead & Hlast & _).
  destruct (path_length_returns distance tsp Hvalid tour (valid_tour_in_range tsp Hvalid tour Ht))
    as [len Hl].
  exists len. split; [done|].
  destruct (decide (DIMENSION tsp = 4)) as [H4|H4].
  2:{ unfold two_opt. rewrite Hl, bind_Ok. cbn [two_opt_loop]. unfold two_opt_sweep.
      rewrite range_empty by lia. done. }
  rewrite (build_matrix_full distance tsp Hvalid) in Hm. injection Hm as <-.
  unfold two_opt. rewrite Hl, bind_Ok. replace (length tour - 1) with (DIMENSION tsp) by lia.
  cbn [two_opt_loop]. rewrite (two_opt_sweep_moves distance tsp Hvalid tour tour len Ht), bind_Ok.
  rewrite H4 in *. destruct tour as [|t0 [|t1 [|t2 [|t3 [|t4 [|]]]]]]; try done.
  injection Hhead as ->. injection Hlast as ->.
  change (range 1 (4 - 2) ≫= _)
    with [two_opt_move distance tsp [1; t1; t2; t3; 1] 1 3].
  unfold two_opt_move. cbn [lookup list_lookup Nat.sub Nat.add]. cbv zeta.
  assert (Qltb (dist_of distance tsp 1 t3 + dist_of distance tsp t1 1)
               (dist_of distance tsp 1 t1 + dist_of distance tsp t3 1) = false) as ->.
  { apply Qltb_ge. rewrite (dist_of_sym distance tsp 1 t1 Hsym).
    rewrite (dist_of_sym distance tsp t3 1 Hsym). lra. }
  done.
Qed.

Lemma two_opt_returns_four_cities_unchanged_witness :
  ∃ len, path_length grid_distance (line_instance four_zigzag) [1; 2; 3; 4; 1] = Ok len
         ∧ two_opt grid_distance 1 (line_instance four_zigzag) [1; 2; 3; 4; 1]
             (full_matrix grid_distance (line_instance four_zigzag))
           = Ok ([1; 2; 3; 4; 1], len).
Proof.
  apply (two_opt_returns_four_cities_unchanged grid_distance (line_instance four_zigzag)
           [1; 2; 3; 4; 1] (full_matrix grid_distance (line_instance four_zigzag)) 0).
  - split; simpl; lia.
  - simpl. lia.
  - apply grid_distance_sym.
  - decide_true.
  - vm_compute. reflexivity.
Defined.

(** ** FuzzOpt: the tour stays a tour *)

Lemma insert_swap_head {A} (l : list A) j b x :
  l !! j = Some b → b :: <[j := x]> l ≡ₚ x :: l.
Proof.
  revert j. induction l as [|y l IH]; intros [|j] Hj; try done.
  - injection Hj as ->. simpl. apply perm_swap.
  - simpl. rewrite (perm_swap y b), (IH j Hj). apply perm_swap.
Qed.

(** [xn[u], xn[v] = xn[v], xn[u]] permutes the list. *)
Lemma swap_Permutation {A} (l : list A) i j a b :
  l !! i = Some a → l !! j = Some b → <[j := a]> (<[i := b]> l) ≡ₚ l.
Proof.
  revert i j. induction l as [|x l IH]; intros [|i] [|j] Hi Hj; try done; simpl in *.
  - injection Hi as ->. by injection Hj as ->.
  - injection Hi as ->. by apply insert_swap_head.
  - injection Hj as ->. by apply insert_swap_head.
  - by rewrite (IH i j).
Qed.

Lemma swap_items_valid n xn u v xn' :
  valid_tour n xn → 1 ≤ u ≤ n - 1 → 1 ≤ v ≤ n - 1 →
  swap_items xn u v = Ok xn' → valid_tour n xn'.
Proof.
  intros (Hlen & Hhead & Hlast & Hperm) Hu Hv Hswap. unfold swap_items, item in Hswap.
  destruct (xn !! v) as [xv|] eqn:Exv; [|done]. rewrite bind_Ok in Hswap.
  destruct (xn !! u) as [xu|] eqn:Exu; [|done]. rewrite bind_Ok in Hswap.
  injection Hswap as <-. split_and!.
  - by rewrite !length_insert.
  - rewrite head_lookup in *. rewrite !list_lookup_insert_ne by lia. done.
  - rewrite last_lookup in *. rewrite !length_insert, Hlen in *. simpl in *.
    rewrite !list_lookup_insert_ne by lia. done.
  - rewrite !take_insert_lt by lia. rewrite swap_Permutation; [done|..].
    + rewrite lookup_take_lt by lia. done.
    + rewrite lookup_take_lt by lia. done.
Qed.

Lemma swap_items_returns n xn u v :
  valid_tour n xn → 1 ≤ u ≤ n - 1 → 1 ≤ v ≤ n - 1 →
  ∃ xn', swap_items xn u v = Ok xn'.
Proof.
  intros (Hlen & _) Hu Hv. unfold swap_items, item.
  destruct (lookup_lt_is_Some_2 xn v) as [xv ->]; [lia|].
  destruct (lookup_lt_is_Some_2 xn u) as [xu ->]; [lia|].
  rewrite !bind_Ok. eauto.
Qed.

Lemma randint_inv a b draws u rest :
  randint a b draws = Ok (u, rest) → draws = u :: rest.
Proof.
  unfold randint. destruct (b <? a); [done|]. destruct draws; [done|]. by intros [= -> ->].
Qed.

Lemma randint_cases a b draws :
  a ≤ b → randint a b draws = OutOfFuel ∨ ∃ u rest, randint a b draws = Ok (u, rest).
Proof.
  intros Hab. unfold randint. destruct (Nat.ltb_spec b a); [lia|].
  destruct draws; [by left|right; eauto].
Qed.

Lemma redraw_inv (P : nat → Prop) a b u v draws v' rest :
  P v → Forall P draws →
  redraw a b u v draws = Ok (v', rest) → v' ≠ u ∧ P v' ∧ Forall P rest.
Proof.
  revert v. induction draws as [|d draws IH]; intros v Hv Hdraws Hrun.
  - simpl in Hrun. destruct (Nat.eqb_spec u v) as [->|Hne].
    + by destruct (b <? a).
    + injection Hrun as <- <-. auto.
  - simpl in Hrun. destruct (Nat.eqb_spec u v) as [->|Hne].
    + destruct (b <? a); [done|]. apply Forall_cons in Hdraws as [Hd Hdraws].
      by apply (IH d).
    + injection Hrun as <- <-. auto.
Qed.

Lemma redraw_cases a b u v draws :
  a ≤ b → redraw a b u v draws = OutOfFuel ∨ ∃ v' rest, redraw a b u v draws = Ok (v', rest).
Proof.
  intros Hab. revert v. induction draws as [|d draws IH]; intros v; simpl.
  - destruct (u =? v); [|right; eauto]. destruct (Nat.ltb_spec b a); [lia|by left].
  - destruct (u =? v); [|right; eauto]. destruct (Nat.ltb_spec b a); [lia|]. apply IH.
Qed.

Section FuzzOptTour.
Context {point : Type} (distance : point → point → Q) (tsp : @instance point).
Hypothesis Hvalid : valid_instance tsp.

Local Abbreviation n := (DIMENSION tsp).

Lemma two_opt_small tour m fuel len :
  path_length distance tsp tour = Ok len → length tour ≤ 4 →
  two_opt distance (S fuel) tsp tour m = Ok (tour, len).
Proof.
  intros Hlen Hsmall. unfold two_opt. rewrite Hlen, bind_Ok.
  cbn [two_opt_loop]. unfold two_opt_sweep. rewrite range_empty by lia. done.
Qed.

Lemma three_opt_small tour m fuel len :
  path_length distance tsp tour = Ok len → length tour ≤ 6 →
  three_opt distance (S fuel) tsp tour m = Ok (tour, len).
Proof.
  intros Hlen Hsmall. unfold three_opt. rewrite Hlen, bind_Ok.
  cbn [three_opt_loop]. unfold three_opt_sweep. rewrite range_empty by lia. done.
Qed.

(** The local search keeps a valid tour valid: always for 2-opt, and for
    3-opt as long as it has no move to try. *)
Lemma local_search_valid use3 fuel tour m bt bl :
  use3 = false ∨ n ≤ 5 →
  valid_tour n tour →
  local_search distance use3 fuel tsp tour m = Ok (bt, bl) →
  valid_tour n bt.
Proof.
  intros Hcond Ht Hrun. pose proof Ht as (Hlen & _).
  destruct use3; simpl in Hrun.
  - destruct Hcond as [?|Hn]; [done|].
    destruct fuel as [|fuel].
    { unfold three_opt in Hrun. by apply bind_Ok_inv in Hrun as (? & _ & ?). }
    pose proof Hrun as Hrun'. unfold three_opt in Hrun'.
    apply bind_Ok_inv in Hrun' as (len & Hl & _).
    rewrite (three_opt_small tour m fuel len Hl) in Hrun by lia. by injection Hrun as <- _.
  - apply two_opt_result in Hrun as (l0 & _ & _ & [->|(i & j & Hi & Hij & Hj & ->)]); [done|].
    apply reverse_segment_valid; [done|lia..].
Qed.

Lemma fuzzopt_step_valid fuel use3 m x fx draws x' fx' draws' :
  use3 = false ∨ n ≤ 5 →
  valid_tour n x → Forall (fun d => 1 ≤ d ≤ n - 1) draws →
  fuzzopt_step distance fuel tsp use3 m n (x, fx, draws) = Ok (x', fx', draws') →
  valid_tour n x' ∧ Forall (fun d => 1 ≤ d ≤ n - 1) draws'.
Proof.
  intros Hcond Hx Hdraws Hrun. unfold fuzzopt_step in Hrun.
  apply bind_Ok_inv in Hrun as ([u d1] & Hu & Hrun). apply randint_inv in Hu as ->.
  apply Forall_cons in Hdraws as [Hu Hd1].
  apply bind_Ok_inv in Hrun as ([v d2] & Hv & Hrun). apply randint_inv in Hv as ->.
  apply Forall_cons in Hd1 as [Hv Hd2].
  apply bind_Ok_inv in Hrun as ([v' d3] & Hv' & Hrun).
  apply (redraw_inv (fun d => 1 ≤ d ≤ n - 1)) in Hv' as (_ & Hv' & Hd3); [|done..].
  apply bind_Ok_inv in Hrun as (xn & Hswap & Hrun).
  apply (swap_items_valid n) in Hswap; [|done..].
  apply bind_Ok_inv in Hrun as ([xn' fn] & Hsearch & Hrun).
  apply local_search_valid in Hsearch; [|done..].
  destruct (Qltb fn fx); injection Hrun as <- <- <-; done.
Qed.

Lemma fuzzopt_valid fuel shuffle draws mi use3 fx x :
  use3 = false ∨ n ≤ 5 →
  shuffle ≡ₚ range 2 (n + 1) → Forall (fun d => 1 ≤ d ≤ n - 1) draws →
  fuzzopt distance fuel shuffle draws tsp mi use3 = Ok (fx, x) →
  valid_tour n x.
Proof.
  intros Hcond Hshuffle Hdraws Hrun. unfold fuzzopt in Hrun.
  apply bind_Ok_inv in Hrun as (m & _ & Hrun).
  apply bind_Ok_inv in Hrun as (f0 & _ & Hrun).
  apply bind_Ok_inv in Hrun as ([[x1 fx1] d1] & Hloop & [= <- <-]).
  apply (for_each_inv (fun st => valid_tour n st.1.1
                                 ∧ Forall (fun d => 1 ≤ d ≤ n - 1) st.2)) in Hloop.
  - by destruct Hloop.
  - intros [[x2 f2] d2] _ [[x3 f3] d3] [Hx2 Hd2] _ Hstep.
    by apply (fuzzopt_step_valid fuel use3 m x2 f2 d2 x3 f3 d3).
  - split; [|done]. apply valid_tour_closed; [by destruct Hvalid|done].
Qed.


Lemma for_each_cases {A S} (P : S → Prop) (f : S → A → res S) l s :
  (∀ s x, P s → f s x = OutOfFuel ∨ ∃ s', f s x = Ok s' ∧ P s') →
  P s →
  for_each f s l = OutOfFuel ∨ ∃ s', for_each f s l = Ok s' ∧ P s'.
Proof.
  intros Hf. revert s. induction l as [|x l IH]; intros s Hs; [right; eauto|].
  simpl. destruct (Hf s x Hs) as [->|(s' & -> & Hs')]; [by left|].
  rewrite bind_Ok. by apply IH.
Qed.

Lemma fuzzopt_step_cases_two_opt fuel x fx draws :
  3 ≤ n → valid_tour n x → Forall (fun d => 1 ≤ d ≤ n - 1) draws →
  fuzzopt_step distance (S (S fuel)) tsp false (full_matrix distance tsp) n (x, fx, draws)
  = OutOfFuel
  ∨ ∃ st', fuzzopt_step distance (S (S fuel)) tsp false (full_matrix distance tsp) n
             (x, fx, draws) = Ok st'
           ∧ valid_tour n st'.1.1 ∧ Forall (fun d => 1 ≤ d ≤ n - 1) st'.2.
Proof.
  intros Hn Hx Hdraws. unfold fuzzopt_step.
  destruct (randint_cases 1 (n - 1) draws) as [->|(u & d1 & Hu)]; [lia|by left|].
  rewrite Hu, bind_Ok. apply randint_inv in Hu as ->.
  apply Forall_cons in Hdraws as [Hu Hd1].
  destruct (randint_cases 1 (n - 1) d1) as [->|(v & d2 & Hv)]; [lia|by left|].
  rewrite Hv, bind_Ok. apply randint_inv in Hv as ->.
  apply Forall_cons in Hd1 as [Hv Hd2].
  destruct (redraw_cases 1 (n - 1) u v d2) as [->|(v' & d3 & Hv')]; [lia|by left|].
  rewrite Hv', bind_Ok.
  apply (redraw_inv (fun d => 1 ≤ d ≤ n - 1)) in Hv' as (_ & Hv' & Hd3); [|done..].
  destruct (swap_items_returns n x u v' Hx Hu Hv') as [xn Hswap].
  rewrite Hswap, bind_Ok. apply (swap_items_valid n) in Hswap; [|done..].
  destruct (two_opt_total distance tsp Hvalid xn fuel Hswap)
    as (bt & bl & l0 & Hrun & Hbt & _).
  simpl local_search. rewrite Hrun, bind_Ok. right.
  destruct (Qltb bl fx); eexists; (split; [done|]); simpl; done.
Qed.

Lemma fuzzopt_two_opt_cases fuel shuffle draws mi :
  3 ≤ n → shuffle ≡ₚ range 2 (n + 1) → Forall (fun d => 1 ≤ d ≤ n - 1) draws →
  fuzzopt distance (S (S fuel)) shuffle draws tsp mi false = OutOfFuel
  ∨ ∃ fx x, fuzzopt distance (S (S fuel)) shuffle draws tsp mi false = Ok (fx, x).
Proof.
  intros Hn Hshuffle Hdraws. unfold fuzzopt.
  rewrite (build_matrix_full distance tsp Hvalid), bind_Ok.
  assert (valid_tour n ([1] ++ shuffle ++ [1])) as Hx0
    by (apply valid_tour_closed; [by destruct Hvalid|done]).
  destruct (path_length_returns distance tsp Hvalid _ (valid_tour_in_range tsp Hvalid _ Hx0))
    as [f0 Hf0].
  rewrite Hf0, bind_Ok.
  cbv zeta.
  match goal with
  | |- context [for_each ?f ?s ?l] =>
      destruct (for_each_cases
        (fun st : list nat * Q * list nat =>
           valid_tour n st.1.1 ∧ Forall (fun d => 1 ≤ d ≤ n - 1) st.2) f l s)
        as [Hout|([[x fx] d] & Hloop & _)]
  end.
  - intros [[x fx] d] _ [Hx Hd].
    apply (fuzzopt_step_cases_two_opt fuel x fx d Hn Hx Hd).
  - done.
  - rewrite Hout. by left.
  - rewrite Hloop. right. eauto.
Qed.

End FuzzOptTour.

(** [X14]: the local searches have nothing to try on small tours:
    [two_opt] returns a tour of at most four entries (three cities) as it
    is, and [three_opt] a tour of at most six entries (five cities),
    whatever the distance matrix. *)
Theorem local_search_returns_small_tours_unchanged {point} (distance : point → point → Q)
    (tsp : instance) (tour : list nat) (m : list (list Q)) (fuel : nat) (len : Q) :
  path_length distance tsp tour = Ok len →
  (length tour ≤ 4 → two_opt distance (S fuel) tsp tour m = Ok (tour, len))
  ∧ (length tour ≤ 6 → three_opt distance (S fuel) tsp tour m = Ok (tour, len)).
Proof.
  intros Hlen. split; intros Hsmall.
  - by apply two_opt_small.
  - by apply three_opt_small.
Qed.

Lemma local_search_returns_small_tours_unchanged_witness :
  (length [1; 3; 2; 1] ≤ 4 →
     two_opt grid_distance 1 (line_instance six_in_a_row) [1; 3; 2; 1] []
     = Ok ([1; 3; 2; 1], 4%Q))
  ∧ (length [1; 3; 2; 1] ≤ 6 →
     three_opt grid_distance 1 (line_instance six_in_a_row) [1; 3; 2; 1] []
     = Ok ([1; 3; 2; 1], 4%Q)).
Proof.
  apply (local_search_returns_small_tours_unchanged grid_distance
           (line_instance six_in_a_row) [1; 3; 2; 1] [] 0 4%Q).
  vm_compute. reflexivity.
Defined.

(** [X15]: when [fuzzopt] returns, with 2-opt on any number of cities or
    with 3-opt on at most five, its tour is a valid tour: the swap of two
    positions in [1, n-1] and the local search keep it a permutation
    closed at city 1. *)
Theorem fuzzopt_returns_valid_tour {point} (distance : point → point → Q)
    (fuel : nat) (shuffle draws : list nat) (tsp : instance)
    (max_iterations : option Z) (use_three_opt : bool) (fx : Q) (x : list nat) :
  valid_instance tsp →
  shuffle ≡ₚ range 2 (DIMENSION tsp + 1) →
  Forall (fun d => 1 ≤ d ≤ DIMENSION tsp - 1) draws →
  use_three_opt = false ∨ DIMENSION tsp ≤ 5 →
  fuzzopt distance fuel shuffle draws tsp max_iterations use_three_opt = Ok (fx, x) →
  valid_tour (DIMENSION tsp) x ∧ path_length distance tsp x = Ok fx.
Proof.
  intros Hvalid Hshuffle Hdraws Hcond Hrun. split.
  - by apply (fuzzopt_valid distance tsp Hvalid fuel shuffle draws max_iterations
                use_three_opt fx x).
  - apply (fuzzopt_inv distance (measured distance tsp)) in Hrun; [done..|].
    by intros f0 ?.
Qed.

Lemma fuzzopt_returns_valid_tour_witness :
  valid_tour 6 [1; 3; 2; 6; 5; 4; 1]
  ∧ path_length grid_distance (line_instance six_spread) [1; 3; 2; 6; 5; 4; 1] = Ok 40%Q.
Proof.
  apply (fuzzopt_returns_valid_tour grid_distance 2 [5; 3; 6; 2; 4]
           [1; 2; 1; 4; 1; 4; 1; 4; 1; 4; 1; 4] (line_instance six_spread) None false).
  - split; simpl; lia.
  - decide_true.
  - decide_true.
  - by left.
  - vm_compute. reflexivity.
Defined.

(** [X16]: with three cities or more, 2-opt and two sweeps of fuel,
    [fuzzopt] raises no exception: it returns a result, unless the list of
    random draws is used up before its loops end. *)
Theorem fuzzopt_two_opt_raises_nothing {point} (distance : point → point → Q)
    (fuel : nat) (shuffle draws : list nat) (tsp : instance) (max_iterations : option Z) :
  valid_instance tsp → 3 ≤ DIMENSION tsp →
  shuffle ≡ₚ range 2 (DIMENSION tsp + 1) →
  Forall (fun d => 1 ≤ d ≤ DIMENSION tsp - 1) draws →
  fuzzopt distance (S (S fuel)) shuffle draws tsp max_iterations false = OutOfFuel
  ∨ ∃ fx x, fuzzopt distance (S (S fuel)) shuffle draws tsp max_iterations false = Ok (fx, x).
Proof.
  intros Hvalid Hn Hshuffle Hdraws.
  destruct (fuzzopt_two_opt_cases distance tsp Hvalid fuel shuffle draws max_iterations
              Hn Hshuffle Hdraws) as [Hout|(fx & x & Hrun)]; [by left|right].
  by exists fx, x.
Qed.

Lemma fuzzopt_two_opt_raises_nothing_witness :
  fuzzopt grid_distance 2 [5; 3; 6; 2; 4] [1; 2; 1; 4; 1; 4; 1; 4; 1; 4; 1; 4]
    (line_instance six_spread) None false = OutOfFuel
  ∨ ∃ fx x, fuzzopt grid_distance 2 [5; 3; 6; 2; 4] [1; 2; 1; 4; 1; 4; 1; 4; 1; 4; 1; 4]
              (line_instance six_spread) None false = Ok (fx, x).
Proof.
  apply (fuzzopt_two_opt_raises_nothing grid_distance 0 [5; 3; 6; 2; 4]
           [1; 2; 1; 4; 1; 4; 1; 4; 1; 4; 1; 4] (line_instance six_spread) None).
  - split; simpl; lia.
  - simpl. lia.
  - decide_true.
  - decide_true.
Defined.

(** [X17]: the solvers compared, on a valid instance with two cities or
    more.  When [held_karp] returns a cost, every length that
    [approx_tsp_tour] returns and every length that [christofides] returns
    is at least that cost; with metric distances the length of
    [approx_tsp_tour] is at most twice that cost. *)
Theorem held_karp_cost_bounds_the_heuristics {point} (distance : point → point → Q)
    (env : environment) (tsp : instance) (cost : Q) (dummy_tour : list nat) :
  valid_instance tsp → 2 ≤ DIMENSION tsp → sets_behave env →
  held_karp distance tsp = Ok (cost, dummy_tour) →
  (∀ len tour,
     approx_tsp_tour distance (env_frames env) tsp = Ok (len, tour) →
     (cost <= len)%Q ∧ (metric_instance distance tsp → (len <= 2 * cost)%Q))
  ∧ (∀ len tour,
       christofides distance (env_set_pop env) (env_set_iter env) tsp = Ok (len, tour) →
       (cost <= len)%Q).
Proof.
  intros Hvalid Hn [Hpop Hiter] Hhk'.
  destruct (held_karp_optimal distance tsp Hvalid Hn)
    as (cost' & dummy & Hhk & (t & len & Ht & Hlen & Hcost) & Hleast).
  rewrite Hhk' in Hhk. injection Hhk as <- <-.
  split.
  - intros la ta Hret.
    destruct (approx_tsp_tour_run distance tsp Hvalid (env_frames env))
      as (adj & tree & la' & _ & _ & _ & _ & _ & Happrox & Hla & Hta).
    pose proof Happrox as Hrun. rewrite Hret in Hrun.
    destruct (decide (height tree ≤ env_frames env)) as [Hin|]; [|done].
    injection Hrun as -> ->.
    split; [by apply (Hleast _ _ Hta)|].
    intros Hmetric.
    apply valid_tour_inv in Ht as (p & -> & Hp); [|by destruct Hvalid].
    destruct (approx_tsp_tour_bound distance tsp Hvalid Hmetric (env_frames env) p Hp)
      as (tree' & la'' & ta' & _ & Happrox' & _ & _ & Hbound).
    rewrite Happrox in Happrox'.
    destruct (decide (height tree ≤ env_frames env)); [|done].
    destruct (decide (height tree' ≤ env_frames env)); [|done].
    injection Happrox' as <- _.
    rewrite path_length_closed in Hlen; [|done|].
    2:{ apply Forall_forall. intros x Hx. rewrite Hp in Hx. apply elem_of_range in Hx.
        unfold in_range. lia. }
    injection Hlen as <-. rewrite walk_cost_path_cost in Hcost.
    change (1 :: p ++ [1]) with ([1] ++ p ++ [1]) in Hcost. lra.
  - intros lc tc Hret.
    destruct (christofides_run distance _ _ tsp Hvalid Hpop Hiter)
      as (lc' & tc' & Hchr & Htc & Hlc).
    rewrite Hret in Hchr. injection Hchr as <- <-.
    by apply (Hleast _ _ Htc).
Qed.

Lemma held_karp_cost_bounds_the_heuristics_witness :
  (∀ len tour,
     approx_tsp_tour grid_distance 997 (line_instance six_spread) = Ok (len, tour) →
     (40 <= len)%Q
     ∧ (metric_instance grid_distance (line_instance six_spread) → (len <= 2 * 40)%Q))
  ∧ (∀ len tour,
       christofides grid_distance first_element elements (line_instance six_spread)
       = Ok (len, tour) →
       (40 <= len)%Q).
Proof.
  apply (held_karp_cost_bounds_the_heuristics grid_distance (plain_env [] [] 0)
           (line_instance six_spread) 40%Q [1; 2; 3; 4; 5; 6; 1]).
  - split; simpl; lia.
  - simpl. lia.
  - apply plain_env_sets_behave.
  - vm_compute. reflexivity.
Defined.

(** ** [collect_tsp_files] *)










(** ** [main] *)

Section MainRuns.
Context {point : Type} (distance : point → point → Q).
Context (read_tsp_file : string → res (string * @instance point)).
Context (fs : filesystem) (envs : nat → environment).

Lemma yielded_cons_Yield f events : yielded (Yield f :: events) = f :: yielded events.
Proof. done. Qed.

Lemma yielded_cons_Warning p events : yielded (Warning p :: events) = yielded events.
Proof. done. Qed.

Lemma headers_app l1 l2 : headers (l1 ++ l2) = headers l1 ++ headers l2.
Proof. unfold headers. by rewrite bind_app. Qed.

(** After events that ran to their end the loop goes on with the rest. *)
Lemma run_events_app args k events1 events2 out1 :
  run_events distance read_tsp_file envs args k events1 = (out1, Finished) →
  run_events distance read_tsp_file envs args k (events1 ++ events2)
  = (out1 ++ (run_events distance read_tsp_file envs args
                (k + length (yielded events1)) events2).1,
     (run_events distance read_tsp_file envs args
        (k + length (yielded events1)) events2).2).
Proof.
  revert k out1. induction events1 as [|[f|p] events1 IH]; intros k out1 Hrun.
  - injection Hrun as <-. simpl. rewrite Nat.add_0_r.
    by destruct (run_events _ _ _ _ k events2).
  - simpl in Hrun. simpl.
    destruct (report distance read_tsp_file args (envs k) f) as [lines []]; try done.
    destruct (run_events _ _ _ _ (S k) events1) as [out o] eqn:Hrest.
    injection Hrun as <- ->.
    rewrite (IH (S k) out Hrest).
    replace (S k + length (yielded events1)) with (k + S (length (yielded events1))) by lia.
    by rewrite app_assoc.
  - simpl in Hrun. simpl.
    destruct (run_events _ _ _ _ k events1) as [out o] eqn:Hrest.
    injection Hrun as <- ->.
    by rewrite (IH k out Hrest).
Qed.

(** When every file is read and solved, the loop prints a report for
    every file, in the order of the events, and ends normally. *)
Lemma run_events_finished args method s k events :
  select args = Some (method, s) →
  (∀ f k, f ∈ yielded events →
     ∃ name tsp r, read_tsp_file f = Ok (name, tsp) ∧ solve distance (envs k) s tsp = Ok r) →
  ∃ out, run_events distance read_tsp_file envs args k events = (out, Finished)
         ∧ headers out = yielded events.
Proof.
  intros Hselect. revert k. induction events as [|[f|p] events IH]; intros k Hall.
  - by exists [].
  - destruct (Hall f k) as (name & tsp & [len tour] & Hread & Hsolve); [left|].
    destruct (IH (S k)) as (out & Hrun & Hheaders).
    { intros f' k' Hf'. apply Hall. by right. }
    simpl. unfold report. rewrite Hread, Hselect, Hsolve, Hrun.
    eexists. split; [done|]. rewrite headers_app, Hheaders. done.
  - destruct (IH k) as (out & Hrun & Hheaders).
    { intros f' k' Hf'. by apply Hall. }
    simpl. rewrite Hrun. eexists. split; [done|]. done.
Qed.

End MainRuns.

Lemma solve_heuristic_returns {point} (distance : point → point → Q) env s
    (tsp : @instance point) :
  s = Christofides ∨ s = ApproxMst → valid_instance tsp → sets_behave env →
  (s = ApproxMst → DIMENSION tsp ≤ env_frames env) →
  ∃ r, solve distance env s tsp = Ok r.
Proof.
  intros [-> | ->] Hvalid [Hpop Hiter] Hframes; simpl.
  - destruct (christofides_run distance _ _ tsp Hvalid Hpop Hiter) as (len & tour & -> & _).
    eauto.
  - destruct (approx_tsp_tour_run distance tsp Hvalid (env_frames env))
      as (adj & t & len & _ & _ & _ & _ & Hheight & -> & _).
    specialize (Hframes eq_refl). rewrite decide_True by lia. eauto.
Qed.

(** [X19]: a run of [main] with [-christofides] or [-approx-mst] over
    files that hold valid instances does not stop early: it ends normally
    and has printed a report for every file that [collect_tsp_files]
    yields, in that order.  For [-approx-mst] the instances must have no
    more cities than the interpreter allows [dfs] nested calls. *)
Theorem main_reports_every_valid_instance {point} (distance : point → point → Q)
    (read_tsp_file : string → res (string * @instance point))
    (fs : filesystem) (envs : nat → environment) (args : arguments)
    (method : string) (s : solver) :
  select args = Some (method, s) → s = Christofides ∨ s = ApproxMst →
  (∀ k, sets_behave (envs k)) →
  (∀ f, f ∈ yielded (collect_tsp_files fs (inputs args)) →
     ∃ name tsp, read_tsp_file f = Ok (name, tsp) ∧ valid_instance tsp
       ∧ (s = ApproxMst → ∀ k, DIMENSION tsp ≤ env_frames (envs k))) →
  ∃ out, main distance read_tsp_file fs envs args = (out, Finished)
         ∧ headers out = yielded (collect_tsp_files fs (inputs args)).
Proof.
  intros Hselect Hs Hsets Hfiles. unfold main.
  apply (run_events_finished distance read_tsp_file envs args method s); [done|].
  intros f k Hf. destruct (Hfiles f Hf) as (name & tsp & Hread & Hvalid & Hframes).
  destruct (solve_heuristic_returns distance (envs k) s tsp Hs Hvalid (Hsets k)) as [r Hr].
  { intros Hmst. by apply Hframes. }
  by exists name, tsp, r.
Qed.

(** [X20]: [main] stops at the first file on which the solver raises:
    what it has printed is what the events before that file produced, the
    exception ends the run, and neither that file nor any later input
    gets a line, warnings included. *)
Theorem main_stops_at_first_failure {point} (distance : point → point → Q)
    (read_tsp_file : string → res (string * @instance point))
    (fs : filesystem) (envs : nat → environment) (args : arguments)
    (before after : list event) (f name method : string) (s : solver)
    (tsp : instance) (e : exn) (out : list line) :
  collect_tsp_files fs (inputs args) = before ++ Yield f :: after →
  run_events distance read_tsp_file envs args 0 before = (out, Finished) →
  read_tsp_file f = Ok (name, tsp) →
  select args = Some (method, s) →
  solve distance (envs (length (yielded before))) s tsp = Raise e →
  main distance read_tsp_file fs envs args = (out, Failed e).
Proof.
  intros Hcollect Hbefore Hread Hselect Hsolve. unfold main.
  rewrite Hcollect, (run_events_app distance read_tsp_file envs args 0 before _ out Hbefore).
  simpl. unfold report. rewrite Hread, Hselect, Hsolve. simpl. by rewrite app_nil_r.
Qed.

Lemma main_reports_every_valid_instance_witness :
  ∃ out,
    main grid_distance sample_read sample_fs (fun _ => plain_env [] [] 0)
      (sample_args false true ["data"; "c.tsp"; "notes.txt"]) = (out, Finished)
    ∧ headers out
      = yielded (collect_tsp_files sample_fs
                   (inputs (sample_args false true ["data"; "c.tsp"; "notes.txt"]))).
Proof.
  apply (main_reports_every_valid_instance grid_distance sample_read sample_fs
           (fun _ => plain_env [] [] 0) (sample_args false true ["data"; "c.tsp"; "notes.txt"])
           "MST-Preorder(2-Approx)" ApproxMst).
  - reflexivity.
  - by right.
  - intros k. apply plain_env_sets_behave.
  - intros f Hf. exists "six", (line_instance six_spread). split.
    + vm_compute in Hf. unfold sample_read.
      repeat (apply elem_of_cons in Hf as [->|Hf]; [reflexivity|]).
      by apply elem_of_nil in Hf.
    + split; [split; simpl; lia|]. intros _ k. simpl. lia.
Defined.

Lemma main_stops_at_first_failure_witness :
  main grid_distance sample_read sample_fs (fun _ => plain_env [] [] 0)
    (sample_args true false ["c.tsp"; "one.tsp"; "notes.txt"; "data"])
  = ([HeaderLine "six" "c.tsp"; LengthLine "Held–Karp" 40; TourLine [1; 2; 3; 4; 5; 6; 1]],
     Failed ValueError).
Proof.
  apply (main_stops_at_first_failure grid_distance sample_read sample_fs
           (fun _ => plain_env [] [] 0)
           (sample_args true false ["c.tsp"; "one.tsp"; "notes.txt"; "data"])
           [Yield "c.tsp"]
           [Warning "notes.txt"; Yield "data/a.tsp"; Yield "data/b.tsp"]
           "one.tsp" "one" "Held–Karp" HeldKarp (line_instance [0%Z])).
  - vm_compute. reflexivity.
  - vm_compute. reflexivity.
  - reflexivity.
  - reflexivity.
  - vm_compute. reflexivity.
Defined.

(** ** 2-opt with a symmetric distance *)

Section TwoOptSymmetric.
Context {point : Type} (distance : point → point → Q) (tsp : @instance point).
Hypothesis Hvalid : valid_instance tsp.
Hypothesis Hsym : (∀ p q, distance p q == distance q p)%Q.

Local Abbreviation n := (DIMENSION tsp).
Local Abbreviation d := (dist_of distance tsp).
Local Abbreviation cost := (path_cost distance tsp).

Lemma path_length_cost l v :
  Forall (in_range n) l → path_length distance tsp l = Ok v → (v == cost l)%Q.
Proof.
  intros Hl Hv. destruct l as [|u p].
  - injection Hv as <-. simpl. lra.
  - apply Forall_cons in Hl as [Hu Hp].
    change (path_length distance tsp (u :: p))
      with (for_each (add_leg distance tsp) 0%Q (zip (u :: p) p)) in Hv.
    rewrite (for_each_walk distance tsp Hvalid p u 0 Hu Hp) in Hv. injection Hv as <-.
    rewrite walk_cost_path_cost. lra.
Qed.

Lemma path_cost_snoc l c e :
  (cost ((l ++ [c]) ++ [e]) == cost (l ++ [c]) + d c e)%Q.
Proof.
  rewrite <- app_assoc. simpl app. rewrite (path_cost_split distance tsp l c [e]).
  simpl. lra.
Qed.

(** The cost of a tour through the segment [b, mid, c], and through the
    reversed segment. *)
Lemma path_cost_segment pre a b mid c e post :
  (cost (pre ++ a :: (b :: mid ++ [c]) ++ e :: post)
   == cost (pre ++ [a]) + d a b + cost (b :: mid ++ [c]) + d c e + cost (e :: post))%Q.
Proof.
  rewrite (path_cost_split distance tsp pre a).
  change (a :: (b :: mid ++ [c]) ++ e :: post) with (a :: b :: (mid ++ [c]) ++ e :: post).
  rewrite path_cost_cons.
  change (b :: (mid ++ [c]) ++ e :: post) with ((b :: mid ++ [c]) ++ e :: post).
  rewrite (path_cost_split distance tsp (b :: mid ++ [c]) e post).
  change ((b :: mid ++ [c]) ++ [e]) with (((b :: mid) ++ [c]) ++ [e]).
  rewrite path_cost_snoc. simpl app. lra.
Qed.

Lemma reverse_segment_cost pre a b mid c e post :
  (cost (pre ++ a :: reverse (b :: mid ++ [c]) ++ e :: post) + d a b + d c e
   == cost (pre ++ a :: (b :: mid ++ [c]) ++ e :: post) + d a c + d b e)%Q.
Proof.
  rewrite path_cost_segment.
  assert (reverse (b :: mid ++ [c]) = c :: reverse mid ++ [b]) as Hrev.
  { change (b :: mid ++ [c]) with ((b :: mid) ++ [c]).
    rewrite reverse_app, (reverse_cons mid b). reflexivity. }
  pose proof (path_cost_reverse distance tsp (b :: mid ++ [c]) Hsym) as Hcost.
  rewrite Hrev in *. rewrite path_cost_segment. lra.
Qed.

(** A tour around the positions [i - 1], [i], [j], [j + 1]. *)
Lemma tour_around (tour : list nat) i j a b c e :
  1 ≤ i → i < j →
  tour !! (i - 1) = Some a → tour !! i = Some b →
  tour !! j = Some c → tour !! (j + 1) = Some e →
  ∃ pre mid post,
    tour = pre ++ a :: (b :: mid ++ [c]) ++ e :: post
    ∧ reverse_segment tour i j = pre ++ a :: reverse (b :: mid ++ [c]) ++ e :: post.
Proof.
  intros Hi Hij Ha Hb Hc He.
  exists (take (i - 1) tour), (take (j - i - 1) (drop (S i) tour)), (drop (j + 2) tour).
  assert (tour = take (i - 1) tour ++ a :: b :: take (j - i - 1) (drop (S i) tour)
                   ++ c :: e :: drop (j + 2) tour) as Htour.
  { rewrite <- (take_drop_middle tour (i - 1) a Ha) at 1. f_equal. f_equal.
    replace (S (i - 1)) with i by lia.
    rewrite <- (take_drop_middle (drop i tour) 0 b) at 1 by (rewrite lookup_drop, <- Hb; f_equal; lia).
    simpl. f_equal. rewrite drop_drop. replace (i + 1) with (S i) by lia.
    rewrite <- (take_drop (j - i - 1) (drop (S i) tour)) at 1. f_equal.
    rewrite drop_drop. replace (S i + (j - i - 1)) with j by lia.
    rewrite <- (take_drop_middle (drop j tour) 0 c) at 1 by (rewrite lookup_drop, <- Hc; f_equal; lia).
    simpl. f_equal. rewrite drop_drop. replace (j + 1) with (S j) by lia.
    rewrite <- (take_drop_middle (drop (S j) tour) 0 e) at 1
      by (rewrite lookup_drop, <- He; f_equal; lia).
    simpl. f_equal. rewrite drop_drop. f_equal. lia. }
  split.
  - rewrite Htour at 1. simpl. by rewrite <- app_assoc.
  - unfold reverse_segment, slice.
    assert (length (take (i - 1) tour) = i - 1) as Hlen1.
    { apply length_take_le. apply lookup_lt_Some in Ha. lia. }
    assert (length (take (j - i - 1) (drop (S i) tour)) = j - i - 1) as Hlen2.
    { apply length_take_le. rewrite length_drop. apply lookup_lt_Some in Hc. lia. }
    set (pre := take (i - 1) tour) in *.
    set (mid := take (j - i - 1) (drop (S i) tour)) in *.
    set (post := drop (j + 2) tour) in *.
    rewrite Htour.
    assert (take i (pre ++ a :: b :: mid ++ c :: e :: post) = pre ++ [a]) as ->.
    { replace i with (length (pre ++ [a])) at 1 by (rewrite length_app; simpl; lia).
      change (pre ++ a :: b :: mid ++ c :: e :: post)
        with (pre ++ [a] ++ b :: mid ++ c :: e :: post).
      rewrite app_assoc. apply take_app_length. }
    assert (drop i (pre ++ a :: b :: mid ++ c :: e :: post) = b :: mid ++ c :: e :: post) as ->.
    { replace i with (length (pre ++ [a])) at 1 by (rewrite length_app; simpl; lia).
      change (pre ++ a :: b :: mid ++ c :: e :: post)
        with (pre ++ [a] ++ b :: mid ++ c :: e :: post).
      rewrite app_assoc. apply drop_app_length. }
    assert (drop (j + 1) (pre ++ a :: b :: mid ++ c :: e :: post) = e :: post) as ->.
    { replace (j + 1) with (length (pre ++ [a] ++ b :: mid ++ [c]))
        by (rewrite !length_app; simpl; rewrite length_app; simpl; lia).
      replace (pre ++ a :: b :: mid ++ c :: e :: post)
        with ((pre ++ [a] ++ b :: mid ++ [c]) ++ e :: post)
        by (rewrite <- !app_assoc; simpl; by rewrite <- app_assoc).
      apply drop_app_length. }
    replace (j + 1 - i) with (length (b :: mid ++ [c]))
      by (simpl; rewrite length_app; simpl; lia).
    replace (b :: mid ++ c :: e :: post) with ((b :: mid ++ [c]) ++ e :: post)
      by (simpl; by rewrite <- app_assoc).
    rewrite take_app_length, <- app_assoc. done.
Qed.


(** A reversal passes the test of [two_opt], or it is not shorter than
    the tour. *)
Lemma two_opt_move_or_longer tour i j l0 l :
  valid_tour n tour → 1 ≤ i → i + 2 ≤ j → j < n →
  path_length distance tsp tour = Ok l0 →
  path_length distance tsp (reverse_segment tour i j) = Ok l →
  two_opt_move distance tsp tour i j = Some (reverse_segment tour i j, l) ∨ (l0 <= l)%Q.
Proof.
  intros Ht Hi Hij Hj Hl0 Hl. pose proof Ht as (Hlen & _).
  destruct (lookup_lt_is_Some_2 tour (i - 1)) as [a Ha]; [lia|].
  destruct (lookup_lt_is_Some_2 tour i) as [b Hb]; [lia|].
  destruct (lookup_lt_is_Some_2 tour j) as [c Hc]; [lia|].
  destruct (lookup_lt_is_Some_2 tour (j + 1)) as [e He]; [lia|].
  unfold two_opt_move. rewrite Ha, Hb, Hc, He, Hl. cbv zeta.
  destruct (Qltb (d a c + d b e) (d a b + d c e)) eqn:Htest; [by left|right].
  apply Qltb_ge in Htest.
  destruct (tour_around tour i j a b c e) as (pre & mid & post & Htour & Hrev);
    [lia|lia|done..|].
  pose proof (reverse_segment_cost pre a b mid c e post) as Hcost.
  rewrite <- Htour, <- Hrev in Hcost.
  apply path_length_cost in Hl0; [|by apply valid_tour_in_range].
  apply path_length_cost in Hl.
  2:{ apply valid_tour_in_range; [done|]. apply reverse_segment_valid; [done|lia..]. }
  lra.
Qed.

Lemma two_opt_shortest_reversal tour fuel bt bl :
  valid_tour n tour →
  two_opt distance (S (S fuel)) tsp tour (full_matrix distance tsp) = Ok (bt, bl) →
  ∀ i j l, 1 ≤ i → i + 2 ≤ j → j < n →
    path_length distance tsp (reverse_segment tour i j) = Ok l → (bl <= l)%Q.
Proof.
  intros Ht Hrun i j l Hi Hij Hj Hl.
  destruct (two_opt_best distance tsp Hvalid tour fuel bt bl Ht Hrun) as [Hbest _].
  destruct (two_opt_result distance tsp tour _ _ bt bl Hrun) as (l0 & Hl0 & Hle & _).
  destruct (two_opt_move_or_longer tour i j l0 l Ht Hi Hij Hj Hl0 Hl) as [Hmove|Hlong].
  - by apply (Hbest i j _ l Hi Hij Hj Hmove).
  - lra.
Qed.

(** Reading the matrix is calling [dist], for every pair of labels. *)
Lemma matrix_get_dist a b :
  matrix_get (full_matrix distance tsp) a b = dist distance tsp a b.
Proof.
  pose proof Hvalid as [Hn Hlen].
  assert (length (full_matrix distance tsp) = n) as Hrows
    by (unfold full_matrix; by rewrite length_fmap, length_seq).
  destruct (decide (a ≤ n ∧ b ≤ n)) as [[Ha Hb]|Hnot].
  - rewrite (dist_fit distance tsp a b Hvalid Ha Hb).
    assert (in_range n (wrap_label n a)) as Hwa by by apply wrap_label_in_range.
    assert (in_range n (wrap_label n b)) as Hwb by by apply wrap_label_in_range.
    unfold in_range in Hwa, Hwb. unfold matrix_get.
    rewrite <- (py_get_wrap_label _ a), Hrows.
    rewrite (py_get_label_lookup _ (wrap_label n a)
               ((fun j => dist_of distance tsp (wrap_label n a) j) <$> seq 1 n)); [|lia|].
    2:{ unfold full_matrix. rewrite list_lookup_fmap, lookup_seq_lt by lia.
        simpl. do 3 f_equal. lia. }
    rewrite bind_Ok, <- (py_get_wrap_label _ b), length_fmap, length_seq.
    apply py_get_label_lookup; [lia|].
    rewrite list_lookup_fmap, lookup_seq_lt by lia. simpl. do 2 f_equal. lia.
  - rewrite (dist_unfit distance tsp a b Hvalid Hnot). unfold matrix_get.
    destruct (decide (a ≤ n)) as [Ha|Ha].
    + assert (in_range n (wrap_label n a)) as Hwa by by apply wrap_label_in_range.
      rewrite <- (py_get_wrap_label _ a), Hrows.
      rewrite (py_get_label_lookup _ (wrap_label n a)
                 ((fun j => dist_of distance tsp (wrap_label n a) j) <$> seq 1 n)).
      * rewrite bind_Ok. apply py_get_label_above. rewrite length_fmap, length_seq. lia.
      * unfold in_range in Hwa. lia.
      * unfold full_matrix. unfold in_range in Hwa.
        rewrite list_lookup_fmap, lookup_seq_lt by lia. simpl. do 3 f_equal. lia.
    + rewrite py_get_label_above; [done|lia].
Qed.

End TwoOptSymmetric.

(** [X21]: with a symmetric distance, and where the sums of the code are
    exact, [two_opt] returns a shortest tour among the tour given and its
    reversals of a segment [tour[i..j]] with [1 <= i], [i + 2 <= j],
    [j < n]: the test on the four distances and the comparison of the
    lengths agree. *)
Theorem two_opt_returns_shortest_reversal {point} (distance : point → point → Q)
    (tsp : instance) (tour : list nat) (m : list (list Q)) (fuel : nat)
    (bt : list nat) (bl : Q) :
  valid_instance tsp → (∀ p q, distance p q == distance q p)%Q →
  exact_sums distance tsp (S (DIMENSION tsp)) →
  valid_tour (DIMENSION tsp) tour →
  build_matrix distance tsp (DIMENSION tsp) = Ok m →
  two_opt distance (S (S fuel)) tsp tour m = Ok (bt, bl) →
  (∀ i j l, 1 ≤ i → i + 2 ≤ j → j < DIMENSION tsp →
     path_length distance tsp (reverse_segment tour i j) = Ok l → (bl <= l)%Q)
  ∧ (∃ l0, path_length distance tsp tour = Ok l0 ∧ (bl <= l0)%Q)
  ∧ path_length distance tsp bt = Ok bl
  ∧ (bt = tour
     ∨ ∃ i j, 1 ≤ i ∧ i + 2 ≤ j ∧ j < DIMENSION tsp ∧ bt = reverse_segment tour i j).
Proof.
  intros Hvalid Hsym _ Ht Hm Hrun. pose proof Ht as (Hlen & _).
  rewrite (build_matrix_full distance tsp Hvalid) in Hm. injection Hm as <-.
  destruct (two_opt_result distance tsp tour _ _ bt bl Hrun) as (l0 & Hl0 & Hle & Hshape).
  split_and!.
  - by apply (two_opt_shortest_reversal distance tsp Hvalid Hsym tour fuel bt).
  - by exists l0.
  - exact (two_opt_measured distance _ tsp tour _ (bt, bl) Hrun).
  - destruct Hshape as [->|(i & j & Hi & Hij & Hj & ->)]; [by left|right].
    exists i, j. split_and!; [done..|lia|done].
Qed.

Lemma two_opt_returns_shortest_reversal_witness :
  (∀ i j l, 1 ≤ i → i + 2 ≤ j → j < 6 →
     path_length grid_distance (line_instance six_in_a_row)
       (reverse_segment [1; 4; 2; 5; 3; 6; 1] i j) = Ok l → (14 <= l)%Q)
  ∧ (∃ l0, path_length grid_distance (line_instance six_in_a_row) [1; 4; 2; 5; 3; 6; 1] = Ok l0
           ∧ (14 <= l0)%Q)
  ∧ path_length grid_distance (line_instance six_in_a_row) [1; 4; 6; 3; 5; 2; 1] = Ok 14%Q
  ∧ ([1; 4; 6; 3; 5; 2; 1] = [1; 4; 2; 5; 3; 6; 1]
     ∨ ∃ i j, 1 ≤ i ∧ i + 2 ≤ j ∧ j < 6
              ∧ [1; 4; 6; 3; 5; 2; 1] = reverse_segment [1; 4; 2; 5; 3; 6; 1] i j).
Proof.
  apply (two_opt_returns_shortest_reversal grid_distance (line_instance six_in_a_row)
           [1; 4; 2; 5; 3; 6; 1] six_in_a_row_matrix 0).
  - split; simpl; lia.
  - apply grid_distance_sym.
  - decide_true.
  - decide_true.
  - vm_compute. reflexivity.
  - vm_compute. reflexivity.
Defined.

(** [X22]: the distance matrix of [fuzzopt] is built without error on a
    valid instance, and reading [dist_matrix[a-1, b-1]] is the same as
    calling [dist(a, b)] for every pair of labels: the same distance, the
    same last city for the label [0], the same [IndexError] above [n]. *)
Theorem build_matrix_holds_the_distances {point} (distance : point → point → Q)
    (tsp : instance) :
  valid_instance tsp →
  ∃ m, build_matrix distance tsp (DIMENSION tsp) = Ok m
       ∧ ∀ a b, matrix_get m a b = dist distance tsp a b.
Proof.
  intros Hvalid. exists (full_matrix distance tsp). split.
  - by apply build_matrix_full.
  - intros a b. by apply matrix_get_dist.
Qed.

Lemma build_matrix_holds_the_distances_witness :
  ∃ m, build_matrix grid_distance (line_instance six_spread) 6 = Ok m
       ∧ ∀ a b, matrix_get m a b = dist grid_distance (line_instance six_spread) a b.
Proof.
  apply (build_matrix_holds_the_distances grid_distance (line_instance six_spread)).
  split; simpl; lia.
Defined.



Lemma sum_list_app (l1 l2 : list nat) : sum_list (l1 ++ l2) = sum_list l1 + sum_list l2.
Proof. induction l1 as [|x l1 IH]; simpl; [done|]. rewrite IH. lia. Qed.

Lemma sum_list_reverse (l : list nat) : sum_list (reverse l) = sum_list l.
Proof.
  induction l as [|x l IH]; [done|].
  rewrite reverse_cons, sum_list_app, IH. simpl. lia.
Qed.

Lemma legs_snoc l t u : last l = Some t → legs (l ++ [u]) = legs l ++ [(t, u)].
Proof.
  intros [l0 ->]%last_Some. unfold legs. rewrite <- app_assoc. simpl app.
  rewrite (zip_drop_app l0 t [u]). done.
Qed.

Lemma traversals_snoc a b l t u :
  last l = Some t → traversals a b (l ++ [u]) = traversals a b l + link a b t u.
Proof.
  intros Hl. unfold traversals. rewrite (legs_snoc l t u Hl), fmap_app, sum_list_app.
  simpl. lia.
Qed.

Lemma traversals_singleton a b u : traversals a b ([] ++ [u]) = 0.
Proof. done. Qed.

Lemma link_same a b x : a ≠ b → link a b x x = 0.
Proof.
  intros Hab. unfold link. rewrite decide_False; [done|]. intros [[-> ->]|[-> ->]]; done.
Qed.

Lemma mod2_succ k : S k mod 2 = 1 - k mod 2.
Proof.
  pose proof (Nat.div_mod_eq k 2). pose proof (Nat.div_mod_eq (S k) 2).
  pose proof (Nat.mod_upper_bound k 2 ltac:(done)).
  pose proof (Nat.mod_upper_bound (S k) 2 ltac:(done)). lia.
Qed.

Lemma legs_reverse l : legs (reverse l) = reverse (prod_swap <$> legs l).
Proof.
  induction l as [|x l IH] using rev_ind; [done|].
  rewrite reverse_app. change (reverse [x]) with [x]. simpl app.
  destruct (last l) as [t|] eqn:Hlast.
  - rewrite (legs_snoc l t x Hlast), fmap_app, reverse_app.
    change (reverse (prod_swap <$> [(t, x)])) with [(x, t)]. simpl app.
    rewrite <- IH. apply last_Some in Hlast as [l0 ->].
    rewrite reverse_app. done.
  - apply last_None in Hlast as ->. done.
Qed.

Lemma traversals_reverse a b l : traversals a b (reverse l) = traversals a b l.
Proof.
  unfold traversals. rewrite legs_reverse, fmap_reverse, sum_list_reverse.
  rewrite <- list_fmap_compose. f_equal. apply list_fmap_ext.
  intros i [x y] _. simpl. apply link_sym.
Qed.

Lemma legs_singleton u : legs [u] = [].
Proof. done. Qed.

Lemma traversals_snoc_cases a b l u :
  traversals a b (l ++ [u])
  = traversals a b l + match last l with Some t => link a b t u | None => 0 end.
Proof.
  destruct (last l) as [t|] eqn:Hlast; [by apply traversals_snoc|].
  apply last_None in Hlast as ->. done.
Qed.

Lemma elem_of_legs_snoc l u p :
  p ∈ legs (l ++ [u]) ↔ p ∈ legs l ∨ ∃ t, last l = Some t ∧ p = (t, u).
Proof.
  destruct (last l) as [t|] eqn:Hlast.
  - rewrite (legs_snoc l t u Hlast), elem_of_app, list_elem_of_singleton. naive_solver.
  - apply last_None in Hlast as ->. change (legs ([] ++ [u])) with (@nil (nat * nat)).
    change (legs []) with (@nil (nat * nat)). split; [by intros ?%elem_of_nil|].
    intros [?%elem_of_nil|(t & ? & _)]; done.
Qed.

(** Following an edge keeps the account of the edges. *)
Lemma trail_inv_push n adj0 start adj stack u v l' nbrs circuit :
  euler_inv n adj0 start adj (stack ++ [u]) circuit →
  trail_inv adj0 start adj (stack ++ [u]) circuit →
  adj_get adj u = l' ++ [v] →
  list_remove u (adj_get (<[u := l']> adj) v) = Ok nbrs →
  trail_inv adj0 start (<[v := nbrs]> (<[u := l']> adj)) ((stack ++ [u]) ++ [v]) circuit.
Proof.
  intros Hinv (anchor & Hanchor & Hcount & Hparity & Hhead & Hlegs & Hjoin) Hl' Hremove.
  destruct (euler_inv_push n adj0 start adj stack u v l' circuit Hinv Hl')
    as (nbrs' & Hremove' & Hvu & Hlen & Htake & _).
  rewrite Hremove in Hremove'. injection Hremove' as <-.
  rewrite last_snoc in Hcount, Hparity.
  exists anchor. split_and!; [done| | |done| |].
  - intros a b Hab. rewrite (Hcount a b Hab), (traversals_snoc a b _ u v), !last_snoc
      by apply last_snoc.
    specialize (Htake a b). rewrite (link_ends a b u v). rewrite (link_ends a b) in Htake. lia.
  - intros x. rewrite last_snoc. rewrite !adj_get_insert.
    pose proof (Hparity u) as Hpu. pose proof (Hparity v) as Hpv.
    specialize (Hparity x).
    rewrite Hl', length_app in Hpu. change (length [v]) with 1 in Hpu.
    replace (length l' + 1) with (S (length l')) in Hpu by lia.
    rewrite Hlen in Hpv. rewrite mod2_succ in Hpu, Hpv.
    pose proof (Nat.mod_upper_bound (length l') 2 ltac:(done)).
    pose proof (Nat.mod_upper_bound (length nbrs) 2 ltac:(done)).
    unfold odd_end in *.
    destruct (decide (x = v)) as [->|Hxv]; [|destruct (decide (x = u)) as [->|Hxu]];
      repeat case_decide; try lia; exfalso; naive_solver.
  - intros x y [Hxy|Hxy]%elem_of_app; [|apply Hlegs, elem_of_app; by right].
    apply elem_of_legs_snoc in Hxy as [Hxy|(t & Ht & [= -> ->])].
    + apply Hlegs, elem_of_app. by left.
    + rewrite last_snoc in Ht. injection Ht as <-. done.
  - intros c _. apply Hjoin. by destruct stack.
Qed.

(** Backtracking keeps it too: the walk is back at [anchor]. *)
Lemma trail_inv_pop n adj0 start adj stack u circuit :
  euler_inv n adj0 start adj (stack ++ [u]) circuit →
  trail_inv adj0 start adj (stack ++ [u]) circuit →
  adj_get adj u = [] →
  trail_inv adj0 start adj stack (circuit ++ [u]).
Proof.
  intros Hinv (anchor & Hanchor & Hcount & Hparity & Hhead & Hlegs & Hjoin) Hu.
  rewrite last_snoc in Hcount, Hparity.
  assert (u = anchor) as <-.
  { specialize (Hparity u). rewrite Hu in Hparity. unfold odd_end in Hparity.
    case_decide as Hcase; [done|]. destruct (decide (u = anchor)); [done|].
    exfalso. apply Hcase. auto. }
  assert (∀ c, last circuit = Some c → u ≠ c) as Hjoin'.
  { intros c. apply Hjoin. by destruct stack. }
  exists (default u (last stack)). split_and!.
  - intros Hnil. by destruct circuit.
  - intros a b Hab. rewrite (Hcount a b Hab), !traversals_snoc_cases, last_snoc.
    destruct (last stack) as [t|], (last circuit) as [c|]; simpl;
      rewrite ?(link_sym a b c u); lia.
  - intros x. specialize (Hparity x). rewrite Hparity. unfold odd_end.
    rewrite decide_False by tauto.
    destruct (last stack) as [t|]; [|done]. simpl. rewrite decide_False; [done|tauto].
  - right. destruct circuit as [|c circuit]; [|by destruct Hhead].
    simpl. by rewrite Hanchor.
  - intros x y [Hxy|Hxy]%elem_of_app.
    + apply Hlegs, elem_of_app. left. apply elem_of_legs_snoc. by left.
    + apply elem_of_legs_snoc in Hxy as [Hxy|(c & Hc & [= -> ->])].
      * apply Hlegs, elem_of_app. by right.
      * intros Heq. by apply (Hjoin' c Hc).
  - intros c Hstack Hc. rewrite last_snoc in Hc. injection Hc as <-.
    destruct (last stack) as [t|] eqn:Hlast; [|by apply last_None in Hlast].
    simpl. apply (Hlegs t u). apply elem_of_app. left. apply elem_of_legs_snoc. right. eauto.
Qed.

Lemma sum_list_elem_of {A} (f : A → nat) (l : list A) x :
  x ∈ l → f x ≤ sum_list (f <$> l).
Proof.
  induction l as [|y l IH]; intros Hx; [by apply elem_of_nil in Hx|].
  rewrite fmap_cons. simpl. apply elem_of_cons in Hx as [->|Hx]; [lia|].
  specialize (IH Hx). lia.
Qed.

(** On a connected multigraph with even degrees [eulerian_tour] returns
    an Euler circuit. *)
Lemma eulerian_tour_circuit n adj :
  1 ≤ n → sym_graph n adj → linked n adj → even_degrees adj →
  ∃ circuit,
    eulerian_tour adj 1 = Ok circuit
    ∧ head circuit = Some 1 ∧ last circuit = Some 1
    ∧ (∀ z, z ∈ circuit ↔ in_range n z)
    ∧ (∀ a b, a ≠ b → traversals a b circuit = occurrences b (adj_get adj a))
    ∧ (∀ x y, (x, y) ∈ legs circuit → y ∈ adj_get adj x).
Proof.
  intros Hn Hsym Hlinked Heven.
  destruct (eulerian_loop_run (trail_inv adj 1) n adj 1 (S (adj_entries adj)) adj [1] [])
    as (circuit & adj' & Hrun & (Hsym' & Hdone & Hedges & Hrange & Hstart)
        & (anchor & _ & Hcount & _ & Hhead & Hlegs & _)).
  { intros. by eapply trail_inv_push. }
  { intros. by eapply trail_inv_pop. }
  { split_and!; [done| | | |by left].
    - by intros x ?%elem_of_nil.
    - intros a b Hb. by left.
    - intros x ->%list_elem_of_singleton. unfold in_range. lia. }
  { exists 1. split_and!; [done| | |by left| |done].
    - intros a b Hab. change (traversals a b [1]) with 0. change (traversals a b []) with 0.
      simpl. lia.
    - intros x. rewrite (Heven x). change (last [1]) with (Some 1). unfold odd_end.
      by rewrite decide_False by tauto.
    - by intros x y ?%elem_of_nil. }
  { simpl. lia. }
  destruct Hstart as [?|[_ Hlast]]; [done|].
  assert (∀ z, in_range n z → z ∈ circuit) as Hall.
  { intros z Hz.
    apply (rtc_ind_r (R := adj_step adj) (fun z => z ∈ circuit) 1); [| |by apply Hlinked].
    - apply last_Some in Hlast as [c ->]. apply elem_of_app. right.
      by apply list_elem_of_singleton.
    - intros a b _ Hab Ha. destruct (Hedges a b Hab) as [Hin|[_ Hb]]; [|done].
      rewrite (Hdone a Ha) in Hin. by apply elem_of_nil in Hin. }
  assert (∀ a, adj_get adj' a = []) as Hempty.
  { intros a. destruct (adj_get adj' a) as [|b l] eqn:E; [done|]. exfalso.
    destruct Hsym' as [Hlabels _]. destruct (Hlabels a b) as (Ha & _); [rewrite E; left|].
    rewrite (Hdone a (Hall a Ha)) in E. done. }
  assert (∀ a b, a ≠ b → traversals a b circuit = occurrences b (adj_get adj a)) as Htrav.
  { intros a b Hab. rewrite (Hcount a b Hab), Hempty. simpl.
    change (traversals a b []) with 0. change (occurrences b []) with 0. lia. }
  unfold eulerian_tour. rewrite Hrun, bind_Ok. exists (reverse circuit).
  split_and!; [done|by rewrite head_reverse| | | |].
  - rewrite last_reverse. destruct Hhead as [->|?]; done.
  - intros z. rewrite elem_of_reverse. split; [apply Hrange|apply Hall].
  - intros a b Hab. rewrite traversals_reverse. by apply Htrav.
  - intros x y Hxy. rewrite legs_reverse, elem_of_reverse, list_elem_of_fmap in Hxy.
    destruct Hxy as ([b a] & [= -> ->] & Hxy).
    assert (b ≠ a) as Hne by (apply Hlegs; simpl; done).
    apply occurrences_elem_of. rewrite <- (Htrav a b) by done. unfold traversals.
    pose proof (sum_list_elem_of (fun p : nat * nat => link a b p.1 p.2) _ _ Hxy) as Hle.
    simpl in Hle. unfold link in Hle at 1. rewrite decide_True in Hle by tauto. lia.
Qed.

(** [X24]: in [christofides], on a valid instance and whatever the order
    of Python's sets, [eulerian_tour] returns an Euler circuit of the tree
    plus the matching: a walk from city 1 back to city 1 through every
    city, along edges of the multigraph only, that goes along every edge
    as often as the lists hold it, that is exactly once per copy. *)
Theorem christofides_circuit_is_eulerian {point} (distance : point → point → Q)
    (env : environment) (tsp : instance) :
  valid_instance tsp → sets_behave env →
  ∃ adj matching adj' circuit,
    prim_mst distance tsp = Ok adj
    ∧ greedy_matching distance (env_set_pop env) (env_set_iter env)
        (size (list_to_set (odd_vertices adj) : gset nat)) tsp
        (list_to_set (odd_vertices adj)) [] adj = Ok (matching, adj')
    ∧ eulerian_tour adj' 1 = Ok circuit
    ∧ head circuit = Some 1 ∧ last circuit = Some 1
    ∧ (∀ z, z ∈ circuit ↔ in_range (DIMENSION tsp) z)
    ∧ (∀ a b, a ≠ b → traversals a b circuit = occurrences b (adj_get adj' a))
    ∧ (∀ x y, (x, y) ∈ legs circuit → y ∈ adj_get adj' x).
Proof.
  intros Hvalid [Hpop Hiter]. pose proof Hvalid as [Hn _].
  destruct (prim_mst_returns distance tsp Hvalid) as (adj & Hprim & Hfinal).
  destruct (christofides_graph distance tsp Hvalid _ _ Hpop Hiter adj Hfinal)
    as (matching & adj' & Hmatch & Hsym & Hlinked & Heven).
  destruct (eulerian_tour_circuit (DIMENSION tsp) adj' Hn Hsym Hlinked Heven)
    as (circuit & Hrun & Hcircuit).
  by exists adj, matching, adj', circuit.
Qed.

Lemma christofides_circuit_is_eulerian_witness :
  ∃ adj matching adj' circuit,
    prim_mst grid_distance (line_instance six_spread) = Ok adj
    ∧ greedy_matching grid_distance first_element elements
        (size (list_to_set (odd_vertices adj) : gset nat)) (line_instance six_spread)
        (list_to_set (odd_vertices adj)) [] adj = Ok (matching, adj')
    ∧ eulerian_tour adj' 1 = Ok circuit
    ∧ head circuit = Some 1 ∧ last circuit = Some 1
    ∧ (∀ z, z ∈ circuit ↔ in_range 6 z)
    ∧ (∀ a b, a ≠ b → traversals a b circuit = occurrences b (adj_get adj' a))
    ∧ (∀ x y, (x, y) ∈ legs circuit → y ∈ adj_get adj' x).
Proof.
  apply (christofides_circuit_is_eulerian grid_distance (plain_env [] [] 0)
           (line_instance six_spread)).
  - split; simpl; lia.
  - apply plain_env_sets_behave.
Defined.

(** ** Cities in a row: the deepest tree *)

Lemma row_valid n : 1 ≤ n → valid_instance (row n).
Proof.
  intros Hn. unfold valid_instance, row, line_instance. simpl.
  rewrite length_map, !length_fmap, length_seq. done.
Qed.

Lemma row_dimension n : DIMENSION (row n) = n.
Proof. unfold row, line_instance. simpl. by rewrite length_fmap, length_seq. Qed.

Lemma row_city n u :
  in_range n u → CITIES (row n) !! (u - 1) = Some (Z.of_nat (u - 1), 0%Z).
Proof.
  intros Hu. unfold in_range in Hu. unfold row, line_instance. simpl.
  assert (∀ l : list Z, map (fun x => (x, 0%Z)) l = (fun x => (x, 0%Z)) <$> l) as ->.
  { induction l as [|x l IH]; [done|]. simpl. by rewrite IH. }
  rewrite !list_lookup_fmap, lookup_seq_lt by lia. done.
Qed.

(** The distance between two cities of the row is the difference of
    their labels. *)
Lemma row_dist n u v :
  in_range n u → in_range n v →
  dist_of grid_distance (row n) u v = inject_Z (Z.abs (Z.of_nat u - Z.of_nat v)).
Proof.
  intros Hu Hv. unfold dist_of, dist.
  rewrite (py_get_label_lookup _ u _ ltac:(unfold in_range in Hu; lia) (row_city n u Hu)).
  rewrite (py_get_label_lookup _ v _ ltac:(unfold in_range in Hv; lia) (row_city n v Hv)).
  simpl. rewrite grid_distance_on_line. unfold in_range in *. f_equal. lia.
Qed.

Lemma chain_root a k : root (chain a k) = a.
Proof. by destruct k. Qed.

Lemma chain_preorder a k : preorder (chain a k) = seq a (S k).
Proof.
  revert a. induction k as [|k IH]; intros a; [done|].
  simpl. rewrite app_nil_r. by rewrite IH.
Qed.

Lemma chain_height a k : height (chain a k) = S k.
Proof.
  revert a. induction k as [|k IH]; intros a; [done|].
  cbn [chain height]. rewrite fmap_cons, fmap_nil, IH. done.
Qed.

Lemma chain_add_leaf a k : add_leaf (a + k) (S (a + k)) (chain a k) = chain a (S k).
Proof.
  revert a. induction k as [|k IH]; intros a.
  - simpl. rewrite Nat.add_0_r, decide_True by done. done.
  - cbn [chain add_leaf]. rewrite decide_False by lia.
    rewrite fmap_cons, fmap_nil.
    replace (a + S k) with (S a + k) by lia. by rewrite IH.
Qed.

(** On a row Prim's loop visits the cities from left to right and hangs
    every city under the one before. *)
Lemma row_prim_reach n visited adj heap :
  1 ≤ n →
  prim_reach grid_distance (row n) visited adj heap →
  ∃ k, (∀ z, z ∈ visited ↔ 1 ≤ z ≤ S k) ∧ tree_adj adj None (chain 1 k).
Proof.
  intros Hn Hreach. pose proof (row_valid n Hn) as Hvalid.
  induction Hreach as
    [|visited adj e h w u v rest Hreach IH Hsize Hpop Hv
     |visited adj e h w u v rest Hreach IH Hsize Hpop Hv].
  - exists 0. split.
    + intros z. rewrite elem_of_singleton. lia.
    + constructor; [|done]. unfold adj_get. by rewrite lookup_empty.
  - done.
  - destruct IH as (k & Hvisited & Hadj).
    pose proof (pop_min_perm _ _ _ _ Hpop) as Hperm.
    pose proof (pop_min_least _ _ _ _ Hpop) as Hleast. simpl in Hleast.
    pose proof (prim_reach_labels _ _ _ _ _ Hvalid Hreach) as (Hr & _ & Hheap & Hdom & _).
    destruct (prim_reach_shape grid_distance (row n) Hvalid _ _ _ Hreach) as [[Hw Hcut] _].
    rewrite Hperm in Hheap, Hw. rewrite row_dimension in Hheap, Hr, Hcut.
    apply Forall_cons in Hheap as [[Hu Hvr] _]. apply Forall_cons in Hw as [Hwuv _].
    cbn [fst snd] in Hu, Hvr, Hwuv.
    pose proof (Hr u Hu) as Hur.
    apply Hvisited in Hu.
    assert (S (S k) ≤ v) as Hvk.
    { destruct (decide (S (S k) ≤ v)) as [?|Hnot]; [done|]. exfalso. apply Hv, Hvisited.
      unfold in_range in Hvr. lia. }
    assert (in_range n (S k) ∧ in_range n (S (S k))) as [Hk1 Hk2]
      by (unfold in_range in *; lia).
    assert (u = S k ∧ v = S (S k)) as [-> ->].
    { assert ((w <= dist_of grid_distance (row n) (S k) (S (S k)))%Q) as Hle.
      { apply (Hleast (dist_of grid_distance (row n) (S k) (S (S k)), S k, S (S k))).
        apply Hcut; [apply Hvisited; lia|done|]. intros ?%Hvisited. lia. }
      rewrite Hwuv, !row_dist in Hle by done.
      rewrite <- Zle_Qle in Hle. lia. }
    exists (S k). split.
    + intros z. rewrite elem_of_union, elem_of_singleton, Hvisited. lia.
    + rewrite <- (chain_add_leaf 1 k). simpl.
      apply tree_adj_add_leaf; [lia| |done|..].
      * unfold adj_get. destruct (adj !! S (S k)) eqn:E; [|done].
        exfalso. apply Hv, Hdom. by eexists.
      * rewrite chain_preorder. apply NoDup_seq.
      * rewrite chain_preorder, elem_of_seq. lia.
      * rewrite chain_preorder, elem_of_seq. lia.
Qed.

Lemma row_metric n : metric_instance grid_distance (row n).
Proof.
  intros i j k Hi Hj Hk. rewrite row_dimension in Hi, Hj, Hk.
  rewrite !row_dist by done. rewrite <- inject_Z_plus.
  split_and!.
  - by rewrite Z.sub_diag.
  - apply inject_Z_injective. lia.
  - rewrite <- Zle_Qle. lia.
Qed.

(** [X25]: [n] cities in a row are a valid instance with metric
    distances on which the tree of Prim's loop is one path, so that [dfs]
    nests one call per city: [approx_tsp_tour] returns the tour
    1, 2, ..., n, 1 when the interpreter allows [n] nested calls and
    raises [RecursionError] when it allows fewer. *)
Theorem approx_tsp_tour_overflows_on_a_row (frames n : nat) :
  1 ≤ n →
  valid_instance (row n) ∧ metric_instance grid_distance (row n)
  ∧ ∃ len,
      path_length grid_distance (row n) (seq 1 n ++ [1]) = Ok len
      ∧ approx_tsp_tour grid_distance frames (row n)
        = if decide (n ≤ frames) then Ok (len, seq 1 n ++ [1]) else Raise RecursionError.
Proof.
  intros Hn. pose proof (row_valid n Hn) as Hvalid.
  split; [done|]. split; [apply row_metric|].
  destruct (prim_mst_returns grid_distance (row n) Hvalid)
    as (adj & Hprim & visited & heap & Hreach & Hend).
  destruct (row_prim_reach n visited adj heap Hn Hreach) as (k & Hvisited & Hadj).
  pose proof (prim_final_spans grid_distance (row n) Hvalid visited adj heap Hreach Hend)
    as Hall.
  rewrite row_dimension in Hall.
  assert (n = S k) as Hk.
  { pose proof (proj1 (Hall (S k)) (proj2 (Hvisited (S k)) ltac:(lia))) as H1.
    pose proof (proj1 (Hvisited n) (proj2 (Hall n) ltac:(unfold in_range; lia))) as H2.
    unfold in_range in H1. lia. }
  assert (Forall (in_range (DIMENSION (row n))) (seq 1 n ++ [1])) as Hrange.
  { rewrite row_dimension. apply Forall_app. split.
    - apply Forall_forall. intros z Hz%elem_of_seq. unfold in_range. lia.
    - apply Forall_singleton. unfold in_range. lia. }
  destruct (path_length_returns grid_distance (row n) Hvalid _ Hrange) as [len Hlen].
  exists len. split; [done|].
  unfold approx_tsp_tour. rewrite Hprim, bind_Ok. cbv zeta.
  pose proof (dfs_height adj (chain 1 k) None frames [] Hadj) as Hdfs.
  rewrite chain_root, chain_height, chain_preorder, <- Hk in Hdfs.
  rewrite Hdfs; [|apply NoDup_seq|done]. simpl app.
  destruct (decide (n ≤ frames)); [|done].
  rewrite bind_Ok. unfold path_length in Hlen. by rewrite Hlen.
Qed.

Lemma approx_tsp_tour_overflows_on_a_row_witness :
  approx_tsp_tour grid_distance 997 (row 1100) = Raise RecursionError.
Proof.
  destruct (approx_tsp_tour_overflows_on_a_row 997 1100) as (_ & _ & len & _ & ->); [lia|].
  by rewrite decide_False by lia.
Defined.
